(** * leonicworld: the blog listing, the post detail view, the intro
      overlays and the storage helpers, embedded from the JavaScript sources

    Part I holds the embedding, one module per source unit:
    - [Js]           the string, number and array operations of the
                     platform that the sources call
    - [Json], [LocalStorage]  the values and the store behind
                     [utils.storage]
    - [Utils]        src/js/utils.js ([escapeHtml], [fetchJSON], [storage],
                     [calculateReadTime], [debounce], [throttle])
    - [Markup]       template literals that end up in [innerHTML]
    - [Blog]         class BlogSystem
    - [SinglePost]   class SinglePostLoader
    - [Starfield]    class StarfieldLoader (src/js/welcome.js)
    - [Welcome]      class WelcomeAnimation (src/js/welcome.js)
    - [Navigation]   class Navigation: mobile menu, scroll handlers and
                     active links
    - [Typewriter]   class TypewriterEffect (src/js/animations.js)
    - [Main]         src/js/main.js: page names and tooltips

    A vocabulary part names the properties in the words of the
    specification, and Part II proves them.  Part III proves further
    properties that the code shows: edge cases, invariants of the
    event handlers and how the operations compose.

    Modelling conventions.  Text is [string] and stands for ASCII text;
    the case mapping and the white-space class are the ASCII ones.  A post's
    [date] is kept as the time value that [new Date(post.date)] yields,
    [None] for an invalid date (NaN).  The DOM pieces a class touches are
    fields of an explicit page record that is threaded through the calls;
    a mount point that [querySelector] does not find is [None].  An
    [async] method is run to its end with the outcome of each [fetch]
    given as an argument; timers, animation frames and user input of the
    two overlays are events that may arrive in any order.  [localStorage]
    and [sessionStorage] are stores whose calls may throw. *)

From Stdlib Require Import ZArith String Ascii List Lia Permutation Bool.
From Stdlib Require Import DecimalString DecimalZ DecimalPos.
From stdpp Require Import gmap strings list sorting.
Import ListNotations.
Open Scope string_scope.
Open Scope list_scope.

(* ===================================================================== *)
(** * Part I: the embedding                                              *)
(* ===================================================================== *)

Module Js.

(** The class [\s] restricted to ASCII: tab, line feed, vertical tab,
    form feed, carriage return and space. *)
Definition isWhiteSpace (c : ascii) : bool :=
  let n := nat_of_ascii c in
  ((9 <=? n)%nat && (n <=? 13)%nat) || (n =? 32)%nat.

Definition toLowerChar (c : ascii) : ascii :=
  let n := nat_of_ascii c in
  if ((65 <=? n)%nat && (n <=? 90)%nat) then ascii_of_nat (n + 32) else c.

(** [String.prototype.toLowerCase] *)
Fixpoint toLowerCase (s : string) : string :=
  match s with
  | EmptyString => EmptyString
  | String c s' => String (toLowerChar c) (toLowerCase s')
  end.

(** [s.replace(/\s+/g, '-')]: every maximal run of white space becomes
    one hyphen.  [inRun] tells that the previous character belonged to
    a run whose hyphen is already written. *)
Fixpoint replaceRuns (inRun : bool) (s : string) : string :=
  match s with
  | EmptyString => EmptyString
  | String c s' =>
      if isWhiteSpace c
      then if inRun then replaceRuns true s'
           else String "-" (replaceRuns true s')
      else String c (replaceRuns false s')
  end.

Definition replaceWhiteSpace (s : string) : string := replaceRuns false s.

(** [s.charAt(0)]: the first character as a string, empty on [""]. *)
Definition charAt0 (s : string) : string :=
  match s with
  | EmptyString => EmptyString
  | String c _ => String c EmptyString
  end.

(** A number as the comparison callbacks produce it: [None] is NaN. *)
Definition number := option Z.

(** Subtraction of two time values; NaN is contagious.  Time values are
    integers below 2^53 in magnitude, so the sign of the double result
    is the sign of the exact difference. *)
Definition minus (x y : number) : number :=
  match x, y with
  | Some a, Some b => Some (a - b)%Z
  | _, _ => None
  end.

Section Sort.
Context {A : Type} (comparefn : A -> A -> number).

(** SortCompare of ECMAScript: the callback's result, NaN read as +0. *)
Definition sortCompare (x y : A) : Z :=
  match comparefn x y with
  | Some v => v
  | None => 0%Z
  end.

(** One pass of the insertion loop.  [prefix] is the already sorted
    part in reverse, so its head is the element next to the hole:
    [swap] moves one place up while [comparefn(swap, item) > 0]. *)
Fixpoint insertItem (item : A) (prefix : list A) : list A :=
  match prefix with
  | [] => [item]
  | swap :: rest =>
      if (sortCompare swap item <=? 0)%Z
      then item :: swap :: rest
      else swap :: insertItem item rest
  end.

(** [Array.prototype.sort(comparefn)].  ECMAScript asks for a stable
    sort, which fixes the result when the callback is a consistent
    comparison, and leaves the order to the implementation when it is
    not.  The model is the left-to-right insertion sort.  For a
    consistent callback it yields the one order the standard allows;
    for an inconsistent one (a NaN next to a date that does not parse)
    it yields one of the orders an engine may produce, and the engines
    differ among themselves there. *)
Definition sort (l : list A) : list A :=
  rev (fold_left (fun prefix item => insertItem item prefix) l []).
End Sort.

(** [xs.findIndex(pred)]: the first index whose element satisfies
    [pred], -1 when there is none. *)
Fixpoint findIndexFrom {A : Type} (pred : A -> bool) (i : Z) (xs : list A)
  : Z :=
  match xs with
  | [] => (-1)%Z
  | x :: rest => if pred x then i else findIndexFrom pred (i + 1)%Z rest
  end.

Definition findIndex {A : Type} (pred : A -> bool) (xs : list A) : Z :=
  findIndexFrom pred 0%Z xs.

(** [xs[i]]: [undefined] below 0 and from the length on. *)
Definition at_ {A : Type} (xs : list A) (i : Z) : option A :=
  if (i <? 0)%Z then None else xs !! Z.to_nat i.

(** [xs.join('')] *)
Definition join (xs : list string) : string :=
  fold_right String.append EmptyString xs.

(** Truthiness of an optional text: absent and [""] are falsy. *)
Definition truthy (o : option string) : bool :=
  match o with
  | Some (String _ _) => true
  | _ => false
  end.

(** [o || d] on an optional text. *)
Definition orElse (o : option string) (d : string) : string :=
  match o with
  | Some (String c s) => String c s
  | _ => d
  end.

(** [s.trim()]: the white space at both ends is dropped. *)
Fixpoint trimStart (s : string) : string :=
  match s with
  | String c rest => if isWhiteSpace c then trimStart rest else s
  | EmptyString => EmptyString
  end.

Fixpoint trimEnd (s : string) : string :=
  match s with
  | EmptyString => EmptyString
  | String c rest =>
      match trimEnd rest with
      | EmptyString =>
          if isWhiteSpace c then EmptyString else String c EmptyString
      | String d kept => String c (String d kept)
      end
  end.

Definition trim (s : string) : string := trimEnd (trimStart s).

(** [s.split(/\s+/)]: the pieces between the maximal runs of white
    space.  A run at either end leaves an empty piece there, and the
    empty text gives one empty piece.  [piece] collects the characters
    read since the last run. *)
Fixpoint splitRuns (inRun : bool) (piece : string) (s : string)
  : list string :=
  match s with
  | EmptyString => [piece]
  | String c rest =>
      if isWhiteSpace c
      then if inRun then splitRuns true piece rest
           else piece :: splitRuns true EmptyString rest
      else splitRuns false (piece +:+ String c EmptyString) rest
  end.

Definition splitWhiteSpace (s : string) : list string :=
  splitRuns false EmptyString s.

(** A whole number in a template literal: its decimal digits. *)
Definition decimal (n : nat) : string :=
  NilZero.string_of_uint (Nat.to_uint n).

(** [s.split('/').pop()]: the text after the last slash, the whole
    text when there is none.  [piece] collects the characters read since
    the last slash. *)
Fixpoint lastSegmentFrom (piece : string) (s : string) : string :=
  match s with
  | EmptyString => piece
  | String c rest =>
      if Ascii.eqb c "/" then lastSegmentFrom EmptyString rest
      else lastSegmentFrom (piece +:+ String c EmptyString) rest
  end.

Definition lastSegment (s : string) : string :=
  lastSegmentFrom EmptyString s.

(** The rest of [s] after the prefix [p], when [s] starts with it. *)
Fixpoint afterPrefix (p s : string) : option string :=
  match p, s with
  | EmptyString, _ => Some s
  | String a p', String b s' =>
      if Ascii.eqb a b then afterPrefix p' s' else None
  | String _ _, EmptyString => None
  end.

(** [s.replace(pattern, replacement)] with a text pattern: the first
    occurrence is replaced. *)
Fixpoint replaceFirst (pattern replacement : string) (s : string)
  : string :=
  match afterPrefix pattern s with
  | Some rest => replacement +:+ rest
  | None =>
      match s with
      | EmptyString => EmptyString
      | String c rest => String c (replaceFirst pattern replacement rest)
      end
  end.

End Js.

(** A post record of [data/posts.json]. *)
Record Post := mkPost {
  id : string;              (* [post.id.toString()] *)
  title : string;
  excerpt : string;
  content : option string;  (* pre-rendered markup, may be absent *)
  author : string;
  category : string;
  tags : list string;
  date : option Z;          (* time value of [new Date(post.date)] *)
  image : option string;
  readTime : option string
}.

(** The [posts] member of the fetched document. *)
Inductive PostsField :=
| PostsMissing                 (* undefined, null or another falsy value *)
| PostsNotArray                (* a truthy value without array methods *)
| PostsArray (ps : list Post).

(** What [response.json()] delivers: [null], or a value with or without
    a [posts] member. *)
Inductive JsonDoc :=
| DocNull
| DocObject (posts : PostsField).

(** How one [fetch] of the posts URL ends. *)
Inductive FetchOutcome :=
| FetchRejected                (* network failure: [fetch] rejects *)
| FetchNotOk (status : Z)      (* [response.ok] is false *)
| FetchBadJson                 (* [response.json()] rejects *)
| FetchJson (d : JsonDoc).

(** The values that cross [localStorage]: the JSON-shaped part of the
    JavaScript values, numbers being integers. *)
Module Json.

#[local] Set Warnings "-register-all".

Inductive value :=
| Null
| Bool (b : bool)
| Num (n : Z)
| Str (s : string)
| Arr (items : list value)
| Obj (members : list (string * value)).

(** Truthiness: [null], [false], 0 and [""] are falsy. *)
Definition truthy (v : value) : bool :=
  match v with
  | Null => false
  | Bool b => b
  | Num n => negb (n =? 0)%Z
  | Str s => negb (String.eqb s "")
  | Arr _ | Obj _ => true
  end.

(** [v.name]: the member of an object, [undefined] elsewhere. *)
Fixpoint member (name : string) (members : list (string * value))
  : option value :=
  match members with
  | [] => None
  | (k, v) :: rest => if String.eqb k name then Some v else member name rest
  end.

Definition prop (name : string) (v : value) : option value :=
  match v with
  | Obj members => member name members
  | _ => None
  end.

(** ** A reference codec

    [JSON.stringify] and [JSON.parse] belong to the platform and are
    parameters of the code that calls them.  The codec below writes and
    reads the compact form; it instantiates those parameters where a
    concrete one is needed. *)

Definition dq : ascii := ascii_of_nat 34.
Definition backslash : ascii := ascii_of_nat 92.

Fixpoint escape (s : string) : string :=
  match s with
  | EmptyString => EmptyString
  | String c rest =>
      if Ascii.eqb c dq || Ascii.eqb c backslash
      then String backslash (String c (escape rest))
      else String c (escape rest)
  end.

Definition quote (s : string) : string :=
  String dq (escape s +:+ String dq EmptyString).

Fixpoint commaSep (xs : list string) : string :=
  match xs with
  | [] => EmptyString
  | [x] => x
  | x :: rest => x +:+ "," +:+ commaSep rest
  end.

Fixpoint stringify (v : value) : string :=
  match v with
  | Null => "null"
  | Bool true => "true"
  | Bool false => "false"
  | Num n => NilZero.string_of_int (Z.to_int n)
  | Str s => quote s
  | Arr items => "[" +:+ commaSep (map stringify items) +:+ "]"
  | Obj members =>
      "{" +:+ commaSep (map (fun kv => quote (fst kv) +:+ ":"
                                       +:+ stringify (snd kv)) members)
      +:+ "}"
  end.

Definition isDigit (c : ascii) : bool :=
  let n := nat_of_ascii c in ((48 <=? n)%nat && (n <=? 57)%nat).

(** The longest prefix of digits, and the rest. *)
Fixpoint spanDigits (s : string) : string * string :=
  match s with
  | String c rest =>
      if isDigit c
      then let '(ds, r) := spanDigits rest in (String c ds, r)
      else (EmptyString, s)
  | EmptyString => (EmptyString, EmptyString)
  end.

(** The text of a string literal after its opening quote. *)
Fixpoint readString (s : string) : option (string * string) :=
  match s with
  | EmptyString => None
  | String c rest =>
      if Ascii.eqb c dq then Some (EmptyString, rest)
      else if Ascii.eqb c backslash then
        match rest with
        | String e rest' =>
            match readString rest' with
            | Some (t, r) => Some (String e t, r)
            | None => None
            end
        | EmptyString => None
        end
      else
        match readString rest with
        | Some (t, r) => Some (String c t, r)
        | None => None
        end
  end.

Fixpoint stripPrefix (p s : string) : option string :=
  match p, s with
  | EmptyString, _ => Some s
  | String a p', String b s' =>
      if Ascii.eqb a b then stripPrefix p' s' else None
  | String _ _, EmptyString => None
  end.

Definition readNumber (s : string) : option (value * string) :=
  let '(sign, body) :=
    match s with
    | String "-" rest => ("-", rest)
    | _ => ("", s)
    end in
  let '(ds, r) := spanDigits body in
  match ds with
  | EmptyString => None
  | _ => match NilZero.int_of_string (sign +:+ ds) with
         | Some d => Some (Num (Z.of_int d), r)
         | None => None
         end
  end.

Fixpoint readValue (fuel : nat) (s : string) : option (value * string) :=
  match fuel with
  | 0 => None
  | S fuel' =>
      match s with
      | String "n" _ =>
          option_map (fun r => (Null, r)) (stripPrefix "null" s)
      | String "t" _ =>
          option_map (fun r => (Bool true, r)) (stripPrefix "true" s)
      | String "f" _ =>
          option_map (fun r => (Bool false, r)) (stripPrefix "false" s)
      | String "[" (String "]" r) => Some (Arr [], r)
      | String "[" rest =>
          option_map (fun '(items, r) => (Arr items, r))
                     (readItems fuel' rest)
      | String "{" (String "}" r) => Some (Obj [], r)
      | String "{" rest =>
          option_map (fun '(members, r) => (Obj members, r))
                     (readMembers fuel' rest)
      | String c rest =>
          if Ascii.eqb c dq
          then option_map (fun '(t, r) => (Str t, r)) (readString rest)
          else readNumber s
      | EmptyString => None
      end
  end
with readItems (fuel : nat) (s : string) : option (list value * string) :=
  match fuel with
  | 0 => None
  | S fuel' =>
      match readValue fuel' s with
      | Some (v, String "," r) =>
          option_map (fun '(vs, r') => (v :: vs, r')) (readItems fuel' r)
      | Some (v, String "]" r) => Some ([v], r)
      | _ => None
      end
  end
with readMembers (fuel : nat) (s : string)
     : option (list (string * value) * string) :=
  match fuel with
  | 0 => None
  | S fuel' =>
      match s with
      | String c rest =>
          if Ascii.eqb c dq then
            match readString rest with
            | Some (k, String ":" r) =>
                match readValue fuel' r with
                | Some (v, String "," r') =>
                    option_map (fun '(ms, r'') => ((k, v) :: ms, r''))
                               (readMembers fuel' r')
                | Some (v, String "}" r') => Some ([(k, v)], r')
                | _ => None
                end
            | _ => None
            end
          else None
      | EmptyString => None
      end
  end.

Definition parse (s : string) : option value :=
  match readValue (S (String.length s)) s with
  | Some (v, EmptyString) => Some v
  | _ => None
  end.

End Json.

(** The browser's [localStorage]. *)
Module LocalStorage.

Record t := mk {
  items : gmap string string;
  denied : bool;      (* every access throws a SecurityError *)
  room : nat          (* quota: a longer text makes [setItem] throw *)
}.

(** [getItem]: [None] when the call throws, [Some None] for [null]. *)
Definition getItem (key : string) (ls : t) : option (option string) :=
  if denied ls then None else Some (items ls !! key).

(** [setItem]: [None] when the call throws. *)
Definition setItem (key text : string) (ls : t) : option t :=
  if denied ls then None
  else if (room ls <? String.length text)%nat then None
  else Some (mk (<[key := text]> (items ls)) (denied ls) (room ls)).

Definition removeItem (key : string) (ls : t) : option t :=
  if denied ls then None
  else Some (mk (delete key (items ls)) (denied ls) (room ls)).

End LocalStorage.

Module Utils.

(** [escapeHtml]: the text is assigned to [div.textContent] and read
    back through [div.innerHTML]; the serialiser of a text node rewrites
    the ampersand and the two angle brackets (and, outside ASCII, the
    no-break space, which the model leaves out). *)
Definition escapeChar (c : ascii) : string :=
  if Ascii.eqb c "&" then "&amp;"
  else if Ascii.eqb c "<" then "&lt;"
  else if Ascii.eqb c ">" then "&gt;"
  else String c EmptyString.

Fixpoint escapeHtml (text : string) : string :=
  match text with
  | EmptyString => EmptyString
  | String c s => escapeChar c +:+ escapeHtml s
  end.

(** [fetchJSON]: every failure is caught inside, logged, and turned
    into [null]. *)
Definition fetchJSON (o : FetchOutcome) : JsonDoc :=
  match o with
  | FetchJson d => d
  | FetchRejected | FetchNotOk _ | FetchBadJson => DocNull
  end.

(** [storage]: the three helpers around [localStorage].  The codec is
    the platform's: [JSON_stringify v] is the text handed to
    [setItem], [None] when [JSON.stringify] throws; [JSON_parse] is
    [None] when [JSON.parse] throws. *)
Section Storage.
Variable JSON_stringify : Json.value -> option string.
Variable JSON_parse : string -> option Json.value.

Definition storage_get (key : string) (defaultValue : Json.value)
           (ls : LocalStorage.t) : Json.value :=
  match LocalStorage.getItem key ls with
  | Some (Some (String c rest)) =>
      match JSON_parse (String c rest) with
      | Some v => v
      | None => defaultValue           (* caught *)
      end
  | Some (Some EmptyString) => defaultValue   (* falsy item *)
  | Some None => defaultValue
  | None => defaultValue               (* caught *)
  end.

Definition storage_set (key : string) (value : Json.value)
           (ls : LocalStorage.t) : bool * LocalStorage.t :=
  match JSON_stringify value with
  | Some text =>
      match LocalStorage.setItem key text ls with
      | Some ls' => (true, ls')
      | None => (false, ls)
      end
  | None => (false, ls)
  end.

Definition storage_remove (key : string) (ls : LocalStorage.t)
  : bool * LocalStorage.t :=
  match LocalStorage.removeItem key ls with
  | Some ls' => (true, ls')
  | None => (false, ls)
  end.
End Storage.

(** [calculateReadTime(text, wordsPerMinute = 200)]; [None] stands
    for an argument left out, and the rate is a whole number.  The
    quotient of two whole numbers of this size is rounded up exactly by
    [Math.ceil]; a rate of 0 gives [Infinity]. *)
Definition calculateReadTime (text : string) (wordsPerMinute : option nat)
  : string :=
  let wpm := match wordsPerMinute with
             | Some n => n
             | None => 200
             end in
  let words := length (Js.splitWhiteSpace (Js.trim text)) in
  match wpm with
  | 0 => "Infinity min"
  | S _ => Js.decimal ((words + wpm - 1) / wpm) +:+ " min"
  end.

(** What reaches the function that [debounce] or [throttle] returns: a
    call with its arguments, or a timer that the function has set
    comes due. *)
Inductive Signal (A : Type) :=
| Call (args : A)
| TimerDue.
Arguments Call {A} args.
Arguments TimerDue {A}.

Section Debounce.
Context {A : Type}.

(** The closure of [debounce(func, wait)]: [timeout] is the variable of
    that name, [timers] are the timers set and neither due nor cleared
    yet, oldest first, each with its identifier and the arguments that
    its [later] has captured; [ran] lists the calls of [func]. *)
Record Debounced := mkDebounced {
  timeout : option nat;
  timers : list (nat * A);
  nextTimer : nat;
  ran : list A
}.

(** [clearTimeout(id)]; [undefined] and an identifier that is not
    pending clear nothing. *)
Definition clearTimeout (t : option nat) (pending : list (nat * A))
  : list (nat * A) :=
  match t with
  | None => pending
  | Some i => List.filter (fun entry => negb (fst entry =? i)%nat) pending
  end.

Definition executedFunction (args : A) (d : Debounced) : Debounced :=
  let cleared := clearTimeout (timeout d) (timers d) in
  mkDebounced (Some (nextTimer d)) (cleared ++ [(nextTimer d, args)])
              (S (nextTimer d)) (ran d).

Definition later (args : A) (d : Debounced) : Debounced :=
  mkDebounced (timeout d) (clearTimeout (timeout d) (timers d))
              (nextTimer d) (ran d ++ [args]).

(** What [debounce] returns. *)
Definition debounce : Debounced := mkDebounced None [] 0 [].

Definition debounced_fire (d : Debounced) (ev : Signal A) : Debounced :=
  match ev with
  | Call args => executedFunction args d
  | TimerDue =>
      match timers d with
      | [] => d
      | (_, args) :: rest =>
          later args (mkDebounced (timeout d) rest (nextTimer d) (ran d))
      end
  end.

Definition debounced_run (evs : list (Signal A)) (d : Debounced)
  : Debounced :=
  fold_left debounced_fire evs d.
End Debounce.
Arguments Debounced A : clear implicits.

Section Throttle.
Context {A : Type}.

(** The closure of [throttle(func, limit)]: the flag [inThrottle], the
    number of reset timers not yet due, and the calls of [func]. *)
Record Throttled := mkThrottled {
  inThrottle : bool;
  resets : nat;
  passed : list A
}.

(** What [throttle] returns; [inThrottle] starts undefined. *)
Definition throttle : Throttled := mkThrottled false 0 [].

Definition throttled_fire (t : Throttled) (ev : Signal A) : Throttled :=
  match ev with
  | Call args =>
      if inThrottle t then t
      else mkThrottled true (S (resets t)) (passed t ++ [args])
  | TimerDue =>
      match resets t with
      | 0 => t
      | S k => mkThrottled false k (passed t)
      end
  end.

Definition throttled_run (evs : list (Signal A)) (t : Throttled)
  : Throttled :=
  fold_left throttled_fire evs t.
End Throttle.
Arguments Throttled A : clear implicits.

End Utils.

(** Markup built by a template literal: the literal text of the template
    and its interpolations, each interpolation tagged with the field it
    reads and with whether the template passes it through [escapeHtml].
    White space between tags is left out of the literal text. *)
Module Markup.

Inductive Field :=
| FId | FTitle | FExcerpt | FContent | FAuthor | FCategory | FTag
| FDate | FImage | FReadTime | FMessage.

Inductive Piece :=
| Lit (text : string)
| Raw (f : Field) (value : string)   (* [${value}] *)
| Esc (f : Field) (value : string).  (* [${utils.escapeHtml(value)}] *)

Definition pieceHtml (p : Piece) : string :=
  match p with
  | Lit text => text
  | Raw _ value => value
  | Esc _ value => Utils.escapeHtml value
  end.

Definition toHtml (ps : list Piece) : string :=
  Js.join (map pieceHtml ps).

(** The double quote, for attribute values inside literal text. *)
Definition dq : string := String (ascii_of_nat 34) EmptyString.

(** [name="value"] with a literal value. *)
Definition attr (name value : string) : string :=
  name +:+ "=" +:+ dq +:+ value +:+ dq.

End Markup.

Module Blog.

(** [style.display] of the [#load-more] element: untouched, ['none'] or
    ['block']. *)
Inductive Display := DisplayInitial | DisplayNone | DisplayBlock.

(** A child of the grid container. *)
Inductive Node :=
| LoadingState
| EmptyState
| ErrorState (message : string)   (* with the retry button *)
| Card (p : Post).

(** The parts of the document the listing touches. *)
Record Page := mkPage {
  container : option (list Node);  (* [this.container] and its children *)
  loadMore : option Display;       (* [#load-more] *)
  loadMoreBtn : bool               (* [#load-more button] exists *)
}.

Record Options := mkOptions {
  opt_postsPerPage : option nat;
  opt_isPreview : option bool;
  opt_previewCount : option nat
}.

Record BlogSystem := mkBlog {
  postsPerPage : nat;
  isPreview : bool;
  previewCount : nat;
  posts : list Post;
  filteredPosts : list Post;
  currentFilter : string;
  currentPage : nat;
  dom : Page
}.

Definition setContainer (kids : list Node) (s : BlogSystem) : BlogSystem :=
  mkBlog (postsPerPage s) (isPreview s) (previewCount s) (posts s)
         (filteredPosts s) (currentFilter s) (currentPage s)
         (mkPage (Some kids) (loadMore (dom s)) (loadMoreBtn (dom s))).

Definition setLoadMore (d : Display) (s : BlogSystem) : BlogSystem :=
  mkBlog (postsPerPage s) (isPreview s) (previewCount s) (posts s)
         (filteredPosts s) (currentFilter s) (currentPage s)
         (mkPage (container (dom s)) (Some d) (loadMoreBtn (dom s))).

Definition setPosts (ps fs : list Post) (s : BlogSystem) : BlogSystem :=
  mkBlog (postsPerPage s) (isPreview s) (previewCount s) ps fs
         (currentFilter s) (currentPage s) (dom s).

Definition setFilterState (f : string) (fs : list Post) (s : BlogSystem)
  : BlogSystem :=
  mkBlog (postsPerPage s) (isPreview s) (previewCount s) (posts s) fs
         f 1 (dom s).

Definition nextPage (s : BlogSystem) : BlogSystem :=
  mkBlog (postsPerPage s) (isPreview s) (previewCount s) (posts s)
         (filteredPosts s) (currentFilter s) (S (currentPage s)) (dom s).

(** [showLoading], [showEmpty], [showError]: each replaces the
    container's content and does nothing without a container. *)
Definition showLoading (s : BlogSystem) : BlogSystem :=
  match container (dom s) with
  | None => s
  | Some _ => setContainer [LoadingState] s
  end.

Definition showEmpty (s : BlogSystem) : BlogSystem :=
  match container (dom s) with
  | None => s
  | Some _ => setContainer [EmptyState] s
  end.

Definition showError (message : string) (s : BlogSystem) : BlogSystem :=
  match container (dom s) with
  | None => s
  | Some _ => setContainer [ErrorState message] s
  end.

(** The callback of the sort: [new Date(b.date) - new Date(a.date)]. *)
Definition byDateDesc (a b : Post) : Js.number :=
  Js.minus (date b) (date a).

Definition sortPosts (ps : list Post) : list Post :=
  Js.sort byDateDesc ps.

(** [loadPosts]: a [null] document or one without [posts] changes
    nothing; a [posts] value without [sort] throws inside the [try] and
    ends in [showError]. *)
Definition loadPosts (o : FetchOutcome) (s : BlogSystem) : BlogSystem :=
  match Utils.fetchJSON o with
  | DocNull => s
  | DocObject PostsMissing => s
  | DocObject PostsNotArray =>
      showError "Fehler beim Laden der Blog-Beiträge." s
  | DocObject (PostsArray ps) =>
      let sorted := sortPosts ps in
      setPosts sorted sorted s
  end.

(** The slug of a category or tag.  The case mapping and the class
    [\s] of the platform cover all of Unicode; the model has their
    ASCII part, and stands for the code on ASCII labels. *)
Definition slug (label : string) : string :=
  Js.replaceWhiteSpace (Js.toLowerCase label).

(** The predicate of [setFilter]'s [filter] call. *)
Definition matchesFilter (filter : string) (post : Post) : bool :=
  String.eqb (slug (category post)) filter
  || existsb (fun tag => String.eqb (slug tag) filter) (tags post).

Definition updateLoadMoreButton (currentEndIndex : nat) (s : BlogSystem)
  : BlogSystem :=
  match loadMore (dom s) with
  | None => s
  | Some _ =>
      if isPreview s then s
      else if (length (filteredPosts s) <=? currentEndIndex)%nat
           then setLoadMore DisplayNone s
           else setLoadMore DisplayBlock s
  end.

(** The body of [postsToShow.forEach]: when appending, the posts below
    the previous page boundary are skipped. *)
Fixpoint newCards (append : bool) (boundary : nat) (index : nat)
         (postsToShow : list Post) : list Node :=
  match postsToShow with
  | [] => []
  | post :: rest =>
      if append && (index <? boundary)%nat
      then newCards append boundary (S index) rest
      else Card post :: newCards append boundary (S index) rest
  end.

(** [render].  The closing call of [animateNewCards] only adds the
    class [animate-in] to the new cards from timers; it changes neither the
    children of the grid nor the control and is left out. *)
Definition render (append : bool) (s : BlogSystem) : BlogSystem :=
  match container (dom s) with
  | None => s
  | Some kids =>
      let endIndex :=
        if isPreview s then previewCount s
        else currentPage s * postsPerPage s in
      let postsToShow := take endIndex (filteredPosts s) in
      let kept := if append then kids else [] in
      match postsToShow with
      | [] => showEmpty (setContainer kept s)
      | _ :: _ =>
          let fragment :=
            newCards append ((currentPage s - 1) * postsPerPage s) 0
                     postsToShow in
          updateLoadMoreButton endIndex (setContainer (kept ++ fragment) s)
      end
  end.

Definition setFilter (filter : string) (s : BlogSystem) : BlogSystem :=
  let fs :=
    if String.eqb filter "all" then posts s
    else List.filter (matchesFilter filter) (posts s) in
  render false (setFilterState filter fs s).

(** The click handler that [setupLoadMore] installs on the button;
    [init] runs, and installs it, only when the container exists. *)
Definition loadMoreClick (s : BlogSystem) : BlogSystem :=
  match container (dom s) with
  | Some _ => if loadMoreBtn (dom s) then render true (nextPage s) else s
  | None => s
  end.

(** [init]; the two [setup...] calls only install handlers. *)
Definition init (o : FetchOutcome) (s : BlogSystem) : BlogSystem :=
  render false (loadPosts o (showLoading s)).

(** [x || d] on an optional count: absent and 0 are falsy. *)
Definition countOr (o : option nat) (d : nat) : nat :=
  match o with
  | Some (S n) => S n
  | _ => d
  end.

(** The constructor; [init] runs only when the container exists. *)
Definition create (options : Options) (page : Page) (o : FetchOutcome)
  : BlogSystem :=
  let s := mkBlog (countOr (opt_postsPerPage options) 9)
                  (match opt_isPreview options with
                   | Some b => b
                   | None => false
                   end)
                  (countOr (opt_previewCount options) 3)
                  [] [] "all" 1 page in
  match container page with
  | Some _ => init o s
  | None => s
  end.

(** The posts of the cards in the container, in document order. *)
Definition cards (s : BlogSystem) : list Post :=
  match container (dom s) with
  | None => []
  | Some kids =>
      flat_map (fun n => match n with Card p => [p] | _ => [] end) kids
  end.

(** A button of [.filter-btn[data-filter]]. *)
Record FilterButton := mkFilterButton {
  dataFilter : string;     (* [btn.dataset.filter] *)
  active : bool            (* the class [active] *)
}.

(** The click handler that [setupFilters] installs on the [i]-th
    button; [init] runs, and installs it, only when the container
    exists. *)
Definition filterClick (st : list FilterButton * BlogSystem) (i : nat)
  : list FilterButton * BlogSystem :=
  match container (dom (snd st)), fst st !! i with
  | Some _, Some btn =>
      (imap (fun j b => mkFilterButton (dataFilter b) (j =? i)%nat) (fst st),
       setFilter (dataFilter btn) (snd st))
  | _, _ => st
  end.

(** [createPostCard]: the [innerHTML] of the article.  [formatDate] is
    [utils.formatDate], which delegates to the locale data of the
    platform. *)
Section Card.
Import Markup.
Variable formatDate : option Z -> string.

Definition imageHtml (post : Post) : list Piece :=
  if Js.truthy (image post)
  then [Lit ("<img src=" +:+ dq); Raw FImage (Js.orElse (image post) "");
        Lit (dq +:+ " alt=" +:+ dq); Esc FTitle (title post);
        Lit (dq +:+ " " +:+ attr "loading" "lazy" +:+ ">")]
  else [Lit ("<div " +:+ attr "class" "image-placeholder" +:+ "><span>");
        Raw FCategory (Js.charAt0 (category post));
        Lit "</span></div>"].

Definition tagChip (tag : string) : list Piece :=
  [Lit ("<span " +:+ attr "class" "tag" +:+ ">"); Esc FTag tag;
   Lit "</span>"].

Definition createPostCard (post : Post) : list Piece :=
  [Lit ("<a href=" +:+ dq +:+ "blog-post.html?id="); Raw FId (id post);
   Lit (dq +:+ " " +:+ attr "class" "blog-image" +:+ ">")]
  ++ imageHtml post
  ++ [Lit ("</a><div " +:+ attr "class" "blog-content" +:+ "><div "
           +:+ attr "class" "blog-meta" +:+ "><span "
           +:+ attr "class" "blog-category" +:+ ">");
      Esc FCategory (category post);
      Lit ("</span><span " +:+ attr "class" "blog-date" +:+ ">");
      Raw FDate (formatDate (date post));
      Lit ("</span><span " +:+ attr "class" "blog-read-time" +:+ ">");
      Raw FReadTime (Js.orElse (readTime post) "5 min");
      Lit ("</span></div><h3 " +:+ attr "class" "blog-title"
           +:+ "><a href=" +:+ dq +:+ "blog-post.html?id=");
      Raw FId (id post);
      Lit (dq +:+ ">");
      Esc FTitle (title post);
      Lit ("</a></h3><p " +:+ attr "class" "blog-excerpt" +:+ ">");
      Esc FExcerpt (excerpt post);
      Lit ("</p><div " +:+ attr "class" "tags" +:+ ">")]
  ++ flat_map tagChip (tags post)
  ++ [Lit "</div></div>"].
End Card.

End Blog.

Module SinglePost.
Import Markup.

(** An anchor of the post navigation. *)
Record Link := mkLink {
  href : string;
  textContent : string;
  hidden : bool               (* [style.visibility = 'hidden'] *)
}.

(** [.post-featured-image] *)
Record Featured := mkFeatured {
  featuredHtml : list Piece;
  featuredGone : bool         (* [style.display = 'none'] *)
}.

(** The page metadata; a [meta] element that is not in the document is
    [None]. *)
Record Meta := mkMeta {
  docTitle : string;                  (* [document.title] *)
  metaDescription : option string;    (* [meta[name="description"]] *)
  ogTitle : option string;            (* [meta[property="og:title"]] *)
  ogDescription : option string;      (* [meta[property="og:description"]] *)
  ogImage : option string             (* [meta[property="og:image"]] *)
}.

Record Body := mkBody {
  postContainer : option (list Piece);   (* [#post-content] *)
  header : option (list Piece);          (* [.post-header] *)
  featuredImage : option Featured;
  tagsContainer : option (list Piece)    (* [.post-tags] *)
}.

Record Nav := mkNav {
  navPrev : option Link;      (* [.nav-prev] *)
  navNext : option Link       (* [.nav-next] *)
}.

Record Document := mkDocument { meta : Meta; body : Body; nav : Nav }.

Definition setPostContainer (html : list Piece) (doc : Document)
  : Document :=
  match postContainer (body doc) with
  | None => doc
  | Some _ =>
      mkDocument (meta doc)
        (mkBody (Some html) (header (body doc)) (featuredImage (body doc))
                (tagsContainer (body doc)))
        (nav doc)
  end.

Definition showLoading (doc : Document) : Document :=
  setPostContainer
    [Lit ("<div " +:+ attr "class" "loading-state" +:+ "><div "
          +:+ attr "class" "loading-spinner"
          +:+ "></div><p>Lade Beitrag...</p></div>")]
    doc.

(** The error state: the message and the link back to the listing. *)
Definition errorState (message : string) : list Piece :=
  [Lit ("<div " +:+ attr "class" "error-state" +:+ "><p>");
   Esc FMessage message;
   Lit ("</p><a " +:+ attr "href" "blog.html" +:+ " "
        +:+ attr "class" "btn-primary glass"
        +:+ ">Zurück zum Blog</a></div>")].

Definition showError (message : string) (doc : Document) : Document :=
  setPostContainer (errorState message) doc.

(** [loadPost]: the first record whose identifier, as text, is the
    requested one; [null] after a failed fetch, without a [posts]
    member, and when [find] is missing and the call throws. *)
Definition loadPost (postId : string) (o : FetchOutcome) : option Post :=
  match Utils.fetchJSON o with
  | DocObject (PostsArray ps) =>
      List.find (fun post => String.eqb (id post) postId) ps
  | _ => None
  end.

Definition linkTo (arrowLeft : bool) (target : Post) (l : Link) : Link :=
  mkLink ("blog-post.html?id=" +:+ id target)
         (if arrowLeft then "← " +:+ title target
          else title target +:+ " →")
         (hidden l).

Definition hide (l : Link) : Link :=
  mkLink (href l) (textContent l) true.

(** One of the two [if (link && post) ... else if (link) ...]. *)
Definition setLink (arrowLeft : bool) (target : option Post)
           (link : option Link) : option Link :=
  match link, target with
  | Some l, Some post => Some (linkTo arrowLeft post l)
  | Some l, None => Some (hide l)
  | None, _ => None
  end.

Definition setupNavigation (currentPost : Post) (o : FetchOutcome)
           (doc : Document) : Document :=
  match Utils.fetchJSON o with
  | DocObject (PostsArray ps) =>
      let posts := Blog.sortPosts ps in
      let currentIndex :=
        Js.findIndex (fun p => String.eqb (id p) (id currentPost)) posts in
      let prevPost := Js.at_ posts (currentIndex + 1)%Z in
      let nextPost := Js.at_ posts (currentIndex - 1)%Z in
      mkDocument (meta doc) (body doc)
        (mkNav (setLink true prevPost (navPrev (nav doc)))
               (setLink false nextPost (navNext (nav doc))))
  | _ => doc
  end.

Section Render.
Variable formatDate : option Z -> string.

Definition headerHtml (post : Post) : list Piece :=
  [Lit ("<div " +:+ attr "class" "container" +:+ "><div "
        +:+ attr "class" "post-meta" +:+ "><span "
        +:+ attr "class" "post-category" +:+ ">");
   Esc FCategory (category post);
   Lit ("</span><span " +:+ attr "class" "post-date" +:+ ">");
   Raw FDate (formatDate (date post));
   Lit ("</span><span " +:+ attr "class" "post-read-time" +:+ ">");
   Raw FReadTime (Js.orElse (readTime post) "5 min");
   Lit (" Lesezeit</span></div><h1 " +:+ attr "class" "post-title"
        +:+ ">");
   Esc FTitle (title post);
   Lit ("</h1><div " +:+ attr "class" "post-author" +:+ "><img "
        +:+ attr "src" "images/profile/leon-small.jpg" +:+ " alt="
        +:+ dq);
   Esc FAuthor (author post);
   Lit (dq +:+ " " +:+ attr "onerror" "this.style.display='none'"
        +:+ "><span>von ");
   Esc FAuthor (author post);
   Lit "</span></div></div>"].

Definition featuredHtmlOf (post : Post) : list Piece :=
  [Lit ("<img src=" +:+ dq); Raw FImage (Js.orElse (image post) "");
   Lit (dq +:+ " alt=" +:+ dq); Esc FTitle (title post);
   Lit (dq +:+ ">")].

(** [post.content || `<p>${utils.escapeHtml(post.excerpt)}</p>`] *)
Definition contentHtml (post : Post) : list Piece :=
  if Js.truthy (content post)
  then [Raw FContent (Js.orElse (content post) "")]
  else [Lit "<p>"; Esc FExcerpt (excerpt post); Lit "</p>"].

Definition tagsHtml (post : Post) : list Piece :=
  flat_map (fun tag => [Lit ("<span " +:+ attr "class" "tag" +:+ ">");
                        Esc FTag tag; Lit "</span>"])
           (tags post).

Definition render (post : Post) (o : FetchOutcome) (doc : Document)
  : Document :=
  let m := meta doc in
  let b := body doc in
  let m' := mkMeta (title post +:+ " | Leonic's World")
                   (metaDescription m) (ogTitle m) (ogDescription m)
                   (ogImage m) in
  let header' :=
    match header b with
    | Some _ => Some (headerHtml post)
    | None => None
    end in
  let featured' :=
    match featuredImage b with
    | Some f =>
        if Js.truthy (image post)
        then Some (mkFeatured (featuredHtmlOf post) (featuredGone f))
        else Some (mkFeatured (featuredHtml f) true)
    | None => None
    end in
  let container' :=
    match postContainer b with
    | Some _ => Some (contentHtml post)
    | None => None
    end in
  let tags' :=
    match tagsContainer b with
    | Some _ => Some (tagsHtml post)
    | None => None
    end in
  setupNavigation post o
    (mkDocument m' (mkBody container' header' featured' tags') (nav doc)).

(** [updateMetaTags]: each [setAttribute('content', ...)] on a tag
    that exists. *)
Definition updateMetaTags (post : Post) (doc : Document) : Document :=
  let m := meta doc in
  let put (value : string) (tag : option string) : option string :=
    match tag with
    | Some _ => Some value
    | None => None
    end in
  mkDocument
    (mkMeta (docTitle m)
            (put (excerpt post) (metaDescription m))
            (put (title post) (ogTitle m))
            (put (excerpt post) (ogDescription m))
            (if Js.truthy (image post)
             then put (Js.orElse (image post) "") (ogImage m)
             else ogImage m))
    (body doc) (nav doc).

(** [init]; [postId] is what [getPostIdFromUrl] returns, [None] when
    the query string has no [id].  [o1] answers the fetch of
    [loadPost], [o2] the one of [setupNavigation]. *)
Definition init (postId : option string) (o1 o2 : FetchOutcome)
           (doc : Document) : Document :=
  match postId with
  | Some (String c rest) =>
      let doc1 := showLoading doc in
      match loadPost (String c rest) o1 with
      | Some post => updateMetaTags post (render post o2 doc1)
      | None => showError "Beitrag nicht gefunden." doc1
      end
  | _ => showError "Kein Beitrag angegeben." doc
  end.

(** The constructor: [init] runs only when [#post-content] exists. *)
Definition create (postId : option string) (o1 o2 : FetchOutcome)
           (doc : Document) : Document :=
  match postContainer (body doc) with
  | Some _ => init postId o1 o2 doc
  | None => doc
  end.
End Render.

End SinglePost.

Module Starfield.

(** The loader of welcome.js.  Durations are left out: a callback that
    has been scheduled may come due at any later moment, in any order
    with the others, so every timing the browser can produce is among
    the event lists. *)

(** The overlay element: not in the document, or in it with or without
    the classes [fade-out] and [hidden]. *)
Inductive Overlay := Gone | Shown (fadeOut hiddenClass : bool).

(** The callbacks handed to [setTimeout] and [requestAnimationFrame]. *)
Inductive Callback :=
| Fallback      (* [setupFallbackTimer], after [maxDuration] *)
| MinDisplay    (* [onResourcesLoaded], after the remaining display time *)
| FadeOut       (* [complete], after [fadeOutDuration] *)
| Cleanup       (* [complete], 100 ms after the fade *)
| Frame         (* [animateStarfield] *)
| Progress.     (* [startProgress] *)

#[global] Instance Callback_eq_dec : EqDecision Callback.
Proof. solve_decision. Defined.

(** What the event loop delivers to the loader. *)
Inductive Event :=
| SkipClick               (* click on [.loader-skip] *)
| Keydown (key : string)
| WindowLoad
| Due (cb : Callback).    (* a timer or an animation frame comes due *)

(** What the constructor and [init] find. *)
Record Env := mkEnv {
  overlayPresent : bool;   (* [#loader-overlay] *)
  canvasPresent : bool;    (* [#loader-starfield] with a 2d context *)
  skipBtnPresent : bool;   (* [.loader-skip] *)
  progressPresent : bool;  (* [.loader-progress] *)
  sessionStorage : LocalStorage.t;  (* [sessionStorage] at the page load *)
  skipParam : bool;        (* the query string has [skip=true] *)
  reducedMotion : bool;    (* [prefers-reduced-motion: reduce] matches *)
  readyComplete : bool     (* [document.readyState === 'complete'] *)
}.

(** The loader with the parts of the page and of the event loop it
    uses.  [session] is [sessionStorage] as the loader leaves it; it has
    the interface of [localStorage], and its calls throw in the same
    cases.  [frames], [completions], [revealed] and [dispatched] count
    what happened: starfield frames drawn, entries into the body of
    [complete] past its guard, calls of [revealContent],
    [loaderComplete] events. *)
Record Loader := mkLoader {
  isComplete : bool;
  isSkipped : bool;
  resourcesLoaded : bool;
  overlay : Overlay;
  loaderActive : bool;     (* [body.loader-active] *)
  progressActive : bool;
  session : LocalStorage.t;
  listening : bool;        (* [setupEventListeners] ran *)
  awaitingLoad : bool;     (* the [load] listener is installed *)
  pending : list Callback;
  frames : nat;
  completions : nat;
  revealed : nat;
  dispatched : nat
}.

Definition set_isComplete (v : bool) (s : Loader) : Loader :=
  mkLoader v (isSkipped s) (resourcesLoaded s) (overlay s) (loaderActive s)
    (progressActive s) (session s) (listening s) (awaitingLoad s)
    (pending s) (frames s) (completions s) (revealed s) (dispatched s).
Definition set_isSkipped (v : bool) (s : Loader) : Loader :=
  mkLoader (isComplete s) v (resourcesLoaded s) (overlay s) (loaderActive s)
    (progressActive s) (session s) (listening s) (awaitingLoad s)
    (pending s) (frames s) (completions s) (revealed s) (dispatched s).
Definition set_resourcesLoaded (v : bool) (s : Loader) : Loader :=
  mkLoader (isComplete s) (isSkipped s) v (overlay s) (loaderActive s)
    (progressActive s) (session s) (listening s) (awaitingLoad s)
    (pending s) (frames s) (completions s) (revealed s) (dispatched s).
Definition set_overlay (v : Overlay) (s : Loader) : Loader :=
  mkLoader (isComplete s) (isSkipped s) (resourcesLoaded s) v
    (loaderActive s) (progressActive s) (session s) (listening s)
    (awaitingLoad s) (pending s) (frames s) (completions s) (revealed s)
    (dispatched s).
Definition set_loaderActive (v : bool) (s : Loader) : Loader :=
  mkLoader (isComplete s) (isSkipped s) (resourcesLoaded s) (overlay s) v
    (progressActive s) (session s) (listening s) (awaitingLoad s)
    (pending s) (frames s) (completions s) (revealed s) (dispatched s).
Definition set_progressActive (v : bool) (s : Loader) : Loader :=
  mkLoader (isComplete s) (isSkipped s) (resourcesLoaded s) (overlay s)
    (loaderActive s) v (session s) (listening s) (awaitingLoad s)
    (pending s) (frames s) (completions s) (revealed s) (dispatched s).
Definition set_session (v : LocalStorage.t) (s : Loader) : Loader :=
  mkLoader (isComplete s) (isSkipped s) (resourcesLoaded s) (overlay s)
    (loaderActive s) (progressActive s) v (listening s) (awaitingLoad s)
    (pending s) (frames s) (completions s) (revealed s) (dispatched s).
Definition set_listening (v : bool) (s : Loader) : Loader :=
  mkLoader (isComplete s) (isSkipped s) (resourcesLoaded s) (overlay s)
    (loaderActive s) (progressActive s) (session s) v (awaitingLoad s)
    (pending s) (frames s) (completions s) (revealed s) (dispatched s).
Definition set_awaitingLoad (v : bool) (s : Loader) : Loader :=
  mkLoader (isComplete s) (isSkipped s) (resourcesLoaded s) (overlay s)
    (loaderActive s) (progressActive s) (session s) (listening s) v
    (pending s) (frames s) (completions s) (revealed s) (dispatched s).
Definition set_pending (v : list Callback) (s : Loader) : Loader :=
  mkLoader (isComplete s) (isSkipped s) (resourcesLoaded s) (overlay s)
    (loaderActive s) (progressActive s) (session s) (listening s)
    (awaitingLoad s) v (frames s) (completions s) (revealed s)
    (dispatched s).
Definition set_frames (v : nat) (s : Loader) : Loader :=
  mkLoader (isComplete s) (isSkipped s) (resourcesLoaded s) (overlay s)
    (loaderActive s) (progressActive s) (session s) (listening s)
    (awaitingLoad s) (pending s) v (completions s) (revealed s)
    (dispatched s).
Definition set_completions (v : nat) (s : Loader) : Loader :=
  mkLoader (isComplete s) (isSkipped s) (resourcesLoaded s) (overlay s)
    (loaderActive s) (progressActive s) (session s) (listening s)
    (awaitingLoad s) (pending s) (frames s) v (revealed s) (dispatched s).
Definition set_revealed (v : nat) (s : Loader) : Loader :=
  mkLoader (isComplete s) (isSkipped s) (resourcesLoaded s) (overlay s)
    (loaderActive s) (progressActive s) (session s) (listening s)
    (awaitingLoad s) (pending s) (frames s) (completions s) v
    (dispatched s).
Definition set_dispatched (v : nat) (s : Loader) : Loader :=
  mkLoader (isComplete s) (isSkipped s) (resourcesLoaded s) (overlay s)
    (loaderActive s) (progressActive s) (session s) (listening s)
    (awaitingLoad s) (pending s) (frames s) (completions s) (revealed s) v.

Definition schedule (cb : Callback) (s : Loader) : Loader :=
  set_pending (pending s ++ [cb]) s.

(** The first pending occurrence of a callback is taken out when it
    comes due. *)
Fixpoint takeOut (cb : Callback) (l : list Callback)
  : option (list Callback) :=
  match l with
  | [] => None
  | x :: rest =>
      if decide (x = cb) then Some rest
      else option_map (cons x) (takeOut cb rest)
  end.

(** [shouldSkip]; [None] when [sessionStorage.getItem] throws. *)
Definition shouldSkip (e : Env) : option bool :=
  match LocalStorage.getItem "loaderShown" (sessionStorage e) with
  | None => None
  | Some skipData =>
      Some (if Js.truthy skipData then true
            else if skipParam e then true
            else false)
  end.

(** [sessionStorage.setItem('loaderShown', 'true')]; [None] when the
    call throws. *)
Definition markSession (s : Loader) : option Loader :=
  match LocalStorage.setItem "loaderShown" "true" (session s) with
  | Some st => Some (set_session st s)
  | None => None
  end.

(** [revealContent]; the staggered timers on the hero elements are
    left out. *)
Definition revealContent (s : Loader) : Loader :=
  set_revealed (S (revealed s)) s.

Definition skipImmediately (s : Loader) : Loader :=
  revealContent (set_loaderActive false (set_overlay Gone s)).

Definition animateStarfield (s : Loader) : Loader :=
  if isComplete s then s
  else schedule Frame (set_frames (S (frames s)) s).

Definition initStarfield (e : Env) (s : Loader) : Loader :=
  if canvasPresent e then animateStarfield s else s.

Definition startProgress (e : Env) (s : Loader) : Loader :=
  if progressPresent e then schedule Progress s else s.

Definition onResourcesLoaded (s : Loader) : Loader :=
  schedule MinDisplay (set_resourcesLoaded true s).

Definition waitForResources (e : Env) (s : Loader) : Loader :=
  if readyComplete e then onResourcesLoaded s
  else set_awaitingLoad true s.

Definition addFadeOut (o : Overlay) : Overlay :=
  match o with
  | Gone => Gone
  | Shown _ h => Shown true h
  end.

Definition addHidden (o : Overlay) : Overlay :=
  match o with
  | Gone => Gone
  | Shown f _ => Shown f true
  end.

Definition isFrame (cb : Callback) : bool :=
  match cb with
  | Frame => true
  | _ => false
  end.

(** [cancelAnimationFrame(this.animationId)] *)
Definition cancelFrame (s : Loader) : Loader :=
  set_pending (List.filter (fun cb => negb (isFrame cb)) (pending s)) s.

(** [complete].  The write to [sessionStorage] stands outside any
    [try]: when it throws, the exception ends [complete] and the handler
    or timer callback that called it, each of which has nothing left to
    do after the call; [isComplete] is set by then, the frame is not
    cancelled, the overlay is not faded and no timer is set. *)
Definition complete (s : Loader) : Loader :=
  if isComplete s then s
  else
    let s1 := set_completions (S (completions s)) (set_isComplete true s) in
    match markSession s1 with
    | None => s1
    | Some s2 =>
        let s3 := cancelFrame s2 in
        let s4 := set_overlay (addFadeOut (overlay s3)) s3 in
        schedule FadeOut s4
    end.

(** [skip]; when its own write to [sessionStorage] throws, [isSkipped]
    is set and [complete] is not called. *)
Definition skip (s : Loader) : Loader :=
  if isComplete s || isSkipped s then s
  else
    let s1 := set_isSkipped true s in
    match markSession s1 with
    | None => s1
    | Some s2 => complete s2
    end.

(** The state the constructor sets up before it calls [init]. *)
Definition fresh (e : Env) : Loader :=
  mkLoader false false false
           (if overlayPresent e then Shown false false else Gone)
           false false (sessionStorage e) false false [] 0 0 0 0.

(** [init].  When the read in [shouldSkip] throws, the exception ends
    [init] and the constructor: nothing is set up. *)
Definition init (e : Env) : Loader :=
  let s := fresh e in
  if negb (overlayPresent e) then s
  else
    match shouldSkip e with
    | None => s
    | Some true => skipImmediately s
    | Some false =>
        let s1 := set_loaderActive true s in
        let s2 := if negb (reducedMotion e) then initStarfield e s1 else s1 in
        let s3 := set_listening true s2 in
        let s4 := startProgress e s3 in
        let s5 := schedule Fallback s4 in
        waitForResources e s5
    end.

(** The body of a callback. *)
Definition run (cb : Callback) (s : Loader) : Loader :=
  match cb with
  | Fallback | MinDisplay =>
      if negb (isComplete s) && negb (isSkipped s) then complete s else s
  | FadeOut =>
      let s1 := set_overlay (addHidden (overlay s)) s in
      let s2 := revealContent (set_loaderActive false s1) in
      schedule Cleanup (set_dispatched (S (dispatched s2)) s2)
  | Cleanup => set_overlay Gone s
  | Frame => animateStarfield s
  | Progress => set_progressActive true s
  end.

(** One turn of the event loop. *)
Definition fire (e : Env) (ev : Event) (s : Loader) : Loader :=
  match ev with
  | SkipClick =>
      if listening s && skipBtnPresent e then skip s else s
  | Keydown key =>
      if listening s && String.eqb key "Escape" && negb (isComplete s)
      then skip s else s
  | WindowLoad =>
      if awaitingLoad s then onResourcesLoaded s else s
  | Due cb =>
      match takeOut cb (pending s) with
      | Some rest => run cb (set_pending rest s)
      | None => s
      end
  end.

Definition runEvents (e : Env) (evs : list Event) (s : Loader) : Loader :=
  fold_left (fun s ev => fire e ev s) evs s.

End Starfield.

Module Welcome.

(** The welcome animation of welcome.js, with the same treatment of
    time: each awaited [wait] of [startAnimation] ends on an event of
    its own. *)

(** The overlay element: not in the document, or in it with or without
    the class [fade-out]. *)
Inductive Overlay := Gone | Shown (fadeOut : bool).

Inductive Callback :=
| FadeTimer     (* [fadeOut], after 700 ms *)
| GlitchOff.    (* [triggerGlitch], after 150 ms *)

#[global] Instance Callback_eq_dec : EqDecision Callback.
Proof. solve_decision. Defined.

Inductive Event :=
| SkipClick               (* click on [.skip-btn] *)
| Keydown (key : string)
| WaitDone                (* the pending [utils.wait] resolves *)
| Due (cb : Callback).

Record Env := mkEnv {
  overlayPresent : bool;   (* [#welcome-overlay] *)
  preTextPresent : bool;   (* [.welcome-pre] *)
  titlePresent : bool;     (* [.welcome-title] *)
  skipBtnPresent : bool;   (* [.skip-btn] *)
  progressPresent : bool;  (* [.welcome-progress] *)
  reducedMotion : bool;    (* [utils.prefersReducedMotion()] *)
  skipParam : bool;        (* the query string has [skip=true] *)
  now : Z;                 (* [Date.now()] *)
  localStorage : LocalStorage.t
}.

(** The animation object with the parts of the page and of the event
    loop it uses.  [waiting] is the step of [startAnimation] that
    follows the pending [await], [None] when the function is not
    running.  [steps], [completions] and [dispatched] count what
    happened: steps of the sequence run, runs of the body of [fadeOut],
    [welcomeComplete] events. *)
Record Anim := mkAnim {
  hasSkipped : bool;
  animationComplete : bool;
  overlay : Overlay;
  welcomeActive : bool;    (* [body.welcome-active] *)
  progressAnimated : bool;
  preTextAnimated : bool;
  titleAnimated : bool;
  skipVisible : bool;
  glitch : bool;
  waiting : option nat;
  buttonListening : bool;  (* the click listener of the skip button *)
  escapeArmed : bool;      (* the one-shot [keydown] listener *)
  stored : LocalStorage.t;
  pending : list Callback;
  steps : nat;
  completions : nat;
  dispatched : nat
}.

Definition set_hasSkipped (v : bool) (s : Anim) : Anim :=
  mkAnim v (animationComplete s) (overlay s) (welcomeActive s)
    (progressAnimated s) (preTextAnimated s) (titleAnimated s)
    (skipVisible s) (glitch s) (waiting s) (buttonListening s)
    (escapeArmed s) (stored s) (pending s) (steps s) (completions s)
    (dispatched s).
Definition set_animationComplete (v : bool) (s : Anim) : Anim :=
  mkAnim (hasSkipped s) v (overlay s) (welcomeActive s) (progressAnimated s)
    (preTextAnimated s) (titleAnimated s) (skipVisible s) (glitch s)
    (waiting s) (buttonListening s) (escapeArmed s) (stored s) (pending s)
    (steps s) (completions s) (dispatched s).
Definition set_overlay (v : Overlay) (s : Anim) : Anim :=
  mkAnim (hasSkipped s) (animationComplete s) v (welcomeActive s)
    (progressAnimated s) (preTextAnimated s) (titleAnimated s)
    (skipVisible s) (glitch s) (waiting s) (buttonListening s)
    (escapeArmed s) (stored s) (pending s) (steps s) (completions s)
    (dispatched s).
Definition set_welcomeActive (v : bool) (s : Anim) : Anim :=
  mkAnim (hasSkipped s) (animationComplete s) (overlay s) v
    (progressAnimated s) (preTextAnimated s) (titleAnimated s)
    (skipVisible s) (glitch s) (waiting s) (buttonListening s)
    (escapeArmed s) (stored s) (pending s) (steps s) (completions s)
    (dispatched s).
Definition set_progressAnimated (v : bool) (s : Anim) : Anim :=
  mkAnim (hasSkipped s) (animationComplete s) (overlay s) (welcomeActive s)
    v (preTextAnimated s) (titleAnimated s) (skipVisible s) (glitch s)
    (waiting s) (buttonListening s) (escapeArmed s) (stored s) (pending s)
    (steps s) (completions s) (dispatched s).
Definition set_preTextAnimated (v : bool) (s : Anim) : Anim :=
  mkAnim (hasSkipped s) (animationComplete s) (overlay s) (welcomeActive s)
    (progressAnimated s) v (titleAnimated s) (skipVisible s) (glitch s)
    (waiting s) (buttonListening s) (escapeArmed s) (stored s) (pending s)
    (steps s) (completions s) (dispatched s).
Definition set_titleAnimated (v : bool) (s : Anim) : Anim :=
  mkAnim (hasSkipped s) (animationComplete s) (overlay s) (welcomeActive s)
    (progressAnimated s) (preTextAnimated s) v (skipVisible s) (glitch s)
    (waiting s) (buttonListening s) (escapeArmed s) (stored s) (pending s)
    (steps s) (completions s) (dispatched s).
Definition set_skipVisible (v : bool) (s : Anim) : Anim :=
  mkAnim (hasSkipped s) (animationComplete s) (overlay s) (welcomeActive s)
    (progressAnimated s) (preTextAnimated s) (titleAnimated s) v (glitch s)
    (waiting s) (buttonListening s) (escapeArmed s) (stored s) (pending s)
    (steps s) (completions s) (dispatched s).
Definition set_glitch (v : bool) (s : Anim) : Anim :=
  mkAnim (hasSkipped s) (animationComplete s) (overlay s) (welcomeActive s)
    (progressAnimated s) (preTextAnimated s) (titleAnimated s)
    (skipVisible s) v (waiting s) (buttonListening s) (escapeArmed s)
    (stored s) (pending s) (steps s) (completions s) (dispatched s).
Definition set_waiting (v : option nat) (s : Anim) : Anim :=
  mkAnim (hasSkipped s) (animationComplete s) (overlay s) (welcomeActive s)
    (progressAnimated s) (preTextAnimated s) (titleAnimated s)
    (skipVisible s) (glitch s) v (buttonListening s) (escapeArmed s)
    (stored s) (pending s) (steps s) (completions s) (dispatched s).
Definition set_buttonListening (v : bool) (s : Anim) : Anim :=
  mkAnim (hasSkipped s) (animationComplete s) (overlay s) (welcomeActive s)
    (progressAnimated s) (preTextAnimated s) (titleAnimated s)
    (skipVisible s) (glitch s) (waiting s) v (escapeArmed s) (stored s)
    (pending s) (steps s) (completions s) (dispatched s).
Definition set_escapeArmed (v : bool) (s : Anim) : Anim :=
  mkAnim (hasSkipped s) (animationComplete s) (overlay s) (welcomeActive s)
    (progressAnimated s) (preTextAnimated s) (titleAnimated s)
    (skipVisible s) (glitch s) (waiting s) (buttonListening s) v (stored s)
    (pending s) (steps s) (completions s) (dispatched s).
Definition set_stored (v : LocalStorage.t) (s : Anim) : Anim :=
  mkAnim (hasSkipped s) (animationComplete s) (overlay s) (welcomeActive s)
    (progressAnimated s) (preTextAnimated s) (titleAnimated s)
    (skipVisible s) (glitch s) (waiting s) (buttonListening s)
    (escapeArmed s) v (pending s) (steps s) (completions s) (dispatched s).
Definition set_pending (v : list Callback) (s : Anim) : Anim :=
  mkAnim (hasSkipped s) (animationComplete s) (overlay s) (welcomeActive s)
    (progressAnimated s) (preTextAnimated s) (titleAnimated s)
    (skipVisible s) (glitch s) (waiting s) (buttonListening s)
    (escapeArmed s) (stored s) v (steps s) (completions s) (dispatched s).
Definition set_steps (v : nat) (s : Anim) : Anim :=
  mkAnim (hasSkipped s) (animationComplete s) (overlay s) (welcomeActive s)
    (progressAnimated s) (preTextAnimated s) (titleAnimated s)
    (skipVisible s) (glitch s) (waiting s) (buttonListening s)
    (escapeArmed s) (stored s) (pending s) v (completions s) (dispatched s).
Definition set_completions (v : nat) (s : Anim) : Anim :=
  mkAnim (hasSkipped s) (animationComplete s) (overlay s) (welcomeActive s)
    (progressAnimated s) (preTextAnimated s) (titleAnimated s)
    (skipVisible s) (glitch s) (waiting s) (buttonListening s)
    (escapeArmed s) (stored s) (pending s) (steps s) v (dispatched s).
Definition set_dispatched (v : nat) (s : Anim) : Anim :=
  mkAnim (hasSkipped s) (animationComplete s) (overlay s) (welcomeActive s)
    (progressAnimated s) (preTextAnimated s) (titleAnimated s)
    (skipVisible s) (glitch s) (waiting s) (buttonListening s)
    (escapeArmed s) (stored s) (pending s) (steps s) (completions s) v.

Definition schedule (cb : Callback) (s : Anim) : Anim :=
  set_pending (pending s ++ [cb]) s.

Fixpoint takeOut (cb : Callback) (l : list Callback)
  : option (list Callback) :=
  match l with
  | [] => None
  | x :: rest =>
      if decide (x = cb) then Some rest
      else option_map (cons x) (takeOut cb rest)
  end.

Definition fresh (e : Env) : Anim :=
  mkAnim false false (if overlayPresent e then Shown false else Gone)
         false false false false false false None false false
         (localStorage e) [] 0 0 0.

(** [revealMainContent]; the staggered timers on the hero elements are
    left out. *)
Definition revealMainContent (s : Anim) : Anim :=
  set_dispatched (S (dispatched s)) s.

Definition skipImmediately (s : Anim) : Anim :=
  revealMainContent (set_welcomeActive false (set_overlay Gone s)).

Definition fadeOut (s : Anim) : Anim :=
  if hasSkipped s || animationComplete s then s
  else
    let s1 := set_animationComplete true s in
    let s2 := set_overlay (match overlay s1 with
                           | Gone => Gone
                           | Shown _ => Shown true
                           end) s1 in
    schedule FadeTimer (set_completions (S (completions s2)) s2).

Definition triggerGlitch (e : Env) (s : Anim) : Anim :=
  if titlePresent e && negb (reducedMotion e)
  then schedule GlitchOff (set_glitch true s)
  else s.

Definition step (s : Anim) : Anim := set_steps (S (steps s)) s.

(** The code of [startAnimation] between the [k]-th [await] and the
    next one. *)
Definition resume (e : Env) (k : nat) (s : Anim) : Anim :=
  if hasSkipped s then set_waiting None s
  else
    match k with
    | 1 => set_waiting (Some 2)
             (step (set_preTextAnimated (preTextPresent e) s))
    | 2 => set_waiting (Some 3)
             (step (set_titleAnimated (titlePresent e) s))
    | 3 => set_waiting (Some 4)
             (step (set_skipVisible (skipBtnPresent e) s))
    | 4 => set_waiting (Some 5) (step (triggerGlitch e s))
    | 5 => set_waiting None (step (fadeOut s))
    | _ => set_waiting None s
    end.

Section Codec.
Variable JSON_stringify : Json.value -> option string.
Variable JSON_parse : string -> option Json.value.

(** [skipData.expires || 0] as the comparison [now < expires] reads
    it.  [skip] writes a number there and nothing else writes the key;
    a member of another type, which the comparison of the code would
    first convert to a number, is outside the model and counts as
    0. *)
Definition expiresOf (skipData : Json.value) : Z :=
  match Json.prop "expires" skipData with
  | Some (Json.Num n) => n
  | _ => 0%Z
  end.

Definition shouldSkipAnimation (e : Env) : bool :=
  let skipData :=
    Utils.storage_get JSON_parse "welcomeSkipped" Json.Null
                      (localStorage e) in
  if Json.truthy skipData && (now e <? expiresOf skipData)%Z then true
  else if reducedMotion e then true
  else if skipParam e then true
  else false.

Definition skip (e : Env) (s : Anim) : Anim :=
  if hasSkipped s || animationComplete s then s
  else
    let s1 := set_hasSkipped true s in
    let record :=
      Json.Obj [("expires", Json.Num (now e + 24 * 60 * 60 * 1000)%Z)] in
    let s2 :=
      set_stored
        (snd (Utils.storage_set JSON_stringify "welcomeSkipped" record
                                (stored s1))) s1 in
    fadeOut s2.

Definition init (e : Env) : Anim :=
  let s := fresh e in
  if shouldSkipAnimation e then skipImmediately s
  else
    let s1 := set_welcomeActive true s in
    let s2 := set_waiting (Some 1)
                (set_progressAnimated (progressPresent e) s1) in
    set_escapeArmed (skipBtnPresent e)
      (set_buttonListening (skipBtnPresent e) s2).

Definition run (cb : Callback) (s : Anim) : Anim :=
  match cb with
  | FadeTimer =>
      revealMainContent (set_welcomeActive false (set_overlay Gone s))
  | GlitchOff => set_glitch false s
  end.

Definition fire (e : Env) (ev : Event) (s : Anim) : Anim :=
  match ev with
  | SkipClick => if buttonListening s then skip e s else s
  | Keydown key =>
      if escapeArmed s
      then let s1 := set_escapeArmed false s in
           if String.eqb key "Escape" then skip e s1 else s1
      else s
  | WaitDone =>
      match waiting s with
      | Some k => resume e k s
      | None => s
      end
  | Due cb =>
      match takeOut cb (pending s) with
      | Some rest => run cb (set_pending rest s)
      | None => s
      end
  end.

Definition runEvents (e : Env) (evs : list Event) (s : Anim) : Anim :=
  fold_left (fun s ev => fire e ev s) evs s.
End Codec.

End Welcome.

Module Navigation.

(** The mobile menu of class Navigation.  An element that the code
    marks with a class is [None] when the page lacks it, else it says
    whether it carries the class. *)
Record Menu := mkMenu {
  isMenuOpen : bool;
  hamburger : option bool;      (* [#hamburger], class [active] *)
  mobileMenu : option bool;     (* [#mobile-menu], class [active] *)
  mobileOverlay : option bool;  (* [#mobile-overlay], class [active] *)
  menuOpenClass : bool          (* [body.menu-open] *)
}.

(** [el?.classList.add(...)] and [el?.classList.remove(...)] *)
Definition mark (v : bool) (el : option bool) : option bool :=
  match el with
  | Some _ => Some v
  | None => None
  end.

Definition openMenu (m : Menu) : Menu :=
  mkMenu true (mark true (hamburger m)) (mark true (mobileMenu m))
         (mark true (mobileOverlay m)) true.

Definition closeMenu (m : Menu) : Menu :=
  mkMenu false (mark false (hamburger m)) (mark false (mobileMenu m))
         (mark false (mobileOverlay m)) false.

Definition toggleMenu (m : Menu) : Menu :=
  if isMenuOpen m then closeMenu m else openMenu m.

Inductive MenuEvent :=
| HamburgerClick
| OverlayClick
| MenuLinkClick
| Keydown (key : string)
| ResizeSettled (innerWidth : Z).  (* the debounced resize handler runs *)

(** One event with the listeners of [setupMobileMenu], which installs
    none unless the hamburger and the menu both exist. *)
Definition fireMenu (m : Menu) (ev : MenuEvent) : Menu :=
  match hamburger m, mobileMenu m with
  | Some _, Some _ =>
      match ev with
      | HamburgerClick => toggleMenu m
      | OverlayClick =>
          match mobileOverlay m with
          | Some _ => closeMenu m
          | None => m
          end
      | MenuLinkClick => closeMenu m
      | Keydown key =>
          if String.eqb key "Escape" && isMenuOpen m then closeMenu m else m
      | ResizeSettled innerWidth =>
          if (1024 <=? innerWidth)%Z && isMenuOpen m then closeMenu m else m
      end
  | _, _ => m
  end.

Definition runMenu (evs : list MenuEvent) (m : Menu) : Menu :=
  fold_left fireMenu evs m.

(** The state the constructor leaves: the flag is off, the classes are
    those of the markup. *)
Definition freshMenu (hamburgerEl mobileMenuEl mobileOverlayEl : option bool)
           (bodyMenuOpen : bool) : Menu :=
  mkMenu false hamburgerEl mobileMenuEl mobileOverlayEl bodyMenuOpen.

(** The two scroll handlers, each behind its own [utils.throttle]:
    the flag and the pending reset timers of either closure, and the
    classes they write.  Scroll positions are whole pixels. *)
Record Scroll := mkScroll {
  navbar : option bool;        (* [.navbar], class [scrolled] *)
  backToTop : option bool;     (* [#back-to-top], class [visible] *)
  lastScrollY : Z;
  navInThrottle : bool;
  navResets : nat;
  topInThrottle : bool;
  topResets : nat
}.

Inductive ScrollEvent :=
| ScrollTo (pageYOffset : Z)   (* a scroll event at this position *)
| NavTimerDue                  (* a reset timer of the navbar handler *)
| TopTimerDue.                 (* a reset timer of the back-to-top handler *)

(** The throttled handler of [setupNavbarScroll]. *)
Definition navHandler (pageYOffset : Z) (s : Scroll) : Scroll :=
  if navInThrottle s then s
  else mkScroll (mark (50 <? pageYOffset)%Z (navbar s)) (backToTop s)
                pageYOffset true (S (navResets s))
                (topInThrottle s) (topResets s).

(** The throttled handler of [setupBackToTop], installed when the
    button exists. *)
Definition topHandler (pageYOffset : Z) (s : Scroll) : Scroll :=
  match backToTop s with
  | None => s
  | Some _ =>
      if topInThrottle s then s
      else mkScroll (navbar s) (Some (300 <? pageYOffset)%Z) (lastScrollY s)
                    (navInThrottle s) (navResets s) true (S (topResets s))
  end.

Definition fireScroll (s : Scroll) (ev : ScrollEvent) : Scroll :=
  match ev with
  | ScrollTo y => topHandler y (navHandler y s)
  | NavTimerDue =>
      match navResets s with
      | 0 => s
      | S k => mkScroll (navbar s) (backToTop s) (lastScrollY s) false k
                        (topInThrottle s) (topResets s)
      end
  | TopTimerDue =>
      match topResets s with
      | 0 => s
      | S k => mkScroll (navbar s) (backToTop s) (lastScrollY s)
                        (navInThrottle s) (navResets s) false k
      end
  end.

Definition runScroll (evs : list ScrollEvent) (s : Scroll) : Scroll :=
  fold_left fireScroll evs s.

(** The state the constructor and [init] leave. *)
Definition freshScroll (navbarEl backToTopEl : option bool) : Scroll :=
  mkScroll navbarEl backToTopEl 0 false 0 false 0.

(** [setupActiveLinks]: the page name that the links are compared
    with, and the marking of one link ([href] is [None] without the
    attribute). *)
Definition currentPage (pathname : string) : string :=
  match Js.lastSegment pathname with
  | EmptyString => "index.html"
  | String c rest => String c rest
  end.

Definition markActive (pathname : string) (link : option string * bool)
  : option string * bool :=
  let page := currentPage pathname in
  match fst link with
  | Some href =>
      if String.eqb href page
         || (String.eqb page "" && String.eqb href "index.html")
      then (fst link, true) else link
  | None => link
  end.

Definition setupActiveLinks (pathname : string)
           (links : list (option string * bool))
  : list (option string * bool) :=
  map (markActive pathname) links.

End Navigation.

Module Typewriter.

(** class TypewriterEffect of animations.js. *)
Inductive Callback :=
| TypeNext     (* [() => this.type()] *)
| DeleteNext.  (* [() => this.delete()] *)

Record Effect := mkEffect {
  text : string;
  loop : bool;
  cursor : bool;
  textContent : string;    (* of the element *)
  cursorClass : bool;      (* the class [typewriter-cursor] *)
  currentIndex : nat;
  pending : list Callback
}.

(** The constructor.  [element.dataset.typewriter || element.textContent]
    is the text to type; [options.loop || false] and
    [options.cursor || true]: the second is [true] whatever the option
    says. *)
Definition create (datasetTypewriter : option string)
           (elementText : string) (optLoop optCursor : option bool)
  : Effect :=
  mkEffect (Js.orElse datasetTypewriter elementText)
           (match optLoop with
            | Some true => true
            | _ => false
            end)
           (match optCursor with
            | Some true => true
            | _ => true
            end)
           elementText false 0 [].

Definition schedule (cb : Callback) (t : Effect) : Effect :=
  mkEffect (text t) (loop t) (cursor t) (textContent t) (cursorClass t)
           (currentIndex t) (pending t ++ [cb]).

Definition start (t : Effect) : Effect :=
  schedule TypeNext
    (mkEffect (text t) (loop t) (cursor t) ""
              (if cursor t then true else cursorClass t)
              (currentIndex t) (pending t)).

(** [text.charAt(i)]: empty from the length on. *)
Definition charAt (i : nat) (s : string) : string :=
  match String.get i s with
  | Some c => String c EmptyString
  | None => EmptyString
  end.

Definition type (t : Effect) : Effect :=
  if (currentIndex t <? String.length (text t))%nat
  then schedule TypeNext
         (mkEffect (text t) (loop t) (cursor t)
                   (textContent t +:+ charAt (currentIndex t) (text t))
                   (cursorClass t) (S (currentIndex t)) (pending t))
  else if loop t then schedule DeleteNext t
  else mkEffect (text t) (loop t) (cursor t) (textContent t) false
                (currentIndex t) (pending t).

Definition delete (t : Effect) : Effect :=
  if (0 <? currentIndex t)%nat
  then schedule DeleteNext
         (mkEffect (text t) (loop t) (cursor t)
                   (String.substring 0 (currentIndex t - 1) (text t))
                   (cursorClass t) (currentIndex t - 1) (pending t))
  else schedule TypeNext t.

(** The oldest pending timer comes due. *)
Definition tick (t : Effect) : Effect :=
  match pending t with
  | [] => t
  | cb :: rest =>
      let t' := mkEffect (text t) (loop t) (cursor t) (textContent t)
                         (cursorClass t) (currentIndex t) rest in
      match cb with
      | TypeNext => type t'
      | DeleteNext => delete t'
      end
  end.

End Typewriter.

Module Main.

(** src/js/main.js. *)

(** [getCurrentPage] *)
Definition getCurrentPage (pathname : string) : string :=
  match Js.replaceFirst ".html" "" (Js.lastSegment pathname) with
  | EmptyString => "index"
  | String c rest => String c rest
  end.

(** The initialiser that [initializePageComponents] picks. *)
Inductive PageInit :=
| HomePage | PortfolioPage | ContactPage | BlogPostPage | NoPageInit.

Definition initializePageComponents (pathname : string) : PageInit :=
  let page := getCurrentPage pathname in
  if String.eqb page "index" || String.eqb page "" then HomePage
  else if String.eqb page "portfolio" then PortfolioPage
  else if String.eqb page "contact" then ContactPage
  else if String.eqb page "blog-post" then BlogPostPage
  else NoPageInit.

(** The tooltips.  A tooltip element is known by the number of its
    node; all of them carry the id [active-tooltip]. *)
Record Tooltip := mkTooltip {
  node : nat;
  tipText : string;        (* [textContent] *)
  visible : bool           (* the class [visible] *)
}.

Inductive Callback :=
| MakeVisible (target : nat)   (* [showTooltip], after 10 ms *)
| Remove (target : nat).       (* [hideTooltip], after 200 ms *)

#[global] Instance Callback_eq_dec : EqDecision Callback.
Proof. solve_decision. Defined.

(** The tooltip elements among the children of the body, in document
    order, the counter of created nodes and the timers not yet due. *)
Record Tips := mkTips {
  tooltips : list Tooltip;
  nextNode : nat;
  pending : list Callback
}.

(** [showTooltip]; [text] is [e.target.dataset.tooltip]. *)
Definition showTooltip (text : option string) (s : Tips) : Tips :=
  if Js.truthy text
  then mkTips (tooltips s ++ [mkTooltip (nextNode s) (Js.orElse text "")
                                        false])
              (S (nextNode s))
              (pending s ++ [MakeVisible (nextNode s)])
  else s.

(** [hideTooltip]: [getElementById] finds the first element with the
    id in document order. *)
Definition hideTooltip (s : Tips) : Tips :=
  match tooltips s with
  | [] => s
  | tooltip :: rest =>
      mkTips (mkTooltip (node tooltip) (tipText tooltip) false :: rest)
             (nextNode s)
             (pending s ++ [Remove (node tooltip)])
  end.

Definition run (cb : Callback) (s : Tips) : Tips :=
  match cb with
  | MakeVisible target =>
      mkTips (map (fun t => if (node t =? target)%nat
                            then mkTooltip (node t) (tipText t) true
                            else t)
                  (tooltips s))
             (nextNode s) (pending s)
  | Remove target =>
      mkTips (List.filter (fun t => negb (node t =? target)%nat)
                          (tooltips s))
             (nextNode s) (pending s)
  end.

Fixpoint takeOut (cb : Callback) (l : list Callback)
  : option (list Callback) :=
  match l with
  | [] => None
  | x :: rest =>
      if decide (x = cb) then Some rest
      else option_map (cons x) (takeOut cb rest)
  end.

Inductive Event :=
| MouseEnter (text : option string)  (* on an element with [data-tooltip] *)
| MouseLeave
| Due (cb : Callback).

Definition fire (s : Tips) (ev : Event) : Tips :=
  match ev with
  | MouseEnter text => showTooltip text s
  | MouseLeave => hideTooltip s
  | Due cb =>
      match takeOut cb (pending s) with
      | Some rest => run cb (mkTips (tooltips s) (nextNode s) rest)
      | None => s
      end
  end.

Definition runEvents (evs : list Event) (s : Tips) : Tips :=
  fold_left fire evs s.

(** A page without tooltips. *)
Definition noTips : Tips := mkTips [] 0 [].

End Main.

(* ===================================================================== *)
(** * Vocabulary of the properties, and sample data                      *)
(* ===================================================================== *)

(** ** Sorting by date *)

Definition ascending {A : Type} (key : A -> Z) : list A -> Prop :=
  StronglySorted (fun a b => (key a <= key b)%Z).
Definition descending {A : Type} (key : A -> Z) : list A -> Prop :=
  StronglySorted (fun a b => (key b <= key a)%Z).

(** The date of a post parses. *)
Definition parseable (p : Post) : Prop := date p <> None.

Definition timeOf (p : Post) : Z := default 0%Z (date p).

Definition datedAt (t : Z) (p : Post) : bool :=
  match date p with
  | Some u => (u =? t)%Z
  | None => false
  end.

(** Of two records with distinct parseable dates the later one stands
    first. *)
Definition laterFirst (stored : list Post) : Prop :=
  forall (i j : nat) (a b : Post) (ta tb : Z),
    stored !! i = Some a -> stored !! j = Some b ->
    date a = Some ta -> date b = Some tb -> (tb < ta)%Z -> i < j.

(** Records of one date keep the relative order of the input. *)
Definition tiesInOrder (input stored : list Post) : Prop :=
  forall t : Z, List.filter (datedAt t) stored = List.filter (datedAt t) input.

Definition sortedByDateDesc (input stored : list Post) : Prop :=
  Permutation input stored /\ laterFirst stored /\ tiesInOrder input stored.

(** ** Filtering and the visible window *)

(** A post matches a filter slug, in the words of the specification: its
    category slug equals it, or one of its tag slugs does. *)
Definition Matches (filter : string) (post : Post) : Prop :=
  Blog.slug (category post) = filter
  \/ Exists (fun tag => Blog.slug tag = filter) (tags post).

#[global] Instance Matches_dec (filter : string) (post : Post) :
  Decision (Matches filter post).
Proof. unfold Matches. apply _. Defined.

(** The state after a filter click followed by [n] clicks on the
    load-more button. *)
Definition afterClicks (n : nat) (filter : string) (s : Blog.BlogSystem)
  : Blog.BlogSystem :=
  Nat.iter n Blog.loadMoreClick (Blog.setFilter filter s).

(** What the container holds when the window shows [shown]. *)
Definition gridOf (shown : list Post) : list Blog.Node :=
  match shown with
  | [] => [Blog.EmptyState]
  | _ :: _ => map Blog.Card shown
  end.

(** The end of the window that [render] computes. *)
Definition endIndexOf (s : Blog.BlogSystem) : nat :=
  if Blog.isPreview s then Blog.previewCount s
  else Blog.currentPage s * Blog.postsPerPage s.

(** What [updateLoadMoreButton] leaves in the control. *)
Definition controlAfter (s : Blog.BlogSystem) : option Blog.Display :=
  match Blog.loadMore (Blog.dom s) with
  | None => None
  | Some d =>
      Some (if Blog.isPreview s then d
            else if (length (Blog.filteredPosts s) <=? endIndexOf s)%nat
                 then Blog.DisplayNone else Blog.DisplayBlock)
  end.

(** The state of the load-more control once the window [0, w) of the
    filtered list [fs] is rendered; [d0] is what it showed before. *)
Definition controlOf (d0 : Blog.Display) (fs : list Post) (w : nat)
  : Blog.Display :=
  match take w fs with
  | [] => d0
  | _ :: _ =>
      if (length fs <=? w)%nat then Blog.DisplayNone else Blog.DisplayBlock
  end.

(** ** Escaping *)

(** The text fields that the specification wants escaped. *)
Definition textField (f : Markup.Field) : bool :=
  match f with
  | Markup.FTitle | Markup.FExcerpt | Markup.FCategory | Markup.FTag
  | Markup.FAuthor => true
  | _ => false
  end.

(** No text field enters the markup without [escapeHtml]. *)
Definition textEscaped (html : list Markup.Piece) : Prop :=
  forall f value, In (Markup.Raw f value) html -> textField f = false.

(** ** The detail view *)

(** The identifier is missing from the query string, or the fetched set
    has no record with it. *)
Definition notFound (postId : option string) (o : FetchOutcome) : Prop :=
  Js.truthy postId = false
  \/ exists i ps, postId = Some i /\ o = FetchJson (DocObject (PostsArray ps))
                  /\ Forall (fun p => id p <> i) ps.

(** The message of the error state in the two cases. *)
Definition notFoundMessage (postId : option string) : string :=
  if Js.truthy postId then "Beitrag nicht gefunden."
  else "Kein Beitrag angegeben.".

(** The error state of the detail view as the page shows it: the
    message in a paragraph, and the link back to the listing. *)
Definition errorWithBackLink (message : string) : string :=
  "<div class=" +:+ Markup.dq +:+ "error-state" +:+ Markup.dq +:+ "><p>"
  +:+ message
  +:+ "</p><a href=" +:+ Markup.dq +:+ "blog.html" +:+ Markup.dq
  +:+ " class=" +:+ Markup.dq +:+ "btn-primary glass" +:+ Markup.dq
  +:+ ">Zurück zum Blog</a></div>".

(** The posts next to position [i] of the list sorted by date,
    descending: the next older one follows, the next newer one
    precedes. *)
Definition olderOf (sorted : list Post) (i : nat) : option Post :=
  sorted !! S i.

Definition newerOf (sorted : list Post) (i : nat) : option Post :=
  match i with
  | 0 => None
  | S k => sorted !! k
  end.

(** A navigation link after the update: it leads to [target], or it is
    hidden when there is none. *)
Definition leadsTo (before after : SinglePost.Link) (target : option Post)
  : Prop :=
  match target with
  | Some p =>
      SinglePost.href after = "blog-post.html?id=" +:+ id p
      /\ SinglePost.hidden after = SinglePost.hidden before
  | None => SinglePost.hidden after = true
  end.

(** No post of the set lies strictly between the two in time. *)
Definition noneBetween (ps : list Post) (older newer : Post) : Prop :=
  forall q, In q ps -> ~ (timeOf older < timeOf q < timeOf newer)%Z.

(** ** The intro overlays *)

(** How often the fade-out callback of the loader is pending. *)
Definition pendingFades (s : Starfield.Loader) : nat :=
  count_occ Starfield.Callback_eq_dec (Starfield.pending s) Starfield.FadeOut.

(** [sessionStorage] takes the loader's flag: the write does not
    throw. *)
Definition acceptsFlag (st : LocalStorage.t) : Prop :=
  LocalStorage.setItem "loaderShown" "true" st <> None.

(** The flag as the next page load reads it. *)
Definition sessionMarked (st : LocalStorage.t) : Prop :=
  LocalStorage.getItem "loaderShown" st = Some (Some "true").

(** Two states of one store: what makes a call throw is the same. *)
Definition sameLimits (a b : LocalStorage.t) : Prop :=
  LocalStorage.denied a = LocalStorage.denied b
  /\ LocalStorage.room a = LocalStorage.room b.

(** What holds of the loader in every state it reaches.  A skip that
    did not complete the loader is one whose write was refused. *)
Definition loaderInv (s : Starfield.Loader) : Prop :=
  Starfield.completions s = (if Starfield.isComplete s then 1 else 0)
  /\ pendingFades s + Starfield.dispatched s <= Starfield.completions s
  /\ (Starfield.isSkipped s = true -> Starfield.isComplete s = false ->
      ~ acceptsFlag (Starfield.session s)).

Definition pendingFadeTimers (s : Welcome.Anim) : nat :=
  count_occ Welcome.Callback_eq_dec (Welcome.pending s) Welcome.FadeTimer.

(** The welcome animation was bypassed at [init]: nothing is left that
    an event could start. *)
Definition welcomeIdle (s : Welcome.Anim) : Prop :=
  Welcome.pending s = [] /\ Welcome.waiting s = None
  /\ Welcome.buttonListening s = false /\ Welcome.escapeArmed s = false
  /\ Welcome.completions s = 0 /\ Welcome.dispatched s = 1
  /\ Welcome.hasSkipped s = false /\ Welcome.animationComplete s = false.

(** What holds of the welcome animation while it runs. *)
Definition welcomeRunning (s : Welcome.Anim) : Prop :=
  (Welcome.hasSkipped s = true -> Welcome.animationComplete s = false)
  /\ Welcome.completions s = (if Welcome.animationComplete s then 1 else 0)
  /\ pendingFadeTimers s + Welcome.dispatched s <= Welcome.completions s.

(** What holds of the welcome animation in every state it reaches. *)
Definition welcomeInv (s : Welcome.Anim) : Prop :=
  welcomeIdle s \/ welcomeRunning s.

(** An intro overlay was bypassed: it is out of the document, the body
    class is off, and nothing of the timed sequence is under way. *)
Definition starfieldBypassed (s : Starfield.Loader) : Prop :=
  Starfield.overlay s = Starfield.Gone
  /\ Starfield.loaderActive s = false
  /\ Starfield.pending s = []
  /\ Starfield.listening s = false.

Definition welcomeBypassed (s : Welcome.Anim) : Prop :=
  Welcome.overlay s = Welcome.Gone
  /\ Welcome.welcomeActive s = false
  /\ Welcome.waiting s = None
  /\ Welcome.pending s = []
  /\ Welcome.steps s = 0.

(** ** Storage *)

(** A value is JSON-serialisable for a codec: [JSON.stringify] writes a
    text for it that [JSON.parse] reads back as the same value. *)
Definition serialisable (stringify : Json.value -> option string)
           (parse : string -> option Json.value) (v : Json.value) : Prop :=
  exists text, stringify v = Some text /\ text <> "" /\ parse text = Some v.

(** The reference codec as the two platform functions. *)
Definition refStringify (v : Json.value) : option string :=
  Some (Json.stringify v).
Definition refParse (text : string) : option Json.value := Json.parse text.

(** What may follow a number in the text. *)
Definition noDigitAhead (rest : string) : Prop :=
  match rest with
  | String c _ => Json.isDigit c = false
  | EmptyString => True
  end.

(** The nodes of a value; as many units of fuel let [readValue] read
    it. *)
Fixpoint valueSize (v : Json.value) : nat :=
  match v with
  | Json.Arr items => S (list_sum (map (fun x => S (valueSize x)) items))
  | Json.Obj members =>
      S (list_sum (map (fun kv => S (valueSize (snd kv))) members))
  | _ => 1
  end.

(** The reference reader reads back what the reference writer wrote for
    [v], whatever text follows. *)
Definition readsBack (v : Json.value) : Prop :=
  forall fuel rest,
    valueSize v <= fuel -> noDigitAhead rest ->
    Json.readValue fuel (Json.stringify v +:+ rest) = Some (v, rest).

(** The first character of a written value closes neither an array nor
    an object. *)
Definition opens (c : ascii) : Prop :=
  c <> "]"%char /\ c <> "}"%char.

(** ** Sample data *)

Definition samplePost (i cat : string) (labels : list string) (t : option Z)
  : Post :=
  mkPost i ("Post " +:+ i) "An excerpt" None "Leon" cat labels t None None.

Definition tenPosts : list Post :=
  map (fun '(i, t) => samplePost i "News" ["Web Dev"] (Some t))
      [("1", 10%Z); ("2", 9%Z); ("3", 8%Z); ("4", 7%Z); ("5", 6%Z);
       ("6", 5%Z); ("7", 4%Z); ("8", 3%Z); ("9", 2%Z); ("10", 1%Z)].

(** A feed whose middle record carries a date that does not parse. *)
Definition feedWithBadDate : list Post :=
  [samplePost "a" "News" [] (Some 1%Z);
   samplePost "b" "News" [] None;
   samplePost "c" "News" [] (Some 2%Z)].

(** A feed that is not in the order of its dates. *)
Definition shuffledFeed : list Post :=
  [samplePost "b" "News" [] (Some 20%Z);
   samplePost "d" "News" [] (Some 40%Z);
   samplePost "a" "News" [] (Some 10%Z);
   samplePost "c" "News" [] (Some 30%Z)].

(** A post without an image whose category begins with an angle
    bracket. *)
Definition bracketPost : Post :=
  mkPost "7" "Tags" "About markup" None "Leon" "<b>HTML</b>" ["a&b"]
         (Some 5%Z) None None.

Definition germanDate (d : option Z) : string := "1. Januar 2024".

Definition noOptions : Blog.Options := Blog.mkOptions None None None.

(** The listing page: the grid, the load-more container and its
    button. *)
Definition listingPage : Blog.Page :=
  Blog.mkPage (Some []) (Some Blog.DisplayInitial) true.

Definition fetched (ps : list Post) : FetchOutcome :=
  FetchJson (DocObject (PostsArray ps)).

Definition blankBlog : Blog.BlogSystem :=
  Blog.mkBlog 9 false 3 [] [] "all" 1 listingPage.

(** The detail page with all its mount points, meta tags and links. *)
Definition detailPage : SinglePost.Document :=
  SinglePost.mkDocument
    (SinglePost.mkMeta "Blog" (Some "A blog") (Some "Blog") (Some "A blog")
                       (Some "cover.png"))
    (SinglePost.mkBody (Some []) (Some [])
                       (Some (SinglePost.mkFeatured [] false)) (Some []))
    (SinglePost.mkNav (Some (SinglePost.mkLink "#" "prev" false))
                      (Some (SinglePost.mkLink "#" "next" false))).

Definition emptyStorage : LocalStorage.t := LocalStorage.mk ∅ false 5000.

(** The session store of a page that follows a completed loader. *)
Definition markedStorage : LocalStorage.t :=
  LocalStorage.mk {[ "loaderShown" := "true" ]} false 5000.

(** A session store without room for the flag. *)
Definition fullStorage : LocalStorage.t := LocalStorage.mk ∅ false 0.

(** A first visit with the reduced-motion preference on. *)
Definition quietLoaderEnv : Starfield.Env :=
  Starfield.mkEnv true true true true emptyStorage false true false.

Definition quietWelcomeEnv : Welcome.Env :=
  Welcome.mkEnv true true true true true true false 1700000000000%Z
                emptyStorage.

(** A first visit without any preference. *)
Definition plainLoaderEnv : Starfield.Env :=
  Starfield.mkEnv true true true true emptyStorage false false false.

Definition plainWelcomeEnv : Welcome.Env :=
  Welcome.mkEnv true true true true true false false 1700000000000%Z
                emptyStorage.

(** The record that [WelcomeAnimation.skip] stores. *)
Definition skipRecord : Json.value :=
  Json.Obj [("expires", Json.Num 1700086400000%Z)].

(** ** Texts *)

(** Every character of a text satisfies a test. *)
Fixpoint allChars (test : ascii -> bool) (s : string) : bool :=
  match s with
  | EmptyString => true
  | String c rest => test c && allChars test rest
  end.

(** White space only, possibly nothing. *)
Definition blank (s : string) : Prop := allChars Js.isWhiteSpace s = true.

(** A word: at least one character, none of them white space. *)
Definition word (w : string) : Prop :=
  w <> "" /\ allChars (fun c => negb (Js.isWhiteSpace c)) w = true.

(** A gap between two words: at least one character of white space. *)
Definition gap (g : string) : Prop := g <> "" /\ blank g.

(** The words [w0], [w1], ... with the gaps before [w1], [w2], ... *)
Fixpoint spaced (w0 : string) (more : list (string * string)) : string :=
  match more with
  | [] => w0
  | (g, w) :: rest => w0 +:+ g +:+ spaced w rest
  end.

(** Every further word comes with a gap before it. *)
Definition wellSpaced (more : list (string * string)) : Prop :=
  Forall (fun gw => gap (fst gw) /\ word (snd gw)) more.

(** ** Slugs in the words of the specification *)

(** The six ASCII characters of the class [\s]: tab, line feed,
    vertical tab, form feed, carriage return, space. *)
Definition whiteSpaceChars : list ascii :=
  [ascii_of_nat 9; ascii_of_nat 10; ascii_of_nat 11; ascii_of_nat 12;
   ascii_of_nat 13; " "%char].

(** The small letter of a capital, looked up in the alphabet; every
    other character is itself. *)
Fixpoint lowerIn (capitals small : string) (c : ascii) : ascii :=
  match capitals, small with
  | String u capitals', String l small' =>
      if Ascii.eqb c u then l else lowerIn capitals' small' c
  | _, _ => c
  end.

Definition lowerCased (c : ascii) : ascii :=
  lowerIn "ABCDEFGHIJKLMNOPQRSTUVWXYZ" "abcdefghijklmnopqrstuvwxyz" c.

(** ASCII text: every character is below 128.  On such text the case
    mapping and the white-space class of the platform are the ASCII
    ones. *)
Definition asciiChar (c : ascii) : bool := (nat_of_ascii c <? 128)%nat.

Definition asciiText (s : string) : Prop := allChars asciiChar s = true.

(** Nothing, or a character that is not white space, comes next. *)
Definition noWhiteSpaceAhead (rest : string) : Prop :=
  match rest with
  | EmptyString => True
  | String c _ => ~ In c whiteSpaceChars
  end.

(** The slug of an ASCII label: lower case, and every maximal run of
    white space replaced by one hyphen. *)
Inductive SlugOf : string -> string -> Prop :=
| slug_end : SlugOf "" ""
| slug_char (c : ascii) (rest out : string) :
    asciiChar c = true -> ~ In c whiteSpaceChars ->
    SlugOf rest out ->
    SlugOf (String c rest) (String (lowerCased c) out)
| slug_run (run rest out : string) :
    run <> "" ->
    (forall c, In c (list_ascii_of_string run) -> In c whiteSpaceChars) ->
    noWhiteSpaceAhead rest ->
    SlugOf rest out ->
    SlugOf (run +:+ rest) (String "-" out).

(** A post matches a filter slug: the slug of its category is the
    filter, or the slug of one of its tags is. *)
Definition MatchesSlug (filter : string) (post : Post) : Prop :=
  SlugOf (category post) filter
  \/ Exists (fun tag => SlugOf tag filter) (tags post).

(** The category and the tags of a post are ASCII text. *)
Definition asciiLabels (post : Post) : Prop :=
  asciiText (category post) /\ Forall asciiText (tags post).

(** [chosen] is exactly the subsequence of [all] whose elements satisfy
    [P], in their order. *)
Inductive Selection {A : Type} (P : A -> Prop) : list A -> list A -> Prop :=
| selection_nil : Selection P [] []
| selection_keep (x : A) (all chosen : list A) :
    P x -> Selection P all chosen -> Selection P (x :: all) (x :: chosen)
| selection_drop (x : A) (all chosen : list A) :
    ~ P x -> Selection P all chosen -> Selection P (x :: all) chosen.

(** Posts with labels in capitals and with runs of white space. *)
Definition labelledPosts : list Post :=
  [samplePost "1" "Web  Dev" ["Tips"] (Some 3%Z);
   samplePost "2" "News" ["web dev"; "CSS"] (Some 2%Z);
   samplePost "3" "Design" ["Web	 Dev"] (Some 1%Z);
   samplePost "4" "web-dev" [] (Some 0%Z)].

(** ** Debounced and throttled calls *)

(** The signals of a run cut at the timers: each burst of calls is
    followed by a timer coming due, and [tail] are the calls after the
    last one. *)
Definition bursts {A : Type} (windows : list (list A)) (tail : list A)
  : list (Utils.Signal A) :=
  flat_map (fun b => map Utils.Call b ++ [Utils.TimerDue]) windows
  ++ map Utils.Call tail.

(** The debounced function between two bursts: at most the timer of the
    last call is pending, and [timeout] names it. *)
Definition armedWith {A : Type} (args : option A) (d : Utils.Debounced A)
  : Prop :=
  match args with
  | None => Utils.timers d = []
  | Some a => exists i, Utils.timeout d = Some i /\ Utils.timers d = [(i, a)]
  end.

(** ** More on escaping *)

(** How often a character occurs in a text. *)
Fixpoint occurrences (c : ascii) (s : string) : nat :=
  match s with
  | EmptyString => 0
  | String d rest => (if Ascii.eqb d c then 1 else 0) + occurrences c rest
  end.

(** ** More on the listing *)

(** Two states of one listing: the same options and posts, the same
    mount points, and in preview mode the same state of the control. *)
Definition akin (s t : Blog.BlogSystem) : Prop :=
  Blog.postsPerPage t = Blog.postsPerPage s
  /\ Blog.isPreview t = Blog.isPreview s
  /\ Blog.previewCount t = Blog.previewCount s
  /\ Blog.posts t = Blog.posts s
  /\ (Blog.container (Blog.dom t) = None <-> Blog.container (Blog.dom s) = None)
  /\ Blog.loadMoreBtn (Blog.dom t) = Blog.loadMoreBtn (Blog.dom s)
  /\ (Blog.loadMore (Blog.dom t) = None <-> Blog.loadMore (Blog.dom s) = None)
  /\ (Blog.isPreview s = true ->
      Blog.loadMore (Blog.dom t) = Blog.loadMore (Blog.dom s)).

(** The filter buttons clicked one after the other. *)
Definition clickFilters (clicks : list nat)
           (st : list Blog.FilterButton * Blog.BlogSystem)
  : list Blog.FilterButton * Blog.BlogSystem :=
  fold_left Blog.filterClick clicks st.

(** ** More on the intro overlays *)

(** What keeps the loader moving towards its end when [sessionStorage]
    takes its flag: while it runs the fallback timer is pending; once
    completed, the fade timer is pending until the completion event is
    out; after that the body class is off and the overlay is gone or
    about to be removed.  A completed loader has marked the session. *)
Definition loaderLive (s : Starfield.Loader) : Prop :=
  acceptsFlag (Starfield.session s)
  /\ (Starfield.isSkipped s = true -> Starfield.isComplete s = true)
  /\ (Starfield.isComplete s = false ->
      In Starfield.Fallback (Starfield.pending s))
  /\ (Starfield.isComplete s = true -> Starfield.dispatched s = 0 ->
      In Starfield.FadeOut (Starfield.pending s))
  /\ (1 <= Starfield.dispatched s ->
      Starfield.loaderActive s = false
      /\ (Starfield.overlay s = Starfield.Gone
          \/ In Starfield.Cleanup (Starfield.pending s)))
  /\ (Starfield.isComplete s = true -> sessionMarked (Starfield.session s)).

(** What can end the loader or start its display timer: a skip, the
    load event, the fallback timer. *)
Definition loaderTrigger (ev : Starfield.Event) : bool :=
  match ev with
  | Starfield.SkipClick => true
  | Starfield.Keydown key => String.eqb key "Escape"
  | Starfield.WindowLoad => true
  | Starfield.Due Starfield.Fallback => true
  | Starfield.Due _ => false
  end.

(** The loader on display, with nothing under way that could end it. *)
Definition loaderOnDisplay (s : Starfield.Loader) : Prop :=
  Starfield.isComplete s = false
  /\ Starfield.isSkipped s = false
  /\ Starfield.overlay s = Starfield.Shown false false
  /\ Starfield.loaderActive s = true
  /\ Starfield.dispatched s = 0
  /\ Forall (fun cb => cb = Starfield.Fallback \/ cb = Starfield.Frame
                       \/ cb = Starfield.Progress)
            (Starfield.pending s).

(** The loader whose write is refused: shown, not faded, with nothing
    under way that could take it down. *)
Definition loaderStuck (s : Starfield.Loader) : Prop :=
  ~ acceptsFlag (Starfield.session s)
  /\ Starfield.overlay s = Starfield.Shown false false
  /\ Starfield.loaderActive s = true
  /\ Starfield.dispatched s = 0
  /\ Starfield.revealed s = 0
  /\ Forall (fun cb => cb <> Starfield.FadeOut /\ cb <> Starfield.Cleanup)
            (Starfield.pending s).

(** The record that [skip] stores at the time [now]. *)
Definition skipRecordAt (now : Z) : Json.value :=
  Json.Obj [("expires", Json.Num (now + 24 * 60 * 60 * 1000)%Z)].

(** Kinds of events of the welcome animation. *)
Definition isSkipClick (ev : Welcome.Event) : bool :=
  match ev with
  | Welcome.SkipClick => true
  | _ => false
  end.

Definition isKeydown (ev : Welcome.Event) : bool :=
  match ev with
  | Welcome.Keydown _ => true
  | _ => false
  end.

Definition isEscape (ev : Welcome.Event) : bool :=
  match ev with
  | Welcome.Keydown key => String.eqb key "Escape"
  | _ => false
  end.

(** Nothing was skipped and nothing written. *)
Definition unskipped (e : Welcome.Env) (s : Welcome.Anim) : Prop :=
  Welcome.hasSkipped s = false /\ Welcome.stored s = Welcome.localStorage e.

(** The overlay as the constructor found it. *)
Definition overlayAtStart (e : Welcome.Env) : Welcome.Overlay :=
  if Welcome.overlayPresent e then Welcome.Shown false else Welcome.Gone.

(** The awaited steps of [startAnimation] that are still to come. *)
Definition stepsLeft (s : Welcome.Anim) : nat :=
  match Welcome.waiting s with
  | Some k => 6 - k
  | None => 0
  end.

(** What holds of an animation that was started and not bypassed. *)
Definition welcomeStarted (e : Welcome.Env) (s : Welcome.Anim) : Prop :=
  (Welcome.hasSkipped s = true -> Welcome.animationComplete s = false)
  /\ (Welcome.animationComplete s = false ->
      Welcome.welcomeActive s = true /\ Welcome.dispatched s = 0
      /\ Welcome.overlay s = overlayAtStart e
      /\ ~ In Welcome.FadeTimer (Welcome.pending s))
  /\ (Welcome.hasSkipped s = false ->
      (forall k, Welcome.waiting s = Some k ->
                 1 <= k <= 5 /\ Welcome.animationComplete s = false)
      /\ (Welcome.waiting s = None -> Welcome.animationComplete s = true)
      /\ (Welcome.animationComplete s = true -> Welcome.dispatched s = 0 ->
          In Welcome.FadeTimer (Welcome.pending s))
      /\ (1 <= Welcome.dispatched s ->
          Welcome.overlay s = Welcome.Gone
          /\ Welcome.welcomeActive s = false)).

(** ** The navigation bar *)

(** Every element of the menu that exists carries its class exactly
    when [isMenuOpen] is set, and so does the body. *)
Definition menuInSync (m : Navigation.Menu) : Prop :=
  Navigation.hamburger m
  = Navigation.mark (Navigation.isMenuOpen m) (Navigation.hamburger m)
  /\ Navigation.mobileMenu m
     = Navigation.mark (Navigation.isMenuOpen m) (Navigation.mobileMenu m)
  /\ Navigation.mobileOverlay m
     = Navigation.mark (Navigation.isMenuOpen m) (Navigation.mobileOverlay m)
  /\ Navigation.menuOpenClass m = Navigation.isMenuOpen m.

(** Reset timers coming due, either handler's. *)
Definition resetTimers (which : list bool) : list Navigation.ScrollEvent :=
  map (fun nav : bool => if nav then Navigation.NavTimerDue
                         else Navigation.TopTimerDue) which.

(** ** The typewriter *)

(** The effect while it types: [k] characters are out, the cursor is
    on, and the next step is scheduled. *)
Definition typing (full : string) (loop cursor : bool) (k : nat)
  : Typewriter.Effect :=
  Typewriter.mkEffect full loop cursor (String.substring 0 k full) true k
                      [Typewriter.TypeNext].

(** The effect while it takes the text back. *)
Definition deleting (full : string) (loop cursor : bool) (k : nat)
  : Typewriter.Effect :=
  Typewriter.mkEffect full loop cursor (String.substring 0 k full) true k
                      [Typewriter.DeleteNext].

(** ** Page names and tooltips *)

(** A file name without its extension: no slash and no dot. *)
Definition plainName (name : string) : Prop :=
  name <> ""
  /\ allChars (fun c => negb (Ascii.eqb c "/") && negb (Ascii.eqb c ".")) name
     = true.

(** The tooltip element with this node number is in the document. *)
Definition inDocument (target : nat) (s : Main.Tips) : Prop :=
  In target (map Main.node (Main.tooltips s)).

(** The newest tooltip is safe: it is in the document and no pending
    timer removes it. *)
Definition tooltipSafe (target : nat) (s : Main.Tips) : Prop :=
  inDocument target s /\ ~ In (Main.Remove target) (Main.pending s).

(* ===================================================================== *)
(** * Part II: properties                                                *)
(* ===================================================================== *)

(** ** The sort *)

Section SortFacts.
Context {A : Type} (comparefn : A -> A -> Js.number).

Lemma insertItem_perm (item : A) (prefix : list A) :
  Permutation (item :: prefix) (Js.insertItem comparefn item prefix).
Proof.
  induction prefix as [|swap rest IH]; simpl; [reflexivity|].
  destruct (Js.sortCompare comparefn swap item <=? 0)%Z; [reflexivity|].
  rewrite perm_swap. now apply perm_skip.
Qed.

Lemma insertion_loop_perm (l prefix : list A) :
  Permutation (l ++ prefix)
    (fold_left (fun pre item => Js.insertItem comparefn item pre) l prefix).
Proof.
  revert prefix. induction l as [|x l IH]; intros prefix; simpl.
  - reflexivity.
  - rewrite <- IH. rewrite <- insertItem_perm.
    apply Permutation_middle.
Qed.

Lemma sort_perm (l : list A) : Permutation l (Js.sort comparefn l).
Proof.
  unfold Js.sort. rewrite <- Permutation_rev.
  rewrite <- insertion_loop_perm. now rewrite app_nil_r.
Qed.

(** From here on the callback is a consistent comparison on the
    elements that satisfy [ok]: it is the difference of two keys. *)
Context (key : A -> Z) (ok : A -> Prop).
Hypothesis comparefn_key :
  forall a b, ok a -> ok b ->
    Js.sortCompare comparefn a b = (key b - key a)%Z.

Lemma insertItem_ascending (item : A) (prefix : list A) :
  ok item -> Forall ok prefix -> ascending key prefix ->
  ascending key (Js.insertItem comparefn item prefix).
Proof.
  intros Hitem Hok Hsorted.
  induction prefix as [|swap rest IH]; simpl.
  - constructor; constructor.
  - inversion Hok as [|? ? Hswap Hrest]; subst.
    inversion Hsorted as [|? ? Hs Hall]; subst.
    rewrite comparefn_key by assumption.
    destruct (Z.leb_spec (key item - key swap) 0) as [Hle|Hgt].
    + constructor; [assumption|].
      constructor; [lia|].
      eapply Forall_impl; [exact Hall|]. simpl. intros; lia.
    + constructor; [now apply IH|].
      rewrite <- insertItem_perm.
      constructor; [lia | assumption].
Qed.

Lemma insertion_loop_ascending (l prefix : list A) :
  Forall ok l -> Forall ok prefix -> ascending key prefix ->
  ascending key
    (fold_left (fun pre item => Js.insertItem comparefn item pre) l prefix).
Proof.
  revert prefix. induction l as [|x l IH]; intros prefix Hl Hp Hs; simpl.
  - assumption.
  - inversion Hl; subst. apply IH; [assumption| |].
    + rewrite <- insertItem_perm. now constructor.
    + now apply insertItem_ascending.
Qed.

Lemma ascending_rev (l : list A) : ascending key l -> descending key (rev l).
Proof.
  unfold ascending, descending.
  induction 1 as [|a l Hs IH Hall]; simpl; [constructor|].
  apply StronglySorted_app_2; [|assumption|repeat constructor].
  intros x1 x2 Hx1 Hx2.
  apply list_elem_of_In in Hx1. apply in_rev in Hx1.
  apply list_elem_of_singleton in Hx2. subst x2.
  rewrite Forall_forall in Hall. apply Hall. now apply list_elem_of_In.
Qed.

Lemma sort_descending (l : list A) :
  Forall ok l -> descending key (Js.sort comparefn l).
Proof.
  intros Hl. apply ascending_rev.
  apply insertion_loop_ascending; [assumption|constructor|constructor].
Qed.

(** The elements of one key come out in the order they went in. *)
Lemma insertItem_filter (k : Z) (item : A) (prefix : list A) :
  ok item -> Forall ok prefix ->
  List.filter (fun a => (key a =? k)%Z) (Js.insertItem comparefn item prefix)
  = List.filter (fun a => (key a =? k)%Z) (item :: prefix).
Proof.
  intros Hitem Hok.
  induction prefix as [|swap rest IH]; [reflexivity|].
  inversion Hok as [|? ? Hswap Hrest]; subst.
  cbn [Js.insertItem]. rewrite comparefn_key by assumption.
  destruct (Z.leb_spec (key item - key swap) 0) as [Hle|Hgt];
    [reflexivity|].
  cbn [List.filter] in *. rewrite (IH Hrest).
  destruct (Z.eqb_spec (key swap) k), (Z.eqb_spec (key item) k);
    try reflexivity.
  lia.
Qed.

Lemma insertion_loop_filter (k : Z) (l prefix : list A) :
  Forall ok l -> Forall ok prefix ->
  List.filter (fun a => (key a =? k)%Z)
    (fold_left (fun pre item => Js.insertItem comparefn item pre) l prefix)
  = rev (List.filter (fun a => (key a =? k)%Z) l)
    ++ List.filter (fun a => (key a =? k)%Z) prefix.
Proof.
  revert prefix. induction l as [|x l IH]; intros prefix Hl Hp;
    [reflexivity|].
  inversion Hl; subst. cbn [fold_left].
  rewrite IH; [|assumption|].
  - rewrite insertItem_filter by assumption.
    cbn [List.filter]. destruct (key x =? k)%Z; [|reflexivity].
    cbn [rev]. now rewrite <- app_assoc.
  - rewrite <- insertItem_perm. now constructor.
Qed.

Lemma sort_stable (k : Z) (l : list A) :
  Forall ok l ->
  List.filter (fun a => (key a =? k)%Z) (Js.sort comparefn l)
  = List.filter (fun a => (key a =? k)%Z) l.
Proof.
  intros Hl. unfold Js.sort. rewrite List.filter_rev.
  rewrite insertion_loop_filter by (assumption || constructor).
  cbn [List.filter]. rewrite app_nil_r. apply rev_involutive.
Qed.

Lemma descending_lookup (l : list A) (i j : nat) (a b : A) :
  descending key l -> l !! i = Some a -> l !! j = Some b -> i < j ->
  (key b <= key a)%Z.
Proof.
  intros Hs. revert i j. induction Hs as [|x l Hs IH Hall]; intros i j Hi Hj Hlt.
  - discriminate.
  - destruct j as [|j]; [lia|]. destruct i as [|i]; simpl in *.
    + inversion Hi; subst. rewrite Forall_forall in Hall.
      apply Hall. eapply list_elem_of_lookup_2; eauto.
    + eapply IH; eauto. lia.
Qed.

End SortFacts.

(** ** Loading and sorting (C4) *)

Lemma byDateDesc_key (a b : Post) :
  parseable a -> parseable b ->
  Js.sortCompare Blog.byDateDesc a b = (timeOf b - timeOf a)%Z.
Proof.
  unfold parseable, Js.sortCompare, Blog.byDateDesc, Js.minus, timeOf.
  intros Ha Hb. destruct (date a), (date b); try contradiction. reflexivity.
Qed.

Lemma datedAt_timeOf (t : Z) (l : list Post) :
  Forall parseable l ->
  List.filter (datedAt t) l = List.filter (fun p => (timeOf p =? t)%Z) l.
Proof.
  intros Hl. apply List.filter_ext_in. intros p Hp.
  rewrite Forall_forall in Hl. specialize (Hl p).
  unfold datedAt, timeOf, parseable in *.
  destruct (date p); [reflexivity|]. exfalso. apply Hl; [|reflexivity].
  now apply list_elem_of_In.
Qed.

Lemma sortPosts_perm (ps : list Post) : Permutation ps (Blog.sortPosts ps).
Proof. apply sort_perm. Qed.

Lemma sortPosts_parseable (ps : list Post) :
  Forall parseable ps -> Forall parseable (Blog.sortPosts ps).
Proof. intros H. now rewrite <- sortPosts_perm. Qed.

Lemma sortPosts_laterFirst (ps : list Post) :
  Forall parseable ps -> laterFirst (Blog.sortPosts ps).
Proof.
  intros Hok i j a b ta tb Hi Hj Ha Hb Hlt.
  pose proof (sort_descending Blog.byDateDesc timeOf parseable
                byDateDesc_key ps Hok) as Hdesc.
  destruct (Nat.lt_trichotomy i j) as [Hij|[Hij|Hij]]; [assumption| |].
  - subst j. rewrite Hi in Hj. inversion Hj; subst b.
    rewrite Ha in Hb. inversion Hb. lia.
  - pose proof (descending_lookup timeOf _ j i b a Hdesc Hj Hi Hij) as Hle.
    unfold timeOf in Hle. rewrite Ha, Hb in Hle. simpl in Hle. lia.
Qed.

Lemma sortPosts_tiesInOrder (ps : list Post) :
  Forall parseable ps -> tiesInOrder ps (Blog.sortPosts ps).
Proof.
  intros Hok t.
  rewrite !datedAt_timeOf by (assumption || now apply sortPosts_parseable).
  apply (sort_stable Blog.byDateDesc timeOf parseable byDateDesc_key t ps Hok).
Qed.

Lemma loadPosts_fetched (ps : list Post) (s : Blog.BlogSystem) :
  Blog.posts (Blog.loadPosts (fetched ps) s) = Blog.sortPosts ps
  /\ Blog.filteredPosts (Blog.loadPosts (fetched ps) s) = Blog.sortPosts ps.
Proof. split; reflexivity. Qed.

(** C4, as the code has it: when every record of the fetched array
    carries a date that parses, the list that [loadPosts] stores is a
    permutation of the array, of two records with distinct dates the
    later one stands first, and records of one date keep their relative
    order. *)
Theorem loadPosts_sorts_parseable_feed (ps : list Post) (s : Blog.BlogSystem) :
  Forall parseable ps ->
  sortedByDateDesc ps (Blog.posts (Blog.loadPosts (fetched ps) s)).
Proof.
  intros Hok. destruct (loadPosts_fetched ps s) as [-> _].
  split; [apply sortPosts_perm|].
  split; [now apply sortPosts_laterFirst | now apply sortPosts_tiesInOrder].
Qed.

Lemma loadPosts_sorts_parseable_feed_witness :
  Forall parseable tenPosts
  /\ sortedByDateDesc tenPosts
       (Blog.posts (Blog.loadPosts (fetched tenPosts) blankBlog)).
Proof.
  assert (H : Forall parseable tenPosts)
    by (repeat constructor; discriminate).
  split; [exact H|].
  exact (loadPosts_sorts_parseable_feed tenPosts blankBlog H).
Defined.

(** C4 as stated fails on a feed with a date that does not parse: the
    callback answers NaN next to that record, the record with the later
    date is never moved in front of the earlier one. *)
Lemma loadPosts_bad_date_not_sorted :
  ~ sortedByDateDesc feedWithBadDate
      (Blog.posts (Blog.loadPosts (fetched feedWithBadDate) blankBlog)).
Proof.
  intros (_ & Hlater & _).
  specialize (Hlater 2 0 (samplePost "c" "News" [] (Some 2%Z))
                (samplePost "a" "News" [] (Some 1%Z)) 2%Z 1%Z).
  cbv in Hlater.
  specialize (Hlater eq_refl eq_refl eq_refl eq_refl eq_refl).
  inversion Hlater.
Qed.

(** ** Filtering (C2) *)

(** The slug: every maximal run of white space becomes one hyphen, the
    other characters stay. *)
Lemma replaceRuns_no_whitespace (inRun : bool) (s : string) (c : ascii) :
  In c (list_ascii_of_string (Js.replaceRuns inRun s)) ->
  Js.isWhiteSpace c = false.
Proof.
  revert inRun. induction s as [|a s IH]; intros inRun; cbn; [intros []|].
  destruct (Js.isWhiteSpace a) eqn:Ha.
  - destruct inRun; [apply IH|]. cbn. intros [<-|H]; [reflexivity|].
    now apply (IH true).
  - cbn. intros [<-|H]; [assumption|]. now apply (IH false).
Qed.

Lemma replaceRuns_keeps_text (inRun : bool) (s : string) :
  (forall c, In c (list_ascii_of_string s) -> Js.isWhiteSpace c = false) ->
  Js.replaceRuns inRun s = s.
Proof.
  revert inRun. induction s as [|a s IH]; intros inRun Hs; [reflexivity|].
  cbn [Js.replaceRuns]. rewrite (Hs a) by (now left). f_equal. apply IH.
  intros c Hc. apply Hs. now right.
Qed.

(** A run of white space [w] in front of [rest] gives one hyphen, and
    none when the hyphen of the run is already written. *)
Lemma replaceRuns_run (w rest : string) :
  w <> "" ->
  (forall c, In c (list_ascii_of_string w) -> Js.isWhiteSpace c = true) ->
  Js.replaceRuns false (w +:+ rest)
  = String "-" (Js.replaceRuns true rest)
  /\ Js.replaceRuns true (w +:+ rest) = Js.replaceRuns true rest.
Proof.
  induction w as [|a w IH]; [contradiction|]. intros _ Hw.
  assert (Ha : Js.isWhiteSpace a = true) by (apply Hw; now left).
  assert (Hrest : forall c, In c (list_ascii_of_string w) ->
                            Js.isWhiteSpace c = true)
    by (intros c Hc; apply Hw; now right).
  change (String a w +:+ rest) with (String a (w +:+ rest)).
  cbn [Js.replaceRuns]. rewrite Ha. destruct w as [|b w].
  - now split.
  - destruct (IH ltac:(discriminate) Hrest) as [_ Htrue].
    now rewrite Htrue.
Qed.

Lemma replaceRuns_after_run (c : ascii) (s : string) :
  Js.isWhiteSpace c = false ->
  Js.replaceRuns true (String c s) = String c (Js.replaceRuns false s).
Proof. intros Hc. cbn [Js.replaceRuns]. now rewrite Hc. Qed.

Example slug_of_label : Blog.slug "Web  Dev	Tips" = "web-dev-tips".
Proof. reflexivity. Qed.

Lemma render_data (append : bool) (s : Blog.BlogSystem) :
  Blog.postsPerPage (Blog.render append s) = Blog.postsPerPage s
  /\ Blog.isPreview (Blog.render append s) = Blog.isPreview s
  /\ Blog.previewCount (Blog.render append s) = Blog.previewCount s
  /\ Blog.posts (Blog.render append s) = Blog.posts s
  /\ Blog.filteredPosts (Blog.render append s) = Blog.filteredPosts s
  /\ Blog.currentFilter (Blog.render append s) = Blog.currentFilter s
  /\ Blog.currentPage (Blog.render append s) = Blog.currentPage s
  /\ Blog.loadMoreBtn (Blog.dom (Blog.render append s))
     = Blog.loadMoreBtn (Blog.dom s).
Proof.
  destruct s as [pp pv pc ps fs cf cp [[kids|] lm btn]];
    unfold Blog.render; cbn [Blog.dom Blog.container]; [|tauto].
  cbn [Blog.isPreview Blog.previewCount Blog.currentPage Blog.postsPerPage
       Blog.filteredPosts].
  destruct (take _ fs) as [|p shown]; [cbn; tauto|].
  unfold Blog.updateLoadMoreButton, Blog.setContainer, Blog.setLoadMore.
  cbn [Blog.dom Blog.loadMore Blog.isPreview Blog.filteredPosts
       Blog.container Blog.loadMoreBtn Blog.postsPerPage Blog.previewCount
       Blog.posts Blog.currentFilter Blog.currentPage].
  destruct lm; [|cbn; tauto].
  destruct pv; [cbn; tauto|].
  destruct (_ <=? _)%nat; cbn; tauto.
Qed.

Lemma matchesFilter_Matches (filter : string) (post : Post) :
  Blog.matchesFilter filter post = true <-> Matches filter post.
Proof.
  unfold Blog.matchesFilter, Matches.
  rewrite orb_true_iff, String.eqb_eq, existsb_exists, Exists_exists.
  split; (intros [H|(tag & Hin & Htag)]; [now left|right; exists tag]).
  - apply String.eqb_eq in Htag. split; [now apply list_elem_of_In|done].
  - split; [now apply list_elem_of_In|now apply String.eqb_eq].
Qed.

Lemma filter_matchesFilter (filter : string) (ps : list Post) :
  List.filter (Blog.matchesFilter filter) ps = base.filter (Matches filter) ps.
Proof.
  induction ps as [|p ps IH]; [reflexivity|].
  cbn [List.filter]. rewrite filter_cons, IH.
  destruct (decide (Matches filter p)) as [Hm|Hm];
    destruct (Blog.matchesFilter filter p) eqn:Hb; try reflexivity.
  - apply matchesFilter_Matches in Hm. congruence.
  - apply matchesFilter_Matches in Hb. contradiction.
Qed.

Lemma setFilter_fields (filter : string) (s : Blog.BlogSystem) :
  Blog.currentPage (Blog.setFilter filter s) = 1
  /\ Blog.posts (Blog.setFilter filter s) = Blog.posts s
  /\ Blog.filteredPosts (Blog.setFilter filter s)
     = (if String.eqb filter "all" then Blog.posts s
        else List.filter (Blog.matchesFilter filter) (Blog.posts s))
  /\ Blog.postsPerPage (Blog.setFilter filter s) = Blog.postsPerPage s
  /\ Blog.isPreview (Blog.setFilter filter s) = Blog.isPreview s
  /\ Blog.previewCount (Blog.setFilter filter s) = Blog.previewCount s
  /\ Blog.loadMoreBtn (Blog.dom (Blog.setFilter filter s))
     = Blog.loadMoreBtn (Blog.dom s).
Proof.
  unfold Blog.setFilter.
  destruct (render_data false
              (Blog.setFilterState filter
                 (if String.eqb filter "all" then Blog.posts s
                  else List.filter (Blog.matchesFilter filter) (Blog.posts s))
                 s)) as (-> & -> & -> & -> & -> & _ & -> & ->).
  cbn. tauto.
Qed.

Lemma toLowerChar_lowerCased (c : ascii) : Js.toLowerChar c = lowerCased c.
Proof. destruct c as [[] [] [] [] [] [] [] []]; reflexivity. Qed.

Lemma isWhiteSpace_chars (c : ascii) :
  Js.isWhiteSpace c = true <-> In c whiteSpaceChars.
Proof.
  split.
  - destruct c as [[] [] [] [] [] [] [] []]; cbn; intros H;
      try discriminate H; intuition reflexivity.
  - cbn. intros [<-|[<-|[<-|[<-|[<-|[<-|[]]]]]]]; reflexivity.
Qed.

Lemma isWhiteSpace_not_chars (c : ascii) :
  Js.isWhiteSpace c = false <-> ~ In c whiteSpaceChars.
Proof.
  rewrite <- isWhiteSpace_chars. destruct (Js.isWhiteSpace c); split;
    congruence.
Qed.

Lemma toLowerChar_whiteSpace (c : ascii) :
  Js.isWhiteSpace (Js.toLowerChar c) = Js.isWhiteSpace c.
Proof. destruct c as [[] [] [] [] [] [] [] []]; reflexivity. Qed.

Lemma toLowerChar_of_whiteSpace (c : ascii) :
  Js.isWhiteSpace c = true -> Js.toLowerChar c = c.
Proof.
  destruct c as [[] [] [] [] [] [] [] []]; cbn; intros H;
    try discriminate H; reflexivity.
Qed.

Lemma toLowerCase_app (a b : string) :
  Js.toLowerCase (a +:+ b) = Js.toLowerCase a +:+ Js.toLowerCase b.
Proof.
  induction a as [|c a IH]; [reflexivity|].
  change (String c a +:+ b) with (String c (a +:+ b)).
  cbn [Js.toLowerCase]. rewrite IH. reflexivity.
Qed.

Lemma toLowerCase_run (run : string) :
  (forall c, In c (list_ascii_of_string run) -> In c whiteSpaceChars) ->
  Js.toLowerCase run = run.
Proof.
  induction run as [|c run IH]; [reflexivity|]. intros Hrun.
  cbn [Js.toLowerCase]. rewrite toLowerChar_of_whiteSpace, IH; [reflexivity| |].
  - intros d Hd. apply Hrun. now right.
  - apply isWhiteSpace_chars, Hrun. now left.
Qed.

(** After the hyphen of a run, text that does not go on with white
    space is read as from its start. *)
Lemma replaceRuns_resume (rest : string) :
  noWhiteSpaceAhead rest ->
  Js.replaceRuns true (Js.toLowerCase rest)
  = Js.replaceRuns false (Js.toLowerCase rest).
Proof.
  destruct rest as [|c rest]; [reflexivity|]. cbn [noWhiteSpaceAhead].
  intros Hc. apply isWhiteSpace_not_chars in Hc.
  cbn [Js.toLowerCase Js.replaceRuns].
  now rewrite toLowerChar_whiteSpace, Hc.
Qed.

(** The slug that the code computes is the slug of the label. *)
Lemma SlugOf_slug (label out : string) :
  SlugOf label out -> out = Blog.slug label.
Proof.
  unfold Blog.slug, Js.replaceWhiteSpace.
  induction 1 as [|c rest out Hascii Hc _ IH|run rest out Hne Hrun Hahead _ IH].
  - reflexivity.
  - apply isWhiteSpace_not_chars in Hc.
    cbn [Js.toLowerCase Js.replaceRuns].
    now rewrite toLowerChar_whiteSpace, Hc, <- toLowerChar_lowerCased, <- IH.
  - rewrite toLowerCase_app, (toLowerCase_run run Hrun).
    destruct (replaceRuns_run run (Js.toLowerCase rest) Hne) as [-> _].
    + intros c Hc. now apply isWhiteSpace_chars, Hrun.
    + now rewrite (replaceRuns_resume rest Hahead), <- IH.
Qed.

Lemma SlugOf_ascii (label out : string) : SlugOf label out -> asciiText label.
Proof.
  unfold asciiText.
  induction 1 as [|c rest out Hascii Hc _ IH|run rest out Hne Hrun Hahead _ IH].
  - reflexivity.
  - cbn [allChars]. now rewrite Hascii, IH.
  - clear Hne. induction run as [|c run IHrun]; [exact IH|].
    change (String c run +:+ rest) with (String c (run +:+ rest)).
    cbn [allChars]. rewrite IHrun by (intros d Hd; apply Hrun; now right).
    assert (Hc : In c whiteSpaceChars) by (apply Hrun; now left).
    cbn in Hc. destruct Hc as [<-|[<-|[<-|[<-|[<-|[<-|[]]]]]]]; reflexivity.
Qed.

Lemma append_last (run : string) (c : ascii) (rest : string) :
  (run +:+ String c "") +:+ rest = run +:+ String c rest.
Proof.
  induction run as [|x run IH]; [reflexivity|].
  change ((String x run +:+ String c "") +:+ rest)
    with (String x ((run +:+ String c "") +:+ rest)).
  now rewrite IH.
Qed.

Lemma In_append_last (run : string) (c d : ascii) :
  In d (list_ascii_of_string (run +:+ String c "")) ->
  In d (list_ascii_of_string run) \/ d = c.
Proof.
  induction run as [|x run IH].
  - intros [<-|[]]. now right.
  - change (String x run +:+ String c "") with (String x (run +:+ String c "")).
    cbn. intros [<-|H]; [left; now left|]. destruct (IH H); auto.
Qed.

(** Every ASCII label has its slug, and the code computes it. *)
Lemma slug_SlugOf (label : string) :
  asciiText label ->
  SlugOf label (Blog.slug label)
  /\ forall run, run <> "" ->
       (forall c, In c (list_ascii_of_string run) -> In c whiteSpaceChars) ->
       SlugOf (run +:+ label)
              (String "-" (Js.replaceRuns true (Js.toLowerCase label))).
Proof.
  unfold asciiText, Blog.slug, Js.replaceWhiteSpace.
  induction label as [|c label IH]; intros Hascii.
  - split; [constructor|]. intros run Hne Hrun.
    now apply (slug_run run "" ""); [| |exact I|constructor].
  - cbn [allChars] in Hascii. apply andb_true_iff in Hascii.
    destruct Hascii as [Hc Hrest]. destruct (IH Hrest) as [IHa IHb].
    cbn [Js.toLowerCase Js.replaceRuns]. rewrite toLowerChar_whiteSpace.
    destruct (Js.isWhiteSpace c) eqn:Hw.
    + assert (Hin : In c whiteSpaceChars) by now apply isWhiteSpace_chars.
      split.
      * apply (IHb (String c "")); [discriminate|].
        intros d [<-|[]]. exact Hin.
      * intros run Hne Hrun.
        rewrite <- (append_last run c label).
        apply IHb.
        -- destruct run; discriminate.
        -- intros d Hd. destruct (In_append_last run c d Hd) as [Hd'| ->];
             auto.
    + assert (Hnot : ~ In c whiteSpaceChars) by now apply isWhiteSpace_not_chars.
      assert (Hthis : SlugOf (String c label)
                             (String (Js.toLowerChar c)
                                (Js.replaceRuns false (Js.toLowerCase label))))
        by (rewrite toLowerChar_lowerCased; now constructor).
      split; [exact Hthis|]. intros run Hne Hrun.
      now apply (slug_run run (String c label)).
Qed.

Lemma SlugOf_iff (label out : string) :
  asciiText label -> (SlugOf label out <-> Blog.slug label = out).
Proof.
  intros Hascii. split.
  - intros H. symmetry. now apply SlugOf_slug.
  - intros <-. now apply slug_SlugOf.
Qed.

Lemma matchesFilter_MatchesSlug (filter : string) (post : Post) :
  asciiLabels post ->
  (Blog.matchesFilter filter post = true <-> MatchesSlug filter post).
Proof.
  intros [Hcat Htags]. rewrite matchesFilter_Matches.
  unfold Matches, MatchesSlug. rewrite (SlugOf_iff _ filter Hcat).
  rewrite !Exists_exists. split; (intros [H|(tag & Hin & Htag)]; [now left|]);
    right; exists tag; (split; [assumption|]);
    rewrite Forall_forall in Htags; apply (SlugOf_iff tag filter (Htags tag Hin));
    assumption.
Qed.

Lemma filter_Selection (filter : string) (ps : list Post) :
  Forall asciiLabels ps ->
  Selection (MatchesSlug filter) ps (List.filter (Blog.matchesFilter filter) ps).
Proof.
  induction 1 as [|p ps Hp _ IH]; [constructor|]. cbn [List.filter].
  destruct (Blog.matchesFilter filter p) eqn:Hm.
  - apply selection_keep; [|exact IH]. now apply matchesFilter_MatchesSlug.
  - apply selection_drop; [|exact IH]. intros HM.
    apply (matchesFilter_MatchesSlug filter p Hp) in HM. congruence.
Qed.

(** C2: [setFilter] resets the page to 1 and keeps the posts;
    [setFilter "all"] makes [filteredPosts] the whole list in its order;
    [setFilter f] for another [f], on posts with ASCII labels, makes it
    exactly the subsequence of the posts whose category, in lower case
    and with every run of white space replaced by one hyphen, is [f], or
    one of whose tags so normalised is [f], in their order. *)
Theorem setFilter_selects_matching_posts (filter : string)
        (s : Blog.BlogSystem) :
  Forall asciiLabels (Blog.posts s) ->
  Blog.currentPage (Blog.setFilter filter s) = 1
  /\ Blog.posts (Blog.setFilter filter s) = Blog.posts s
  /\ (filter = "all" ->
      Blog.filteredPosts (Blog.setFilter filter s) = Blog.posts s)
  /\ (filter <> "all" ->
      Selection (MatchesSlug filter) (Blog.posts s)
                (Blog.filteredPosts (Blog.setFilter filter s))).
Proof.
  intros Hascii.
  destruct (setFilter_fields filter s) as (Hpage & Hposts & Hfiltered & _).
  split; [assumption|]. split; [assumption|]. rewrite Hfiltered. split.
  - intros ->. reflexivity.
  - intros Hne. apply String.eqb_neq in Hne. rewrite Hne.
    now apply filter_Selection.
Qed.

Lemma setFilter_selects_matching_posts_witness :
  let s := Blog.loadPosts (fetched labelledPosts) blankBlog in
  Forall asciiLabels (Blog.posts s)
  /\ map id (Blog.filteredPosts (Blog.setFilter "web-dev" s)) = ["1"; "2"; "3"; "4"]
  /\ Selection (MatchesSlug "web-dev") (Blog.posts s)
               (Blog.filteredPosts (Blog.setFilter "web-dev" s))
  /\ Blog.filteredPosts (Blog.setFilter "all" s) = Blog.posts s.
Proof.
  cbv zeta.
  assert (Hascii : Forall asciiLabels
                     (Blog.posts (Blog.loadPosts (fetched labelledPosts)
                                                 blankBlog)))
    by (vm_compute; repeat constructor).
  split; [exact Hascii|]. split; [reflexivity|].
  destruct (setFilter_selects_matching_posts "web-dev" _ Hascii)
    as (_ & _ & _ & Hsel).
  destruct (setFilter_selects_matching_posts "all" _ Hascii)
    as (_ & _ & Hall & _).
  split; [apply Hsel; discriminate | now apply Hall].
Defined.

(** The same selection, said without [filter]: an order-preserving
    sublist that holds exactly the matching posts. *)
Lemma setFilter_sublist (filter : string) (s : Blog.BlogSystem) :
  filter <> "all" ->
  sublist (Blog.filteredPosts (Blog.setFilter filter s)) (Blog.posts s)
  /\ forall p, p ∈ Blog.filteredPosts (Blog.setFilter filter s)
               <-> p ∈ Blog.posts s /\ Matches filter p.
Proof.
  intros Hne.
  destruct (setFilter_fields filter s) as (_ & _ & -> & _).
  apply String.eqb_neq in Hne. rewrite Hne, filter_matchesFilter.
  split; [apply sublist_filter|]. intros p. rewrite list_elem_of_filter. tauto.
Qed.

(** ** The visible window and the load-more control (C1) *)

Lemma newCards_fresh (boundary index : nat) (shown : list Post) :
  Blog.newCards false boundary index shown = map Blog.Card shown.
Proof.
  revert index. induction shown as [|p shown IH]; intros index; cbn;
    [reflexivity|]. now rewrite IH.
Qed.

Lemma newCards_append (boundary index : nat) (shown : list Post) :
  Blog.newCards true boundary index shown
  = map Blog.Card (drop (boundary - index) shown).
Proof.
  revert index.
  induction shown as [|p shown IH]; intros index; cbn [Blog.newCards andb].
  - now rewrite drop_nil.
  - destruct (Nat.ltb_spec index boundary) as [Hlt|Hge].
    + rewrite IH. replace (boundary - index) with (S (boundary - S index))
        by lia. reflexivity.
    + rewrite IH. replace (boundary - index) with 0 by lia.
      replace (boundary - S index) with 0 by lia. reflexivity.
Qed.

Lemma render_dom (append : bool) (s : Blog.BlogSystem) (kids : list Blog.Node) :
  Blog.container (Blog.dom s) = Some kids ->
  Blog.dom (Blog.render append s)
  = match take (endIndexOf s) (Blog.filteredPosts s) with
    | [] => Blog.mkPage (Some [Blog.EmptyState]) (Blog.loadMore (Blog.dom s))
                        (Blog.loadMoreBtn (Blog.dom s))
    | p :: shown =>
        Blog.mkPage
          (Some ((if append then kids else [])
                 ++ Blog.newCards append
                      ((Blog.currentPage s - 1) * Blog.postsPerPage s) 0
                      (p :: shown)))
          (controlAfter s) (Blog.loadMoreBtn (Blog.dom s))
    end.
Proof.
  destruct s as [pp pv pc ps fs cf cp [c lm btn]]. cbn. intros ->.
  unfold Blog.render, endIndexOf, controlAfter.
  cbn [Blog.dom Blog.container Blog.isPreview Blog.previewCount
       Blog.currentPage Blog.postsPerPage Blog.filteredPosts Blog.loadMore
       Blog.loadMoreBtn].
  destruct (take _ fs) as [|p shown]; [reflexivity|].
  unfold Blog.updateLoadMoreButton, Blog.setContainer, Blog.setLoadMore.
  cbn [Blog.dom Blog.container Blog.isPreview Blog.previewCount
       Blog.currentPage Blog.postsPerPage Blog.filteredPosts Blog.loadMore
       Blog.loadMoreBtn].
  destruct lm as [d|]; [|reflexivity].
  destruct pv; [reflexivity|].
  destruct (_ <=? _)%nat; reflexivity.
Qed.

Lemma loadMoreClick_data (s : Blog.BlogSystem) (kids : list Blog.Node) :
  Blog.container (Blog.dom s) = Some kids ->
  Blog.loadMoreBtn (Blog.dom s) = true ->
  Blog.postsPerPage (Blog.loadMoreClick s) = Blog.postsPerPage s
  /\ Blog.isPreview (Blog.loadMoreClick s) = Blog.isPreview s
  /\ Blog.previewCount (Blog.loadMoreClick s) = Blog.previewCount s
  /\ Blog.filteredPosts (Blog.loadMoreClick s) = Blog.filteredPosts s
  /\ Blog.currentPage (Blog.loadMoreClick s) = S (Blog.currentPage s)
  /\ Blog.loadMoreBtn (Blog.dom (Blog.loadMoreClick s)) = true.
Proof.
  intros Hkids Hbtn. unfold Blog.loadMoreClick. rewrite Hkids, Hbtn.
  destruct (render_data true (Blog.nextPage s))
    as (-> & -> & -> & _ & -> & _ & -> & ->).
  cbn. tauto.
Qed.

Lemma gridOf_cards (s : Blog.BlogSystem) (shown : list Post) :
  Blog.container (Blog.dom s) = Some (gridOf shown) -> Blog.cards s = shown.
Proof.
  unfold Blog.cards. intros ->. destruct shown as [|p shown]; [reflexivity|].
  unfold gridOf. generalize (p :: shown). intros l.
  induction l as [|q l IH]; [reflexivity|]. cbn. now rewrite IH.
Qed.

Lemma take_page_step (A : Type) (l : list A) (w w' : nat) :
  w <= w' -> take w l ++ drop w (take w' l) = take w' l.
Proof.
  intros Hle. rewrite <- (take_drop w (take w' l)) at 2.
  rewrite take_take. now replace (w `min` w') with w by lia.
Qed.

Lemma take_nil_le (A : Type) (l : list A) (w w' : nat) :
  w <= w' -> take w' l = [] -> take w l = [].
Proof.
  intros Hle Hnil. rewrite <- (Nat.min_l w w' Hle), <- take_take, Hnil.
  apply take_nil.
Qed.

Lemma setFilter_window (filter : string) (s : Blog.BlogSystem)
      (kids : list Blog.Node) (d0 : Blog.Display) :
  Blog.container (Blog.dom s) = Some kids ->
  Blog.loadMore (Blog.dom s) = Some d0 ->
  Blog.isPreview s = false ->
  Blog.dom (Blog.setFilter filter s)
  = Blog.mkPage
      (Some (gridOf (take (1 * Blog.postsPerPage s)
                          (Blog.filteredPosts (Blog.setFilter filter s)))))
      (Some (controlOf d0 (Blog.filteredPosts (Blog.setFilter filter s))
                       (1 * Blog.postsPerPage s)))
      (Blog.loadMoreBtn (Blog.dom s)).
Proof.
  intros Hkids Hctl Hpre.
  destruct (setFilter_fields filter s) as (_ & _ & -> & _).
  unfold Blog.setFilter.
  set (fs := if String.eqb filter "all" then Blog.posts s
             else List.filter (Blog.matchesFilter filter) (Blog.posts s)).
  rewrite (render_dom false (Blog.setFilterState filter fs s) kids Hkids).
  unfold controlAfter, controlOf, endIndexOf.
  cbn [Blog.setFilterState Blog.isPreview Blog.currentPage Blog.postsPerPage
       Blog.filteredPosts Blog.dom].
  rewrite Hctl, Hpre.
  destruct (take (1 * Blog.postsPerPage s) fs) as [|p shown];
    [reflexivity|].
  now rewrite newCards_fresh.
Qed.

Lemma loadMoreClick_window (s : Blog.BlogSystem) (d0 : Blog.Display) :
  1 <= Blog.currentPage s ->
  Blog.container (Blog.dom s)
  = Some (gridOf (take (Blog.currentPage s * Blog.postsPerPage s)
                       (Blog.filteredPosts s))) ->
  Blog.loadMore (Blog.dom s)
  = Some (controlOf d0 (Blog.filteredPosts s)
                    (Blog.currentPage s * Blog.postsPerPage s)) ->
  Blog.isPreview s = false ->
  Blog.loadMoreBtn (Blog.dom s) = true ->
  Blog.dom (Blog.loadMoreClick s)
  = Blog.mkPage
      (Some (gridOf (take (S (Blog.currentPage s) * Blog.postsPerPage s)
                          (Blog.filteredPosts s))))
      (Some (controlOf d0 (Blog.filteredPosts s)
                       (S (Blog.currentPage s) * Blog.postsPerPage s)))
      true.
Proof.
  intros Hpage Hkids Hctl Hpre Hbtn.
  unfold Blog.loadMoreClick. rewrite Hkids, Hbtn.
  rewrite (render_dom true (Blog.nextPage s) _ Hkids).
  unfold controlAfter, endIndexOf.
  cbn [Blog.nextPage Blog.isPreview Blog.currentPage Blog.postsPerPage
       Blog.filteredPosts Blog.dom].
  rewrite Hctl, Hpre, Hbtn, Nat.sub_succ, Nat.sub_0_r.
  set (fs := Blog.filteredPosts s).
  set (w0 := Blog.currentPage s * Blog.postsPerPage s).
  set (w := S (Blog.currentPage s) * Blog.postsPerPage s).
  assert (Hle : w0 <= w) by (subst w w0; lia).
  unfold controlOf at 2. fold w.
  destruct (take w fs) as [|p shown] eqn:Hshown.
  - unfold controlOf. now rewrite (take_nil_le _ fs w0 w Hle Hshown).
  - f_equal. f_equal.
    change (gridOf (p :: shown)) with (map Blog.Card (p :: shown)).
    rewrite newCards_append, Nat.sub_0_r.
    destruct (take w0 fs) as [|q old] eqn:Hold.
    + exfalso. assert (Hfs : fs <> []) by (intros E; now rewrite E, take_nil in Hshown).
      destruct fs as [|x fs']; [done|].
      destruct w0 as [|k] eqn:Hw0; [|discriminate].
      assert (Blog.postsPerPage s = 0) by (subst w0; nia).
      subst w. rewrite H in Hshown. rewrite Nat.mul_0_r in Hshown. discriminate.
    + change (gridOf (q :: old)) with (map Blog.Card (q :: old)).
      rewrite <- Hold, <- Hshown, <- map_app. f_equal.
      now apply take_page_step.
Qed.

(** After a filter click and [n] load-more clicks on a listing that is
    not a preview: the page counter, the container and the control. *)
Lemma afterClicks_window (n : nat) (filter : string) (s : Blog.BlogSystem)
      (kids : list Blog.Node) (d0 : Blog.Display) :
  Blog.container (Blog.dom s) = Some kids ->
  Blog.loadMore (Blog.dom s) = Some d0 ->
  Blog.isPreview s = false ->
  Blog.loadMoreBtn (Blog.dom s) = true ->
  Blog.currentPage (afterClicks n filter s) = S n
  /\ Blog.postsPerPage (afterClicks n filter s) = Blog.postsPerPage s
  /\ Blog.isPreview (afterClicks n filter s) = false
  /\ Blog.filteredPosts (afterClicks n filter s)
     = Blog.filteredPosts (Blog.setFilter filter s)
  /\ Blog.dom (afterClicks n filter s)
     = Blog.mkPage
         (Some (gridOf (take (S n * Blog.postsPerPage s)
                             (Blog.filteredPosts (Blog.setFilter filter s)))))
         (Some (controlOf d0 (Blog.filteredPosts (Blog.setFilter filter s))
                          (S n * Blog.postsPerPage s)))
         true.
Proof.
  intros Hkids Hctl Hpre Hbtn.
  induction n as [|n (Hpage & Hpp & Hpv & Hfs & Hdom)].
  - destruct (setFilter_fields filter s) as (Hp & _ & _ & Hpp & Hpv & _ & Hb).
    change (afterClicks 0 filter s) with (Blog.setFilter filter s).
    rewrite (setFilter_window filter s kids d0 Hkids Hctl Hpre), Hbtn.
    rewrite Hpv. tauto.
  - change (afterClicks (S n) filter s)
      with (Blog.loadMoreClick (afterClicks n filter s)).
    set (t := afterClicks n filter s) in *.
    assert (Hb : Blog.loadMoreBtn (Blog.dom t) = true) by now rewrite Hdom.
    assert (Hk : Blog.container (Blog.dom t)
                 = Some (gridOf (take (S n * Blog.postsPerPage s)
                                      (Blog.filteredPosts
                                         (Blog.setFilter filter s)))))
      by now rewrite Hdom.
    destruct (loadMoreClick_data t _ Hk Hb)
      as (Hpp' & Hpv' & _ & Hfs' & Hpage' & _).
    rewrite Hpage', Hpp', Hpv', Hfs', Hpage, Hpp, Hfs.
    repeat (split; [reflexivity || assumption|]).
    rewrite (loadMoreClick_window t d0); rewrite ?Hpage, ?Hpp, ?Hfs, ?Hdom;
      try reflexivity; try assumption; lia.
Qed.

(** The rendered cards are the clamped prefix of the filtered list. *)
Lemma afterClicks_cards (n : nat) (filter : string) (s : Blog.BlogSystem)
      (kids : list Blog.Node) (d0 : Blog.Display) :
  Blog.container (Blog.dom s) = Some kids ->
  Blog.loadMore (Blog.dom s) = Some d0 ->
  Blog.isPreview s = false ->
  Blog.loadMoreBtn (Blog.dom s) = true ->
  Blog.cards (afterClicks n filter s)
  = take (S n * Blog.postsPerPage s)
         (Blog.filteredPosts (Blog.setFilter filter s)).
Proof.
  intros Hkids Hctl Hpre Hbtn.
  destruct (afterClicks_window n filter s kids d0 Hkids Hctl Hpre Hbtn)
    as (_ & _ & _ & _ & Hdom).
  apply gridOf_cards. now rewrite Hdom.
Qed.

(** With at least one card rendered, the control is hidden exactly when
    the window covers the filtered list. *)
Lemma afterClicks_control (n : nat) (filter : string) (s : Blog.BlogSystem)
      (kids : list Blog.Node) (d0 : Blog.Display) :
  Blog.container (Blog.dom s) = Some kids ->
  Blog.loadMore (Blog.dom s) = Some d0 ->
  Blog.isPreview s = false ->
  Blog.loadMoreBtn (Blog.dom s) = true ->
  Blog.cards (afterClicks n filter s) <> [] ->
  (Blog.loadMore (Blog.dom (afterClicks n filter s)) = Some Blog.DisplayNone
   <-> length (Blog.filteredPosts (Blog.setFilter filter s))
       <= S n * Blog.postsPerPage s)
  /\ (Blog.loadMore (Blog.dom (afterClicks n filter s))
      = Some Blog.DisplayBlock
      <-> S n * Blog.postsPerPage s
          < length (Blog.filteredPosts (Blog.setFilter filter s))).
Proof.
  intros Hkids Hctl Hpre Hbtn Hne.
  rewrite (afterClicks_cards n filter s kids d0) in Hne by assumption.
  destruct (afterClicks_window n filter s kids d0 Hkids Hctl Hpre Hbtn)
    as (_ & _ & _ & _ & ->).
  cbn [Blog.loadMore]. unfold controlOf.
  destruct (take _ _) as [|p shown]; [done|].
  destruct (Nat.leb_spec
              (length (Blog.filteredPosts (Blog.setFilter filter s)))
              (S n * Blog.postsPerPage s)); split; split;
    intros; try discriminate; try reflexivity; lia.
Qed.

(** With no card to render, [render] returns before it reaches
    [updateLoadMoreButton]: the control keeps what it showed. *)
Lemma afterClicks_control_empty (n : nat) (filter : string)
      (s : Blog.BlogSystem) (kids : list Blog.Node) (d0 : Blog.Display) :
  Blog.container (Blog.dom s) = Some kids ->
  Blog.loadMore (Blog.dom s) = Some d0 ->
  Blog.isPreview s = false ->
  Blog.loadMoreBtn (Blog.dom s) = true ->
  Blog.filteredPosts (Blog.setFilter filter s) = [] ->
  Blog.loadMore (Blog.dom (afterClicks n filter s)) = Some d0.
Proof.
  intros Hkids Hctl Hpre Hbtn Hnil.
  destruct (afterClicks_window n filter s kids d0 Hkids Hctl Hpre Hbtn)
    as (_ & _ & _ & _ & ->).
  cbn [Blog.loadMore]. unfold controlOf. now rewrite Hnil, take_nil.
Qed.

(** C1, the code at a failing input: ten posts of one category on a page
    of nine.  The first render shows nine cards and the control; a filter
    without a match then empties the list, nine covers its length 0, and
    the control is still displayed. *)
Theorem loadMore_still_shown_on_empty_filter :
  let s0 := Blog.create noOptions listingPage (fetched tenPosts) in
  let s := afterClicks 0 "video" s0 in
  Blog.isPreview s = false
  /\ length (Blog.cards s0) = 9
  /\ Blog.loadMore (Blog.dom s0) = Some Blog.DisplayBlock
  /\ Blog.filteredPosts s = []
  /\ Blog.cards s = []
  /\ length (Blog.filteredPosts s) <= 1 * Blog.postsPerPage s
  /\ Blog.loadMore (Blog.dom s) = Some Blog.DisplayBlock.
Proof. vm_compute. repeat split; lia. Qed.

(** Preview mode: no operation of the instance writes to the control. *)
Lemma preview_render_control (append : bool) (s : Blog.BlogSystem) :
  Blog.isPreview s = true ->
  Blog.loadMore (Blog.dom (Blog.render append s)) = Blog.loadMore (Blog.dom s).
Proof.
  intros Hpre. destruct (Blog.container (Blog.dom s)) as [kids|] eqn:Hkids.
  - rewrite (render_dom append s kids Hkids).
    unfold controlAfter. rewrite Hpre.
    destruct (take _ _); [reflexivity|]. cbn.
    now destruct (Blog.loadMore (Blog.dom s)).
  - unfold Blog.render. now rewrite Hkids.
Qed.

Lemma preview_afterClicks_control (n : nat) (filter : string)
      (s : Blog.BlogSystem) :
  Blog.isPreview s = true ->
  Blog.isPreview (afterClicks n filter s) = true
  /\ Blog.loadMore (Blog.dom (afterClicks n filter s))
     = Blog.loadMore (Blog.dom s).
Proof.
  intros Hpre. induction n as [|n [IHp IHc]].
  - change (afterClicks 0 filter s) with (Blog.setFilter filter s).
    destruct (setFilter_fields filter s) as (_ & _ & _ & _ & -> & _).
    split; [assumption|]. unfold Blog.setFilter.
    now rewrite preview_render_control.
  - change (afterClicks (S n) filter s)
      with (Blog.loadMoreClick (afterClicks n filter s)).
    unfold Blog.loadMoreClick.
    destruct (Blog.container _); [|now split].
    destruct (Blog.loadMoreBtn _); [|now split].
    destruct (render_data true (Blog.nextPage (afterClicks n filter s)))
      as (_ & -> & _).
    split; [assumption|]. now rewrite preview_render_control.
Qed.

(** Preview mode: a render that does not append shows the first
    [previewCount] posts of the filtered list, clamped to its length. *)
Lemma preview_setFilter_cards (filter : string) (s : Blog.BlogSystem)
      (kids : list Blog.Node) :
  Blog.container (Blog.dom s) = Some kids ->
  Blog.isPreview s = true ->
  Blog.cards (Blog.setFilter filter s)
  = take (Blog.previewCount s) (Blog.filteredPosts (Blog.setFilter filter s))
  /\ length (Blog.cards (Blog.setFilter filter s))
     = Blog.previewCount s
         `min` length (Blog.filteredPosts (Blog.setFilter filter s)).
Proof.
  intros Hkids Hpre.
  assert (Hcards :
    Blog.cards (Blog.setFilter filter s)
    = take (Blog.previewCount s)
           (Blog.filteredPosts (Blog.setFilter filter s))).
  { destruct (setFilter_fields filter s) as (_ & _ & -> & _).
    apply gridOf_cards. unfold Blog.setFilter.
    set (fs := if String.eqb filter "all" then Blog.posts s
               else List.filter (Blog.matchesFilter filter) (Blog.posts s)).
    rewrite (render_dom false (Blog.setFilterState filter fs s) kids Hkids).
    unfold endIndexOf.
    cbn [Blog.setFilterState Blog.isPreview Blog.previewCount
         Blog.filteredPosts].
    rewrite Hpre. destruct (take _ fs) as [|p shown]; [reflexivity|].
    cbn [Blog.container]. now rewrite newCards_fresh. }
  split; [exact Hcards|]. rewrite Hcards. apply length_take.
Qed.

(** Preview mode with the page size at least the preview count, as the
    home page has it: should the load-more button exist and be clicked,
    the click adds no card. *)
Lemma preview_click_adds_nothing (s : Blog.BlogSystem) :
  Blog.isPreview s = true ->
  Blog.container (Blog.dom s)
  = Some (gridOf (take (Blog.previewCount s) (Blog.filteredPosts s))) ->
  Blog.previewCount s <= Blog.currentPage s * Blog.postsPerPage s ->
  Blog.container (Blog.dom (Blog.loadMoreClick s))
  = Some (gridOf (take (Blog.previewCount s) (Blog.filteredPosts s))).
Proof.
  intros Hpre Hkids Hle. unfold Blog.loadMoreClick. rewrite Hkids.
  destruct (Blog.loadMoreBtn (Blog.dom s)); [|assumption].
  rewrite (render_dom true (Blog.nextPage s) _ Hkids).
  unfold endIndexOf.
  cbn [Blog.nextPage Blog.isPreview Blog.previewCount Blog.currentPage
       Blog.postsPerPage Blog.filteredPosts].
  rewrite Hpre, Nat.sub_succ, Nat.sub_0_r.
  destruct (take (Blog.previewCount s) (Blog.filteredPosts s))
    as [|p shown] eqn:Hshown; [reflexivity|].
  cbn [Blog.container]. rewrite newCards_append, Nat.sub_0_r.
  rewrite drop_ge, app_nil_r; [reflexivity|].
  rewrite <- Hshown, length_take. lia.
Qed.

(** ** Failures while loading (C3) *)

(** On a fresh instance nothing is loaded, so [render] shows the empty
    state whatever [loadPosts] left in the container. *)
Lemma render_nothing_loaded (s : Blog.BlogSystem) (kids : list Blog.Node) :
  Blog.container (Blog.dom s) = Some kids ->
  Blog.filteredPosts s = [] ->
  Blog.container (Blog.dom (Blog.render false s)) = Some [Blog.EmptyState].
Proof.
  intros Hkids Hnil. rewrite (render_dom false s kids Hkids), Hnil.
  now rewrite take_nil.
Qed.

(** C3, the code at the failing inputs: [fetchJSON] swallows a rejected
    fetch, a response that is not ok and a body that is not JSON, and
    hands [null] to [loadPosts]; nothing is thrown there, [showError] is
    not reached, and [init] goes on to render the empty state. *)
Theorem fetch_failure_renders_empty_state
        (options : Blog.Options) (kids : list Blog.Node)
        (lm : option Blog.Display) (btn : bool) (status : Z) :
  let page := Blog.mkPage (Some kids) lm btn in
  Blog.container (Blog.dom (Blog.create options page FetchRejected))
  = Some [Blog.EmptyState]
  /\ Blog.container (Blog.dom (Blog.create options page (FetchNotOk status)))
     = Some [Blog.EmptyState]
  /\ Blog.container (Blog.dom (Blog.create options page FetchBadJson))
     = Some [Blog.EmptyState].
Proof.
  cbv zeta. unfold Blog.create, Blog.init, Blog.loadPosts, Utils.fetchJSON.
  cbn [Blog.container].
  repeat split; eapply render_nothing_loaded; reflexivity.
Qed.

(** The one path that does reach [showError], a [posts] member that is
    not an array: the error state is written and then overwritten by the
    [render] call that ends [init]. *)
Lemma showError_overwritten
      (options : Blog.Options) (kids : list Blog.Node)
      (lm : option Blog.Display) (btn : bool) :
  let page := Blog.mkPage (Some kids) lm btn in
  let o := FetchJson (DocObject PostsNotArray) in
  Blog.container
    (Blog.dom (Blog.loadPosts o
                 (Blog.showLoading
                    (Blog.mkBlog 9 false 3 [] [] "all" 1 page))))
  = Some [Blog.ErrorState "Fehler beim Laden der Blog-Beiträge."]
  /\ Blog.container (Blog.dom (Blog.create options page o))
     = Some [Blog.EmptyState].
Proof.
  cbv zeta. split; [reflexivity|].
  unfold Blog.create, Blog.init. cbn [Blog.container].
  eapply render_nothing_loaded; reflexivity.
Qed.

(** ** Escaping (C5) *)

Lemma escapeHtml_no_angle_bracket (text : string) (c : ascii) :
  In c (list_ascii_of_string (Utils.escapeHtml text)) ->
  c <> "<"%char /\ c <> ">"%char.
Proof.
  induction text as [|a text IH]; cbn [Utils.escapeHtml]; [intros []|].
  unfold Utils.escapeChar.
  destruct (Ascii.eqb_spec a "&"); [|destruct (Ascii.eqb_spec a "<");
    [|destruct (Ascii.eqb_spec a ">")]]; cbn;
    intros H; repeat (destruct H as [<-|H]; [split; discriminate|]);
    try (now apply IH).
  destruct H as [<-|H]; [now split|now apply IH].
Qed.

(** The detail view escapes every text field it interpolates. *)
Lemma detail_markup_escaped (formatDate : option Z -> string) (post : Post) :
  textEscaped (SinglePost.headerHtml formatDate post)
  /\ textEscaped (SinglePost.featuredHtmlOf post)
  /\ textEscaped (SinglePost.contentHtml post)
  /\ textEscaped (SinglePost.tagsHtml post).
Proof.
  unfold textEscaped. repeat split; intros f value Hin.
  - cbn in Hin. repeat (destruct Hin as [Heq|Hin]; [now inversion Heq|]).
    destruct Hin.
  - cbn in Hin. repeat (destruct Hin as [Heq|Hin]; [now inversion Heq|]).
    destruct Hin.
  - unfold SinglePost.contentHtml in Hin. destruct (Js.truthy _); cbn in Hin;
      repeat (destruct Hin as [Heq|Hin]; [now inversion Heq|]); destruct Hin.
  - unfold SinglePost.tagsHtml in Hin. apply in_flat_map in Hin.
    destruct Hin as (tag & _ & Hin). cbn in Hin.
    repeat (destruct Hin as [Heq|Hin]; [now inversion Heq|]). destruct Hin.
Qed.

(** So does the card of a post that has an image. *)
Lemma card_with_image_escaped (formatDate : option Z -> string) (post : Post) :
  Js.truthy (image post) = true ->
  textEscaped (Blog.createPostCard formatDate post).
Proof.
  intros Himg f value Hin. unfold Blog.createPostCard, Blog.imageHtml in Hin.
  rewrite Himg in Hin. rewrite !in_app_iff in Hin.
  destruct Hin as [Hin|[Hin|[Hin|[Hin|Hin]]]];
    try (cbn in Hin;
         repeat (destruct Hin as [Heq|Hin]; [now inversion Heq|]);
         now destruct Hin).
  apply in_flat_map in Hin. destruct Hin as (tag & _ & Hin). cbn in Hin.
  repeat (destruct Hin as [Heq|Hin]; [now inversion Heq|]). destruct Hin.
Qed.

(** The card of a post without an image carries the first character of
    the category as it is. *)
Lemma card_placeholder_raw (formatDate : option Z -> string) (post : Post) :
  Js.truthy (image post) = false ->
  In (Markup.Raw Markup.FCategory (Js.charAt0 (category post)))
     (Blog.createPostCard formatDate post).
Proof.
  intros Himg. unfold Blog.createPostCard, Blog.imageHtml. rewrite Himg.
  rewrite !in_app_iff. right. left. cbn. tauto.
Qed.

(** C5, the code at a failing input: a post without an image whose
    category is [<b>HTML</b>].  The category label is escaped, the
    placeholder letter taken from the same field is the bare [<]. *)
Theorem card_placeholder_not_escaped (formatDate : option Z -> string) :
  In (Markup.Esc Markup.FCategory "<b>HTML</b>")
     (Blog.createPostCard formatDate bracketPost)
  /\ In (Markup.Raw Markup.FCategory "<")
        (Blog.createPostCard formatDate bracketPost)
  /\ Markup.toHtml (Blog.imageHtml bracketPost)
     = "<div " +:+ Markup.attr "class" "image-placeholder"
       +:+ "><span><</span></div>"
  /\ Utils.escapeHtml "<" = "&lt;"
  /\ ~ textEscaped (Blog.createPostCard formatDate bracketPost).
Proof.
  assert (Hraw : In (Markup.Raw Markup.FCategory "<")
                    (Blog.createPostCard formatDate bracketPost))
    by (apply (card_placeholder_raw formatDate bracketPost); reflexivity).
  split; [cbn; tauto|]. split; [exact Hraw|].
  split; [reflexivity|]. split; [reflexivity|].
  intros Hall. specialize (Hall _ _ Hraw). discriminate.
Qed.

(** ** The detail view: a post that is not found (C6) *)

Lemma find_no_match (postId : string) (ps : list Post) :
  Forall (fun p => id p <> postId) ps ->
  List.find (fun post => String.eqb (id post) postId) ps = None.
Proof.
  induction 1 as [|p ps Hp _ IH]; [reflexivity|]. cbn.
  apply String.eqb_neq in Hp. now rewrite Hp.
Qed.

Lemma showError_shows (message : string) (doc : SinglePost.Document)
      (html : list Markup.Piece) :
  SinglePost.postContainer (SinglePost.body doc) = Some html ->
  SinglePost.postContainer (SinglePost.body (SinglePost.showError message doc))
  = Some (SinglePost.errorState message)
  /\ SinglePost.meta (SinglePost.showError message doc) = SinglePost.meta doc
  /\ SinglePost.nav (SinglePost.showError message doc) = SinglePost.nav doc.
Proof.
  intros Hc. unfold SinglePost.showError, SinglePost.setPostContainer.
  rewrite Hc. repeat split.
Qed.

Lemma showLoading_keeps (doc : SinglePost.Document)
      (html : list Markup.Piece) :
  SinglePost.postContainer (SinglePost.body doc) = Some html ->
  (exists html', SinglePost.postContainer
                   (SinglePost.body (SinglePost.showLoading doc)) = Some html')
  /\ SinglePost.meta (SinglePost.showLoading doc) = SinglePost.meta doc
  /\ SinglePost.nav (SinglePost.showLoading doc) = SinglePost.nav doc.
Proof.
  intros Hc. unfold SinglePost.showLoading, SinglePost.setPostContainer.
  rewrite Hc. cbn. eauto.
Qed.

Lemma errorState_html (postId : option string) :
  Markup.toHtml (SinglePost.errorState (notFoundMessage postId))
  = errorWithBackLink (notFoundMessage postId).
Proof.
  unfold notFoundMessage. destruct (Js.truthy postId); reflexivity.
Qed.

(** C6: when the query string has no identifier, or no record of the
    fetched set has the requested one, the post container shows the
    not-found message ("Kein Beitrag angegeben." without an identifier,
    "Beitrag nicht gefunden." without a match) in a paragraph, followed
    by the link to [blog.html], and the document title, the meta
    description, the Open Graph tags and the navigation links are as
    they were. *)
Theorem init_not_found_keeps_metadata
        (formatDate : option Z -> string) (postId : option string)
        (o1 o2 : FetchOutcome) (doc : SinglePost.Document)
        (html : list Markup.Piece) :
  SinglePost.postContainer (SinglePost.body doc) = Some html ->
  notFound postId o1 ->
  let doc' := SinglePost.create formatDate postId o1 o2 doc in
  (exists shown,
      SinglePost.postContainer (SinglePost.body doc') = Some shown
      /\ Markup.toHtml shown = errorWithBackLink (notFoundMessage postId))
  /\ SinglePost.meta doc' = SinglePost.meta doc
  /\ SinglePost.nav doc' = SinglePost.nav doc.
Proof.
  intros Hc Hnf. cbv zeta.
  enough (H : SinglePost.postContainer
                (SinglePost.body
                   (SinglePost.create formatDate postId o1 o2 doc))
              = Some (SinglePost.errorState (notFoundMessage postId))
              /\ SinglePost.meta
                   (SinglePost.create formatDate postId o1 o2 doc)
                 = SinglePost.meta doc
              /\ SinglePost.nav
                   (SinglePost.create formatDate postId o1 o2 doc)
                 = SinglePost.nav doc).
  { destruct H as (Hshown & Hmeta & Hnav).
    split; [|now split]. eexists. split; [exact Hshown|].
    apply errorState_html. }
  unfold SinglePost.create. rewrite Hc.
  unfold SinglePost.init, notFoundMessage.
  destruct postId as [[|c rest]|]; cbn [Js.truthy];
    try (now apply (showError_shows _ doc html)).
  destruct Hnf as [Hfalse|(i & ps & Hi & -> & Hall)]; [discriminate|].
  inversion Hi; subst i.
  unfold SinglePost.loadPost. cbn [Utils.fetchJSON].
  rewrite (find_no_match _ ps Hall).
  destruct (showLoading_keeps doc html Hc) as ((html' & Hc') & Hm & Hn).
  destruct (showError_shows "Beitrag nicht gefunden."
              (SinglePost.showLoading doc) html' Hc') as (-> & -> & ->).
  now rewrite Hm, Hn.
Qed.

Lemma init_not_found_keeps_metadata_witness :
  let doc' := SinglePost.create germanDate (Some "42") (fetched tenPosts)
                                (fetched tenPosts) detailPage in
  SinglePost.postContainer (SinglePost.body detailPage) = Some []
  /\ notFound (Some "42") (fetched tenPosts)
  /\ (exists shown,
         SinglePost.postContainer (SinglePost.body doc') = Some shown
         /\ Markup.toHtml shown
            = errorWithBackLink "Beitrag nicht gefunden.")
  /\ SinglePost.meta doc' = SinglePost.meta detailPage.
Proof.
  cbv zeta.
  assert (Hnf : notFound (Some "42") (fetched tenPosts)).
  { right. exists "42", tenPosts. repeat split.
    repeat constructor; discriminate. }
  split; [reflexivity|]. split; [exact Hnf|].
  destruct (init_not_found_keeps_metadata germanDate (Some "42")
              (fetched tenPosts) (fetched tenPosts) detailPage []
              eq_refl Hnf) as (Hshown & Hmeta & _).
  split; [exact Hshown | exact Hmeta].
Defined.

(** A failed fetch ends in the same error state. *)
Lemma init_fetch_failed (formatDate : option Z -> string)
      (c : ascii) (rest : string) (o2 : FetchOutcome)
      (doc : SinglePost.Document) (html : list Markup.Piece) :
  SinglePost.postContainer (SinglePost.body doc) = Some html ->
  let doc' := SinglePost.init formatDate (Some (String c rest))
                              FetchRejected o2 doc in
  SinglePost.postContainer (SinglePost.body doc')
  = Some (SinglePost.errorState "Beitrag nicht gefunden.")
  /\ SinglePost.meta doc' = SinglePost.meta doc.
Proof.
  intros Hc. cbv zeta. unfold SinglePost.init, SinglePost.loadPost.
  cbn [Utils.fetchJSON].
  destruct (showLoading_keeps doc html Hc) as ((html' & Hc') & Hm & Hn).
  destruct (showError_shows "Beitrag nicht gefunden."
              (SinglePost.showLoading doc) html' Hc') as (-> & -> & _).
  now rewrite Hm.
Qed.

(** ** The detail view: navigation (C7) *)

Lemma findIndexFrom_unique (start : Z) (l : list Post) (i : nat) (cur : Post) :
  NoDup (map id l) -> l !! i = Some cur ->
  Js.findIndexFrom (fun p => String.eqb (id p) (id cur)) start l
  = (start + Z.of_nat i)%Z.
Proof.
  revert start i. induction l as [|x l IH]; intros start i Hnd Hi;
    [discriminate|].
  cbn [map] in Hnd. apply NoDup_cons in Hnd. destruct Hnd as [Hx Hnd].
  destruct i as [|i]; cbn in Hi |- *.
  - inversion Hi; subst x. rewrite String.eqb_refl. lia.
  - destruct (String.eqb_spec (id x) (id cur)) as [Heq|Hne].
    + exfalso. apply Hx. rewrite Heq. apply list_elem_of_fmap.
      exists cur. split; [reflexivity|]. eapply list_elem_of_lookup_2; eauto.
    + rewrite (IH (start + 1)%Z i Hnd Hi). lia.
Qed.

Lemma at_succ (l : list Post) (i : nat) :
  Js.at_ l (Z.of_nat i + 1)%Z = l !! S i.
Proof.
  unfold Js.at_. destruct (Z.ltb_spec (Z.of_nat i + 1) 0); [lia|].
  f_equal. lia.
Qed.

Lemma at_pred (l : list Post) (i : nat) :
  Js.at_ l (Z.of_nat i - 1)%Z = newerOf l i.
Proof.
  unfold Js.at_, newerOf. destruct i as [|k].
  - reflexivity.
  - destruct (Z.ltb_spec (Z.of_nat (S k) - 1) 0); [lia|]. f_equal. lia.
Qed.

Lemma setLink_leadsTo (arrowLeft : bool) (target : option Post)
      (l : SinglePost.Link) :
  exists l', SinglePost.setLink arrowLeft target (Some l) = Some l'
             /\ leadsTo l l' target.
Proof.
  destruct target as [p|]; cbn; eexists; (split; [reflexivity|]); cbn; auto.
Qed.

Lemma setupNavigation_links (ps : list Post) (i : nat) (cur : Post)
      (doc : SinglePost.Document) :
  NoDup (map id ps) ->
  Blog.sortPosts ps !! i = Some cur ->
  SinglePost.nav (SinglePost.setupNavigation cur (fetched ps) doc)
  = SinglePost.mkNav
      (SinglePost.setLink true (olderOf (Blog.sortPosts ps) i)
                          (SinglePost.navPrev (SinglePost.nav doc)))
      (SinglePost.setLink false (newerOf (Blog.sortPosts ps) i)
                          (SinglePost.navNext (SinglePost.nav doc))).
Proof.
  intros Hnd Hi. unfold SinglePost.setupNavigation, fetched.
  cbn [Utils.fetchJSON SinglePost.nav]. unfold Js.findIndex.
  assert (Hnd' : NoDup (map id (Blog.sortPosts ps))).
  { pose proof (Permutation_map id (sortPosts_perm ps)) as Hperm.
    now rewrite <- Hperm. }
  rewrite (findIndexFrom_unique 0 _ i cur Hnd' Hi).
  rewrite Z.add_0_l, at_succ, at_pred. reflexivity.
Qed.

Lemma laterFirst_tail (a : Post) (l : list Post) :
  laterFirst (a :: l) -> laterFirst l.
Proof.
  intros H i j x y tx ty Hi Hj Hx Hy Hlt.
  specialize (H (S i) (S j) x y tx ty Hi Hj Hx Hy Hlt). lia.
Qed.

Lemma laterFirst_descending (l : list Post) :
  Forall parseable l -> laterFirst l -> descending timeOf l.
Proof.
  unfold descending. induction 1 as [|a l Ha Hl IH]; intros Hlater;
    [constructor|].
  constructor; [apply IH; now apply (laterFirst_tail a)|].
  apply List.Forall_forall. intros b Hb.
  apply list_elem_of_In, list_elem_of_lookup in Hb. destruct Hb as [j Hj].
  destruct (Z.le_gt_cases (timeOf b) (timeOf a)) as [Hle|Hgt]; [exact Hle|].
  exfalso.
  assert (Hpb : parseable b).
  { rewrite Forall_forall in Hl. apply Hl. eapply list_elem_of_lookup_2; eauto. }
  unfold parseable, timeOf in *.
  destruct (date a) as [ta|] eqn:Hda; [|contradiction].
  destruct (date b) as [tb|] eqn:Hdb; [|contradiction]. cbn in Hgt.
  specialize (Hlater (S j) 0 b a tb ta Hj eq_refl Hdb Hda ltac:(lia)). lia.
Qed.

Lemma descending_head (key : Post -> Z) (a : Post) (l : list Post) (x : Post) :
  descending key (a :: l) -> In x (a :: l) -> (key x <= key a)%Z.
Proof.
  unfold descending. intros H [<-|Hx]; [lia|].
  apply StronglySorted_inv in H. destruct H as [_ Hall].
  rewrite List.Forall_forall in Hall. now apply Hall.
Qed.

(** A list has one stable descending order. *)
Lemma stable_descending_unique (key : Post -> Z) (l1 l2 : list Post) :
  Permutation l1 l2 ->
  (forall t, List.filter (fun p => (key p =? t)%Z) l1
             = List.filter (fun p => (key p =? t)%Z) l2) ->
  descending key l1 -> descending key l2 -> l1 = l2.
Proof.
  revert l2. induction l1 as [|a l1 IH]; intros l2 Hperm Hties H1 H2.
  - apply Permutation_nil in Hperm. now subst.
  - destruct l2 as [|b l2];
      [apply Permutation_sym, Permutation_nil in Hperm; discriminate|].
    assert (Hab : key a = key b).
    { assert (Ha : In a (b :: l2))
        by (eapply Permutation_in; [exact Hperm|now left]).
      assert (Hb : In b (a :: l1))
        by (eapply Permutation_in; [apply Permutation_sym, Hperm|now left]).
      pose proof (descending_head key b l2 a H2 Ha).
      pose proof (descending_head key a l1 b H1 Hb). lia. }
    assert (Heq : a = b).
    { specialize (Hties (key a)). cbn [List.filter] in Hties.
      rewrite <- Hab, Z.eqb_refl in Hties. now inversion Hties. }
    subst b. f_equal. apply IH.
    + eapply Permutation_cons_inv. exact Hperm.
    + intros t. specialize (Hties t). cbn [List.filter] in Hties.
      destruct (key a =? t)%Z; [now inversion Hties|assumption].
    + unfold descending in *. now apply StronglySorted_inv in H1.
    + unfold descending in *. now apply StronglySorted_inv in H2.
Qed.

(** With dates that parse, the feed sorted by date, descending, is the
    list that the code's [sort] call leaves. *)
Lemma sortedByDateDesc_sortPosts (ps sorted : list Post) :
  Forall parseable ps -> sortedByDateDesc ps sorted ->
  sorted = Blog.sortPosts ps.
Proof.
  intros Hok (Hperm & Hlater & Hties).
  assert (Hsorted : Forall parseable sorted) by now rewrite <- Hperm.
  apply (stable_descending_unique timeOf).
  - rewrite <- Hperm. apply sortPosts_perm.
  - intros t.
    rewrite <- !datedAt_timeOf by (assumption || now apply sortPosts_parseable).
    rewrite (Hties t). symmetry. now apply sortPosts_tiesInOrder.
  - now apply laterFirst_descending.
  - apply laterFirst_descending;
      [now apply sortPosts_parseable|now apply sortPosts_laterFirst].
Qed.

Lemma descending_noneBetween (ps sorted : list Post) (i : nat)
      (older newer : Post) :
  Permutation ps sorted -> descending timeOf sorted ->
  sorted !! i = Some newer -> sorted !! S i = Some older ->
  (timeOf older <= timeOf newer)%Z /\ noneBetween ps older newer.
Proof.
  intros Hperm Hdesc Hn Ho. split.
  - apply (descending_lookup timeOf _ i (S i) newer older Hdesc Hn Ho). lia.
  - intros q Hq [Hlo Hhi].
    assert (Hin : In q sorted) by (eapply Permutation_in; eauto).
    apply list_elem_of_In, list_elem_of_lookup in Hin. destruct Hin as [j Hj].
    destruct (Nat.le_gt_cases j i) as [Hle|Hgt].
    + destruct (Nat.eq_dec j i) as [->|Hne]; [rewrite Hn in Hj; inversion Hj; subst; lia|].
      pose proof (descending_lookup timeOf _ j i q newer Hdesc Hj Hn
                    ltac:(lia)). lia.
    + destruct (Nat.eq_dec j (S i)) as [->|Hne];
        [rewrite Ho in Hj; inversion Hj; subst; lia|].
      pose proof (descending_lookup timeOf _ (S i) j older q Hdesc Ho Hj
                    ltac:(lia)). lia.
Qed.

(** C7: let the dates of the post set parse and its identifiers be
    unique, let [sorted] be the set sorted by date, descending (of two
    posts with distinct dates the later one first, posts of one date in
    feed order), and let the current post stand at position [i] of it.
    Then the previous link leads to the post at [i + 1], which is not
    newer than the current one and has no post of the set strictly
    between, and the next link leads to the post at [i - 1], which is
    not older and has none between either; at the oldest and at the
    newest post the link is hidden and nothing wraps around. *)
Theorem setupNavigation_adjacent (ps sorted : list Post) (i : nat)
        (cur : Post) (doc : SinglePost.Document)
        (prev next : SinglePost.Link) :
  NoDup (map id ps) ->
  Forall parseable ps ->
  sortedByDateDesc ps sorted ->
  sorted !! i = Some cur ->
  SinglePost.navPrev (SinglePost.nav doc) = Some prev ->
  SinglePost.navNext (SinglePost.nav doc) = Some next ->
  exists prev' next',
    SinglePost.nav (SinglePost.setupNavigation cur (fetched ps) doc)
    = SinglePost.mkNav (Some prev') (Some next')
    /\ leadsTo prev prev' (olderOf sorted i)
    /\ leadsTo next next' (newerOf sorted i)
    /\ (forall older, olderOf sorted i = Some older ->
          (timeOf older <= timeOf cur)%Z /\ noneBetween ps older cur)
    /\ (forall newer, newerOf sorted i = Some newer ->
          (timeOf cur <= timeOf newer)%Z /\ noneBetween ps cur newer)
    /\ (i = 0 -> SinglePost.hidden next' = true)
    /\ (S i = length ps -> SinglePost.hidden prev' = true).
Proof.
  intros Hnd Hok Hsorted Hi Hprev Hnext.
  pose proof Hsorted as (Hperm & Hlater & _).
  assert (Hdesc : descending timeOf sorted)
    by (apply laterFirst_descending; [now rewrite <- Hperm|assumption]).
  pose proof (sortedByDateDesc_sortPosts ps sorted Hok Hsorted) as Hcode.
  assert (Hi' : Blog.sortPosts ps !! i = Some cur) by now rewrite <- Hcode.
  rewrite (setupNavigation_links ps i cur doc Hnd Hi'), Hprev, Hnext, <- Hcode.
  destruct (setLink_leadsTo true (olderOf sorted i) prev)
    as (prev' & -> & Hp).
  destruct (setLink_leadsTo false (newerOf sorted i) next)
    as (next' & -> & Hn).
  exists prev', next'. split; [reflexivity|].
  split; [exact Hp|]. split; [exact Hn|]. split; [|split; [|split]].
  - intros older Ho. unfold olderOf in Ho.
    now apply (descending_noneBetween ps sorted i).
  - intros newer Hnew. destruct i as [|k]; [discriminate|]. cbn in Hnew.
    now apply (descending_noneBetween ps sorted k).
  - intros ->. exact Hn.
  - intros Hlast. unfold olderOf in Hp.
    rewrite lookup_ge_None_2 in Hp; [exact Hp|].
    rewrite <- (Permutation_length Hperm). lia.
Qed.

Lemma setupNavigation_adjacent_witness :
  let sorted := [samplePost "d" "News" [] (Some 40%Z);
                 samplePost "c" "News" [] (Some 30%Z);
                 samplePost "b" "News" [] (Some 20%Z);
                 samplePost "a" "News" [] (Some 10%Z)] in
  NoDup (map id shuffledFeed)
  /\ Forall parseable shuffledFeed
  /\ sortedByDateDesc shuffledFeed sorted
  /\ exists prev' next',
       SinglePost.nav
         (SinglePost.setupNavigation
            (samplePost "c" "News" [] (Some 30%Z))
            (fetched shuffledFeed) detailPage)
       = SinglePost.mkNav (Some prev') (Some next')
       /\ SinglePost.href prev' = "blog-post.html?id=b"
       /\ SinglePost.href next' = "blog-post.html?id=d".
Proof.
  cbv zeta.
  assert (Hnd : NoDup (map id shuffledFeed)).
  { apply NoDup_ListNoDup. vm_compute.
    repeat (constructor; [cbn; intuition discriminate|]). constructor. }
  assert (Hok : Forall parseable shuffledFeed)
    by (repeat constructor; discriminate).
  assert (Hsorted : sortedByDateDesc shuffledFeed
                      [samplePost "d" "News" [] (Some 40%Z);
                       samplePost "c" "News" [] (Some 30%Z);
                       samplePost "b" "News" [] (Some 20%Z);
                       samplePost "a" "News" [] (Some 10%Z)]).
  { split; [|split].
    - unfold shuffledFeed.
      etransitivity; [apply perm_swap|]. apply perm_skip.
      etransitivity; [apply perm_skip, perm_swap|]. apply perm_swap.
    - intros i j a b ta tb Hi Hj Ha Hb Hlt.
      destruct i as [|[|[|[|i]]]]; try discriminate Hi;
        inversion Hi; subst a; inversion Ha; subst ta;
        destruct j as [|[|[|[|j]]]]; try discriminate Hj;
        inversion Hj; subst b; inversion Hb; subst tb; lia.
    - intros t. unfold shuffledFeed, datedAt. cbn [List.filter date samplePost].
      destruct (Z.eqb_spec 40 t), (Z.eqb_spec 30 t), (Z.eqb_spec 20 t),
        (Z.eqb_spec 10 t); try reflexivity; lia. }
  split; [exact Hnd|]. split; [exact Hok|]. split; [exact Hsorted|].
  destruct (setupNavigation_adjacent shuffledFeed _ 1
              (samplePost "c" "News" [] (Some 30%Z)) detailPage
              (SinglePost.mkLink "#" "prev" false)
              (SinglePost.mkLink "#" "next" false)
              Hnd Hok Hsorted eq_refl eq_refl eq_refl)
    as (prev' & next' & Hnav & Hp & Hn & _).
  exists prev', next'. split; [exact Hnav|].
  split; [exact (proj1 Hp) | exact (proj1 Hn)].
Defined.

(** With dates that parse, the two neighbours are the chronological
    ones: the post behind the current one is not newer, the post before
    it is not older. *)
Lemma navigation_chronological (ps : list Post) (i : nat) (cur : Post) :
  Forall parseable ps ->
  Blog.sortPosts ps !! i = Some cur ->
  (forall older, olderOf (Blog.sortPosts ps) i = Some older ->
                 (timeOf older <= timeOf cur)%Z)
  /\ (forall newer, newerOf (Blog.sortPosts ps) i = Some newer ->
                    (timeOf cur <= timeOf newer)%Z).
Proof.
  intros Hok Hi.
  pose proof (sort_descending Blog.byDateDesc timeOf parseable
                byDateDesc_key ps Hok) as Hdesc.
  split.
  - intros older Ho.
    apply (descending_lookup timeOf _ i (S i) cur older Hdesc Hi Ho). lia.
  - intros newer Hn. destruct i as [|k]; [discriminate|].
    apply (descending_lookup timeOf _ k (S k) newer cur Hdesc Hn Hi). lia.
Qed.

(** ** The starfield loader: completion happens once (C9) *)

Lemma takeOut_count (cb x : Starfield.Callback)
      (l rest : list Starfield.Callback) :
  Starfield.takeOut cb l = Some rest ->
  count_occ Starfield.Callback_eq_dec l x
  = count_occ Starfield.Callback_eq_dec rest x
    + (if decide (cb = x) then 1 else 0).
Proof.
  revert rest. induction l as [|y l IH]; intros rest; cbn; [discriminate|].
  destruct (decide (y = cb)) as [->|Hne].
  - intros [= <-]. destruct (Starfield.Callback_eq_dec cb x);
      destruct (decide (cb = x)); try contradiction; lia.
  - destruct (Starfield.takeOut cb l) as [r|]; [|discriminate].
    intros [= <-]. cbn. rewrite (IH r eq_refl).
    destruct (Starfield.Callback_eq_dec y x); lia.
Qed.

Lemma count_schedule (cb x : Starfield.Callback) (l : list Starfield.Callback) :
  count_occ Starfield.Callback_eq_dec (l ++ [cb]) x
  = count_occ Starfield.Callback_eq_dec l x + (if decide (cb = x) then 1 else 0).
Proof.
  rewrite count_occ_app. cbn.
  destruct (Starfield.Callback_eq_dec cb x), (decide (cb = x));
    try contradiction; lia.
Qed.

Lemma count_cancelFrame (l : list Starfield.Callback) :
  count_occ Starfield.Callback_eq_dec
    (List.filter (fun cb => negb (Starfield.isFrame cb)) l)
    Starfield.FadeOut
  = count_occ Starfield.Callback_eq_dec l Starfield.FadeOut.
Proof.
  induction l as [|y l IH]; [reflexivity|].
  destruct y; cbn; rewrite ?IH; reflexivity.
Qed.

(** A write that went through is accepted again: the flag replaces
    itself. *)
Lemma setItem_limits (key text : string) (st st' : LocalStorage.t) :
  LocalStorage.setItem key text st = Some st' -> sameLimits st' st.
Proof.
  unfold LocalStorage.setItem, sameLimits.
  destruct (LocalStorage.denied st); [discriminate|].
  destruct (_ <? _)%nat; [discriminate|]. intros [= <-]. now split.
Qed.

Lemma acceptsFlag_limits (a b : LocalStorage.t) :
  sameLimits a b -> acceptsFlag a -> acceptsFlag b.
Proof.
  unfold sameLimits, acceptsFlag, LocalStorage.setItem. intros [<- <-].
  destruct (LocalStorage.denied a); [tauto|].
  destruct (_ <? _)%nat; [tauto|]. discriminate.
Qed.

Lemma sameLimits_sym (a b : LocalStorage.t) : sameLimits a b -> sameLimits b a.
Proof. unfold sameLimits. intros [-> ->]. now split. Qed.

Lemma sameLimits_trans (a b c : LocalStorage.t) :
  sameLimits a b -> sameLimits b c -> sameLimits a c.
Proof. unfold sameLimits. intros [-> ->] [-> ->]. now split. Qed.

Lemma setItem_marks (st st' : LocalStorage.t) :
  LocalStorage.setItem "loaderShown" "true" st = Some st' ->
  sessionMarked st' /\ acceptsFlag st'.
Proof.
  intros Hset. split.
  - revert Hset. unfold LocalStorage.setItem, sessionMarked, LocalStorage.getItem.
    destruct (LocalStorage.denied st) eqn:Hd; [discriminate|].
    destruct (_ <? _)%nat; [discriminate|]. intros [= <-]. cbn. rewrite ?Hd.
    now rewrite lookup_insert_eq.
  - apply (acceptsFlag_limits st); [apply sameLimits_sym; eauto using setItem_limits|].
    unfold acceptsFlag. now rewrite Hset.
Qed.

Ltac loader_fields s :=
  destruct s as [c k r o a p sh li aw pe fr co re di].

(** The two counters of [loaderInv]. *)
Lemma complete_counts (s : Starfield.Loader) :
  Starfield.completions s = (if Starfield.isComplete s then 1 else 0) ->
  pendingFades s + Starfield.dispatched s <= Starfield.completions s ->
  (Starfield.isComplete s = true -> loaderInv s) ->
  loaderInv (Starfield.complete s).
Proof.
  unfold Starfield.complete.
  destruct (Starfield.isComplete s) eqn:Hc; [auto|].
  intros Hco Hle _. unfold loaderInv, pendingFades, Starfield.markSession in *.
  loader_fields s. cbn in *. subst c co.
  destruct (LocalStorage.setItem _ _ sh) as [st|]; cbn.
  - rewrite count_schedule, count_cancelFrame, decide_True by reflexivity.
    split; [reflexivity|]. split; [lia|discriminate].
  - split; [reflexivity|]. split; [lia|discriminate].
Qed.

Lemma complete_inv (s : Starfield.Loader) :
  loaderInv s -> loaderInv (Starfield.complete s).
Proof.
  intros Hinv. pose proof Hinv as (Hco & Hle & _).
  now apply complete_counts.
Qed.

Lemma skip_inv (s : Starfield.Loader) :
  loaderInv s -> loaderInv (Starfield.skip s).
Proof.
  intros Hinv. unfold Starfield.skip.
  destruct (Starfield.isComplete s || Starfield.isSkipped s) eqn:Hflags;
    [assumption|].
  apply orb_false_iff in Hflags. destruct Hflags as [Hc Hk].
  destruct Hinv as (Hco & Hle & _).
  unfold Starfield.markSession. cbn [Starfield.session Starfield.set_isSkipped].
  destruct (LocalStorage.setItem _ _ (Starfield.session s)) as [st|] eqn:Hset.
  - apply complete_counts.
    + now loader_fields s.
    + revert Hle. unfold pendingFades. now loader_fields s.
    + loader_fields s. cbn in *. congruence.
  - revert Hco Hle Hc Hset. unfold loaderInv, pendingFades, acceptsFlag.
    loader_fields s. cbn. intros -> Hle -> Hset.
    split; [reflexivity|]. split; [assumption|]. intros _ _ Hacc. contradiction.
Qed.

Lemma run_inv (cb : Starfield.Callback) (s : Starfield.Loader)
      (rest : list Starfield.Callback) :
  loaderInv s -> Starfield.takeOut cb (Starfield.pending s) = Some rest ->
  loaderInv (Starfield.run cb (Starfield.set_pending rest s)).
Proof.
  intros Hinv Htake.
  pose proof (takeOut_count cb Starfield.FadeOut _ _ Htake) as Hcount.
  assert (Hrest : loaderInv (Starfield.set_pending rest s)
                  /\ (cb = Starfield.FadeOut ->
                      S (pendingFades (Starfield.set_pending rest s))
                      + Starfield.dispatched s <= Starfield.completions s)).
  { revert Hinv Hcount. unfold loaderInv, pendingFades.
    loader_fields s. cbn.
    intros (Hco & Hle & Hk) Hcount. rewrite Hcount in Hle.
    split; [split; [assumption|split; [lia|assumption]]|].
    intros ->. rewrite decide_True in Hle by reflexivity. lia. }
  destruct Hrest as [Hinv' Hfade]. clear Hinv Htake Hcount.
  destruct cb; cbn [Starfield.run].
  - destruct (negb _ && negb _); [now apply complete_inv|assumption].
  - destruct (negb _ && negb _); [now apply complete_inv|assumption].
  - specialize (Hfade eq_refl). revert Hinv' Hfade.
    unfold loaderInv, pendingFades.
    loader_fields s. cbn.
    intros (Hco & Hle & Hk) Hfade.
    rewrite count_schedule, decide_False by discriminate.
    split; [assumption|split; [lia|assumption]].
  - revert Hinv'. unfold loaderInv, pendingFades.
    loader_fields s. cbn. tauto.
  - revert Hinv'. unfold loaderInv, pendingFades, Starfield.animateStarfield.
    loader_fields s. cbn.
    destruct c; cbn; [tauto|].
    rewrite count_schedule, decide_False by discriminate.
    intros (Hco & Hle & Hk). split; [assumption|split; [lia|assumption]].
  - revert Hinv'. unfold loaderInv, pendingFades.
    loader_fields s. cbn. tauto.
Qed.

Lemma onResourcesLoaded_inv (s : Starfield.Loader) :
  loaderInv s -> loaderInv (Starfield.onResourcesLoaded s).
Proof.
  unfold loaderInv, pendingFades, Starfield.onResourcesLoaded.
  loader_fields s. cbn.
  rewrite count_schedule, decide_False by discriminate.
  intros (Hco & Hle & Hk).
  split; [assumption|split; [lia|assumption]].
Qed.

Lemma fire_inv (e : Starfield.Env) (ev : Starfield.Event)
      (s : Starfield.Loader) :
  loaderInv s -> loaderInv (Starfield.fire e ev s).
Proof.
  intros Hinv. destruct ev as [|key| |cb]; cbn [Starfield.fire].
  - destruct (_ && _); [now apply skip_inv|assumption].
  - destruct (_ && _); [now apply skip_inv|assumption].
  - destruct (Starfield.awaitingLoad s);
      [now apply onResourcesLoaded_inv|assumption].
  - destruct (Starfield.takeOut cb (Starfield.pending s)) as [rest|] eqn:Ht;
      [now apply (run_inv cb s rest)|assumption].
Qed.

Ltac loader_env e :=
  destruct e as [ov ca sk pr se sp rm rc];
  unfold Starfield.init, Starfield.shouldSkip;
  cbn [Starfield.overlayPresent Starfield.sessionStorage Starfield.skipParam
       Starfield.reducedMotion negb];
  destruct ov; cbn [negb];
  [destruct (LocalStorage.getItem "loaderShown" se) as [skipData|];
   [destruct (Js.truthy skipData);
    [|destruct sp; [|destruct rm, ca, pr, rc]]|]|].

Lemma init_inv (e : Starfield.Env) : loaderInv (Starfield.init e).
Proof.
  unfold loaderInv, pendingFades. loader_env e; cbn;
    (split; [reflexivity|split; [lia|discriminate]]).
Qed.

Lemma runEvents_inv (e : Starfield.Env) (evs : list Starfield.Event)
      (s : Starfield.Loader) :
  loaderInv s -> loaderInv (Starfield.runEvents e evs s).
Proof.
  revert s. induction evs as [|ev evs IH]; intros s Hinv; [assumption|].
  cbn. apply IH. now apply fire_inv.
Qed.

(** The loader's writes leave the store with the limits it had. *)
Lemma complete_limits (s : Starfield.Loader) :
  sameLimits (Starfield.session (Starfield.complete s)) (Starfield.session s).
Proof.
  unfold Starfield.complete, Starfield.markSession.
  destruct (Starfield.isComplete s); [now split|].
  cbn [Starfield.session Starfield.set_completions Starfield.set_isComplete].
  destruct (LocalStorage.setItem _ _ (Starfield.session s)) as [st|] eqn:Hset.
  - loader_fields s. cbn in *. eauto using setItem_limits.
  - loader_fields s. now split.
Qed.

Lemma skip_limits (s : Starfield.Loader) :
  sameLimits (Starfield.session (Starfield.skip s)) (Starfield.session s).
Proof.
  unfold Starfield.skip, Starfield.markSession.
  destruct (_ || _); [now split|].
  cbn [Starfield.session Starfield.set_isSkipped].
  destruct (LocalStorage.setItem _ _ (Starfield.session s)) as [st|] eqn:Hset.
  - eapply sameLimits_trans; [apply complete_limits|].
    loader_fields s. cbn in *. eauto using setItem_limits.
  - loader_fields s. now split.
Qed.

Lemma fire_limits (e : Starfield.Env) (ev : Starfield.Event)
      (s : Starfield.Loader) :
  sameLimits (Starfield.session (Starfield.fire e ev s)) (Starfield.session s).
Proof.
  destruct ev as [|key| |cb]; cbn [Starfield.fire].
  - destruct (_ && _); [apply skip_limits|now split].
  - destruct (_ && _); [apply skip_limits|now split].
  - destruct (Starfield.awaitingLoad s); [|now split]. loader_fields s.
    now split.
  - destruct (Starfield.takeOut cb (Starfield.pending s)) as [rest|];
      [|now split].
    destruct cb; cbn [Starfield.run];
      try (loader_fields s; now split).
    + destruct (negb _ && negb _); [|loader_fields s; now split].
      eapply sameLimits_trans; [apply complete_limits|].
      loader_fields s. now split.
    + destruct (negb _ && negb _); [|loader_fields s; now split].
      eapply sameLimits_trans; [apply complete_limits|].
      loader_fields s. now split.
    + unfold Starfield.animateStarfield. loader_fields s. cbn.
      destruct c; now split.
Qed.

Lemma runEvents_limits (e : Starfield.Env) (evs : list Starfield.Event)
      (s : Starfield.Loader) :
  sameLimits (Starfield.session (Starfield.runEvents e evs s))
             (Starfield.session s).
Proof.
  revert s. induction evs as [|ev evs IH]; intros s; [now split|].
  cbn. eapply sameLimits_trans; [apply IH|apply fire_limits].
Qed.

Lemma init_limits (e : Starfield.Env) :
  Starfield.session (Starfield.init e) = Starfield.sessionStorage e.
Proof. loader_env e; reflexivity. Qed.

Lemma complete_noop (s : Starfield.Loader) :
  Starfield.isComplete s = true -> Starfield.complete s = s.
Proof. intros H. unfold Starfield.complete. now rewrite H. Qed.

Lemma skip_noop (s : Starfield.Loader) :
  Starfield.isComplete s || Starfield.isSkipped s = true ->
  Starfield.skip s = s.
Proof. intros H. unfold Starfield.skip. now rewrite H. Qed.

Lemma timer_noop (s : Starfield.Loader) :
  Starfield.isComplete s || Starfield.isSkipped s = true ->
  Starfield.run Starfield.Fallback s = s
  /\ Starfield.run Starfield.MinDisplay s = s.
Proof.
  intros H. cbn. destruct (Starfield.isComplete s), (Starfield.isSkipped s);
    try discriminate; now split.
Qed.

Lemma frame_noop (s : Starfield.Loader) :
  Starfield.isComplete s = true -> Starfield.run Starfield.Frame s = s.
Proof. intros H. cbn. unfold Starfield.animateStarfield. now rewrite H. Qed.

(** Once [isComplete] is set, no event draws a frame or enters the body
    of [complete] again. *)
Lemma fire_after_complete (e : Starfield.Env) (ev : Starfield.Event)
      (s : Starfield.Loader) :
  Starfield.isComplete s = true ->
  Starfield.isComplete (Starfield.fire e ev s) = true
  /\ Starfield.frames (Starfield.fire e ev s) = Starfield.frames s
  /\ Starfield.completions (Starfield.fire e ev s) = Starfield.completions s.
Proof.
  intros Hc. destruct ev as [|key| |cb]; cbn [Starfield.fire].
  - rewrite skip_noop by (now rewrite Hc). now destruct (_ && _).
  - rewrite skip_noop by (now rewrite Hc). now destruct (_ && _).
  - destruct (Starfield.awaitingLoad s); [|now split].
    destruct s; cbn in *. now subst.
  - destruct (Starfield.takeOut cb (Starfield.pending s)) as [rest|];
      [|now split].
    loader_fields s; cbn in Hc; subst c.
    destruct cb; cbn; now repeat split.
Qed.

Lemma runEvents_after_complete (e : Starfield.Env)
      (evs : list Starfield.Event) (s : Starfield.Loader) :
  Starfield.isComplete s = true ->
  Starfield.frames (Starfield.runEvents e evs s) = Starfield.frames s
  /\ Starfield.completions (Starfield.runEvents e evs s)
     = Starfield.completions s.
Proof.
  revert s. induction evs as [|ev evs IH]; intros s Hc; [now split|].
  cbn. destruct (fire_after_complete e ev s Hc) as (Hc' & <- & <-).
  now apply IH.
Qed.

(** Once [isSkipped] is set, no event enters the body of [complete]:
    [skip] returns at its guard and the two timers find the flag. *)
Lemma fire_after_skip (e : Starfield.Env) (ev : Starfield.Event)
      (s : Starfield.Loader) :
  Starfield.isSkipped s = true ->
  Starfield.isSkipped (Starfield.fire e ev s) = true
  /\ Starfield.completions (Starfield.fire e ev s) = Starfield.completions s.
Proof.
  intros Hk. destruct ev as [|key| |cb]; cbn [Starfield.fire].
  - rewrite skip_noop by (rewrite Hk; apply orb_true_r). now destruct (_ && _).
  - rewrite skip_noop by (rewrite Hk; apply orb_true_r). now destruct (_ && _).
  - destruct (Starfield.awaitingLoad s); [|now split].
    destruct s; cbn in *. now subst.
  - destruct (Starfield.takeOut cb (Starfield.pending s)) as [rest|];
      [|now split].
    loader_fields s; cbn in Hk; subst k.
    destruct cb; cbn; unfold Starfield.animateStarfield; cbn;
      rewrite ?andb_false_r; try (now split); destruct c; now split.
Qed.

Lemma runEvents_after_skip (e : Starfield.Env)
      (evs : list Starfield.Event) (s : Starfield.Loader) :
  Starfield.isSkipped s = true ->
  Starfield.completions (Starfield.runEvents e evs s)
  = Starfield.completions s.
Proof.
  revert s. induction evs as [|ev evs IH]; intros s Hk; [reflexivity|].
  cbn. destruct (fire_after_skip e ev s Hk) as (Hk' & <-).
  now apply IH.
Qed.

(** ** The welcome animation: completion happens once (C9) *)

Lemma welcome_takeOut_count (cb x : Welcome.Callback)
      (l rest : list Welcome.Callback) :
  Welcome.takeOut cb l = Some rest ->
  count_occ Welcome.Callback_eq_dec l x
  = count_occ Welcome.Callback_eq_dec rest x
    + (if decide (cb = x) then 1 else 0).
Proof.
  revert rest. induction l as [|y l IH]; intros rest; cbn; [discriminate|].
  destruct (decide (y = cb)) as [->|Hne].
  - intros [= <-]. destruct (Welcome.Callback_eq_dec cb x);
      destruct (decide (cb = x)); try contradiction; lia.
  - destruct (Welcome.takeOut cb l) as [r|]; [|discriminate].
    intros [= <-]. cbn. rewrite (IH r eq_refl).
    destruct (Welcome.Callback_eq_dec y x); lia.
Qed.

Lemma welcome_count_schedule (cb x : Welcome.Callback)
      (l : list Welcome.Callback) :
  count_occ Welcome.Callback_eq_dec (l ++ [cb]) x
  = count_occ Welcome.Callback_eq_dec l x + (if decide (cb = x) then 1 else 0).
Proof.
  rewrite count_occ_app. cbn.
  destruct (Welcome.Callback_eq_dec cb x), (decide (cb = x));
    try contradiction; lia.
Qed.

Lemma welcome_fadeOut_noop (s : Welcome.Anim) :
  Welcome.hasSkipped s || Welcome.animationComplete s = true ->
  Welcome.fadeOut s = s.
Proof. intros H. unfold Welcome.fadeOut. now rewrite H. Qed.

Lemma welcome_skip_noop (stringify : Json.value -> option string)
      (e : Welcome.Env) (s : Welcome.Anim) :
  Welcome.hasSkipped s || Welcome.animationComplete s = true ->
  Welcome.skip stringify e s = s.
Proof. intros H. unfold Welcome.skip. now rewrite H. Qed.

Ltac welcome_fields s :=
  destruct s as [hs ac ov wa pa pt ta sv gl wt bl ea st pe sp co di].

Lemma welcome_idle_fire (stringify : Json.value -> option string)
      (e : Welcome.Env) (ev : Welcome.Event) (s : Welcome.Anim) :
  welcomeIdle s -> Welcome.fire stringify e ev s = s.
Proof.
  unfold welcomeIdle. welcome_fields s. cbn.
  intros (-> & -> & -> & -> & _). destruct ev as [|key| |cb]; cbn;
    reflexivity.
Qed.

Lemma welcome_fadeOut_running (s : Welcome.Anim) :
  welcomeRunning s -> welcomeRunning (Welcome.fadeOut s).
Proof.
  intros Hrun. unfold Welcome.fadeOut.
  destruct (Welcome.hasSkipped s || Welcome.animationComplete s) eqn:Hf;
    [assumption|].
  apply orb_false_iff in Hf. destruct Hf as [Hs Ha].
  revert Hrun Hs Ha. unfold welcomeRunning, pendingFadeTimers.
  welcome_fields s. cbn. intros (_ & Hco & Hle) -> ->. subst co.
  rewrite welcome_count_schedule, decide_True by reflexivity.
  split; [discriminate|]. split; [reflexivity|lia].
Qed.

Lemma welcome_skip_running (stringify : Json.value -> option string)
      (e : Welcome.Env) (s : Welcome.Anim) :
  welcomeRunning s -> welcomeRunning (Welcome.skip stringify e s).
Proof.
  intros Hrun. unfold Welcome.skip.
  destruct (Welcome.hasSkipped s || Welcome.animationComplete s) eqn:Hf;
    [assumption|].
  apply orb_false_iff in Hf. destruct Hf as [Hs Ha].
  rewrite welcome_fadeOut_noop by (now destruct s).
  revert Hrun Hs Ha. unfold welcomeRunning, pendingFadeTimers.
  welcome_fields s. cbn. intros (_ & Hco & Hle) -> ->. auto.
Qed.

(** A step of the sequence that only marks elements keeps the
    invariant. *)
Lemma welcome_step_running (w : option nat) (s : Welcome.Anim) :
  welcomeRunning s -> welcomeRunning (Welcome.set_waiting w (Welcome.step s)).
Proof. unfold welcomeRunning, pendingFadeTimers. now destruct s. Qed.

Lemma welcome_triggerGlitch_running (e : Welcome.Env) (s : Welcome.Anim) :
  welcomeRunning s -> welcomeRunning (Welcome.triggerGlitch e s).
Proof.
  unfold Welcome.triggerGlitch. destruct (_ && _); [|trivial].
  unfold welcomeRunning, pendingFadeTimers. welcome_fields s. cbn.
  now rewrite welcome_count_schedule, decide_False, Nat.add_0_r
    by discriminate.
Qed.

Lemma welcome_resume_running (e : Welcome.Env) (k : nat) (s : Welcome.Anim) :
  welcomeRunning s -> welcomeRunning (Welcome.resume e k s).
Proof.
  intros Hrun. unfold Welcome.resume.
  assert (Hstop : welcomeRunning (Welcome.set_waiting None s))
    by (revert Hrun; unfold welcomeRunning, pendingFadeTimers;
        now destruct s).
  destruct (Welcome.hasSkipped s); [assumption|].
  destruct k as [|[|[|[|[|[|k]]]]]]; try assumption;
    apply welcome_step_running.
  - now apply welcome_triggerGlitch_running.
  - now apply welcome_fadeOut_running.
Qed.

Lemma welcome_run_running (cb : Welcome.Callback) (s : Welcome.Anim)
      (rest : list Welcome.Callback) :
  welcomeRunning s -> Welcome.takeOut cb (Welcome.pending s) = Some rest ->
  welcomeRunning (Welcome.run cb (Welcome.set_pending rest s)).
Proof.
  intros Hrun Htake.
  pose proof (welcome_takeOut_count cb Welcome.FadeTimer _ _ Htake) as Hcount.
  revert Hrun Hcount. unfold welcomeRunning, pendingFadeTimers.
  welcome_fields s. cbn. intros (Hs & Hco & Hle) Hcount.
  rewrite Hcount in Hle. destruct cb; cbn.
  - rewrite decide_True in Hle by reflexivity.
    split; [assumption|split; [assumption|lia]].
  - rewrite decide_False in Hle by discriminate.
    split; [assumption|split; [assumption|lia]].
Qed.

Lemma welcome_fire_running (stringify : Json.value -> option string)
      (e : Welcome.Env) (ev : Welcome.Event) (s : Welcome.Anim) :
  welcomeRunning s -> welcomeRunning (Welcome.fire stringify e ev s).
Proof.
  intros Hrun. destruct ev as [|key| |cb]; cbn [Welcome.fire].
  - destruct (Welcome.buttonListening s);
      [now apply welcome_skip_running|assumption].
  - destruct (Welcome.escapeArmed s); [|assumption].
    assert (Harm : welcomeRunning (Welcome.set_escapeArmed false s))
      by (revert Hrun; unfold welcomeRunning, pendingFadeTimers;
          now destruct s).
    destruct (String.eqb key "Escape");
      [now apply welcome_skip_running|assumption].
  - destruct (Welcome.waiting s) as [k|];
      [now apply welcome_resume_running|assumption].
  - destruct (Welcome.takeOut cb (Welcome.pending s)) as [rest|] eqn:Ht;
      [now apply (welcome_run_running cb s rest)|assumption].
Qed.

Lemma welcome_fire_inv (stringify : Json.value -> option string)
      (e : Welcome.Env) (ev : Welcome.Event) (s : Welcome.Anim) :
  welcomeInv s -> welcomeInv (Welcome.fire stringify e ev s).
Proof.
  intros [Hidle|Hrun].
  - rewrite welcome_idle_fire by assumption. now left.
  - right. now apply welcome_fire_running.
Qed.

Lemma welcome_init_inv (parse : string -> option Json.value)
      (e : Welcome.Env) :
  welcomeInv (Welcome.init parse e).
Proof.
  unfold Welcome.init. destruct (Welcome.shouldSkipAnimation parse e).
  - left. unfold welcomeIdle. cbn. tauto.
  - right. unfold welcomeRunning, pendingFadeTimers. cbn.
    split; [discriminate|]. split; [reflexivity|lia].
Qed.

Lemma welcome_runEvents_inv (stringify : Json.value -> option string)
      (e : Welcome.Env) (evs : list Welcome.Event) (s : Welcome.Anim) :
  welcomeInv s -> welcomeInv (Welcome.runEvents stringify e evs s).
Proof.
  revert s. induction evs as [|ev evs IH]; intros s Hinv; [assumption|].
  cbn. apply IH. now apply welcome_fire_inv.
Qed.

Lemma welcomeInv_once (s : Welcome.Anim) :
  welcomeInv s -> Welcome.completions s <= 1 /\ Welcome.dispatched s <= 1.
Proof.
  unfold welcomeInv, welcomeIdle, welcomeRunning.
  intros [(_ & _ & _ & _ & -> & -> & _)|(_ & Hco & Hle)]; [lia|].
  destruct (Welcome.animationComplete s); lia.
Qed.

Lemma loaderInv_once (s : Starfield.Loader) :
  loaderInv s -> Starfield.completions s <= 1 /\ Starfield.dispatched s <= 1.
Proof.
  unfold loaderInv. intros (Hco & Hle & _).
  destruct (Starfield.isComplete s); lia.
Qed.

(** After a skip no event runs a step of the sequence, starts the fade
    or touches the overlay. *)
Lemma welcome_fire_after_skip (stringify : Json.value -> option string)
      (e : Welcome.Env) (ev : Welcome.Event) (s : Welcome.Anim) :
  welcomeInv s -> Welcome.hasSkipped s = true ->
  Welcome.hasSkipped (Welcome.fire stringify e ev s) = true
  /\ Welcome.steps (Welcome.fire stringify e ev s) = Welcome.steps s
  /\ Welcome.completions (Welcome.fire stringify e ev s)
     = Welcome.completions s
  /\ Welcome.overlay (Welcome.fire stringify e ev s) = Welcome.overlay s
  /\ Welcome.dispatched (Welcome.fire stringify e ev s)
     = Welcome.dispatched s.
Proof.
  intros [Hidle|Hrun] Hs.
  - now rewrite welcome_idle_fire.
  - destruct ev as [|key| |cb]; cbn [Welcome.fire].
    + rewrite welcome_skip_noop by (now rewrite Hs).
      destruct (Welcome.buttonListening s); tauto.
    + destruct (Welcome.escapeArmed s); [|tauto].
      rewrite welcome_skip_noop by (destruct s; cbn in *; now subst).
      destruct (String.eqb key "Escape"); destruct s; cbn in *; tauto.
    + destruct (Welcome.waiting s) as [k|]; [|tauto].
      unfold Welcome.resume. rewrite Hs. destruct s; cbn in *; tauto.
    + destruct (Welcome.takeOut cb (Welcome.pending s)) as [rest|] eqn:Ht;
        [|tauto].
      pose proof (welcome_takeOut_count cb Welcome.FadeTimer _ _ Ht) as Hc.
      revert Hrun Hs Hc. unfold welcomeRunning, pendingFadeTimers.
      welcome_fields s. cbn. intros (Ha & Hco & Hle) ->.
      rewrite (Ha eq_refl) in Hco. subst co. destruct cb; cbn.
      * rewrite decide_True by reflexivity. intros Hc. lia.
      * tauto.
Qed.

Lemma welcome_runEvents_after_skip (stringify : Json.value -> option string)
      (e : Welcome.Env) (evs : list Welcome.Event) (s : Welcome.Anim) :
  welcomeInv s -> Welcome.hasSkipped s = true ->
  Welcome.steps (Welcome.runEvents stringify e evs s) = Welcome.steps s
  /\ Welcome.completions (Welcome.runEvents stringify e evs s)
     = Welcome.completions s
  /\ Welcome.overlay (Welcome.runEvents stringify e evs s)
     = Welcome.overlay s
  /\ Welcome.dispatched (Welcome.runEvents stringify e evs s)
     = Welcome.dispatched s.
Proof.
  revert s. induction evs as [|ev evs IH]; intros s Hinv Hs; [tauto|].
  cbn.
  destruct (welcome_fire_after_skip stringify e ev s Hinv Hs)
    as (Hs' & <- & <- & <- & <-).
  apply IH; [now apply welcome_fire_inv|assumption].
Qed.

(** Once the fade has started, [completions] stays. *)
Lemma welcome_runEvents_completions (stringify : Json.value -> option string)
      (e : Welcome.Env) (evs : list Welcome.Event) (s : Welcome.Anim) :
  welcomeInv s -> Welcome.animationComplete s = true ->
  Welcome.completions (Welcome.runEvents stringify e evs s)
  = Welcome.completions s.
Proof.
  intros Hinv Ha.
  assert (Hmono : forall evs' t,
             Welcome.animationComplete t = true ->
             Welcome.animationComplete
               (Welcome.runEvents stringify e evs' t) = true).
  { induction evs' as [|ev evs' IH]; intros t Ht; [assumption|].
    cbn. apply IH. destruct ev as [|key| |cb]; cbn [Welcome.fire].
    - rewrite welcome_skip_noop by (rewrite Ht; apply orb_true_r).
      now destruct (Welcome.buttonListening t).
    - destruct (Welcome.escapeArmed t); [|assumption].
      rewrite welcome_skip_noop
        by (destruct t; cbn in *; subst; apply orb_true_r).
      destruct (String.eqb key "Escape"); now destruct t.
    - destruct (Welcome.waiting t) as [k|]; [|assumption].
      unfold Welcome.resume. destruct (Welcome.hasSkipped t) eqn:Hs;
        [now destruct t|].
      destruct k as [|[|[|[|[|[|k]]]]]]; try (now destruct t).
      + unfold Welcome.triggerGlitch. destruct (_ && _); now destruct t.
      + rewrite welcome_fadeOut_noop by (rewrite Ht; apply orb_true_r).
        now destruct t.
    - destruct (Welcome.takeOut cb (Welcome.pending t)) as [rest|];
        [|assumption].
      destruct cb; now destruct t. }
  pose proof (welcome_runEvents_inv stringify e evs s Hinv) as Hinv'.
  specialize (Hmono evs s Ha).
  destruct Hinv as [Hidle|(_ & Hco & _)];
    [unfold welcomeIdle in Hidle; destruct Hidle as (_&_&_&_&_&_&_&Hf);
     congruence|].
  destruct Hinv' as [Hidle|(_ & Hco' & _)];
    [unfold welcomeIdle in Hidle; destruct Hidle as (_&_&_&_&_&_&_&Hf);
     congruence|].
  now rewrite Hco, Hco', Ha, Hmono.
Qed.

(** C9, as the code has it: in every interleaving of timer,
    resource-load, skip and key events the body of [complete] is entered
    at most once and the completion event is dispatched at most once,
    for the starfield loader and for the welcome animation.  Once
    [isComplete] is set, a later [skip], [complete], fallback or display
    timer or starfield frame changes nothing and no further frame is
    drawn; once [isSkipped] is set, a later [skip] and the two timers
    change nothing and [complete] is not entered again, and the loader
    is complete as well when [sessionStorage] takes its flag.  In the
    welcome animation a later [skip] or [fadeOut] changes nothing once a
    flag is set, and after a skip no further step of the sequence
    runs. *)
Theorem completion_happens_once
        (stringify : Json.value -> option string)
        (parse : string -> option Json.value)
        (se : Starfield.Env) (we : Welcome.Env)
        (before after : list Starfield.Event)
        (wbefore wafter : list Welcome.Event) :
  let s1 := Starfield.runEvents se before (Starfield.init se) in
  let s2 := Starfield.runEvents se after s1 in
  let w1 := Welcome.runEvents stringify we wbefore (Welcome.init parse we) in
  let w2 := Welcome.runEvents stringify we wafter w1 in
  (Starfield.completions s2 <= 1 /\ Starfield.dispatched s2 <= 1
   /\ Welcome.completions w2 <= 1 /\ Welcome.dispatched w2 <= 1)
  /\ (Starfield.isComplete s1 = true ->
      Starfield.skip s1 = s1
      /\ Starfield.complete s1 = s1
      /\ Starfield.run Starfield.Fallback s1 = s1
      /\ Starfield.run Starfield.MinDisplay s1 = s1
      /\ Starfield.run Starfield.Frame s1 = s1
      /\ Starfield.frames s2 = Starfield.frames s1
      /\ Starfield.completions s2 = Starfield.completions s1)
  /\ (Starfield.isSkipped s1 = true ->
      Starfield.skip s1 = s1
      /\ Starfield.run Starfield.Fallback s1 = s1
      /\ Starfield.run Starfield.MinDisplay s1 = s1
      /\ Starfield.completions s2 = Starfield.completions s1
      /\ (acceptsFlag (Starfield.sessionStorage se) ->
          Starfield.isComplete s1 = true))
  /\ (Welcome.hasSkipped w1 || Welcome.animationComplete w1 = true ->
      Welcome.skip stringify we w1 = w1
      /\ Welcome.fadeOut w1 = w1
      /\ Welcome.completions w2 = Welcome.completions w1)
  /\ (Welcome.hasSkipped w1 = true ->
      Welcome.steps w2 = Welcome.steps w1).
Proof.
  cbv zeta.
  set (s1 := Starfield.runEvents se before (Starfield.init se)).
  set (w1 := Welcome.runEvents stringify we wbefore (Welcome.init parse we)).
  assert (Hs1 : loaderInv s1)
    by (apply runEvents_inv, init_inv).
  assert (Hw1 : welcomeInv w1)
    by (apply welcome_runEvents_inv, welcome_init_inv).
  split; [|split; [|split; [|split]]].
  - destruct (loaderInv_once _ (runEvents_inv se after s1 Hs1)).
    destruct (welcomeInv_once _
                (welcome_runEvents_inv stringify we wafter w1 Hw1)).
    tauto.
  - intros Hc.
    assert (Hflag : Starfield.isComplete s1 || Starfield.isSkipped s1 = true)
      by now rewrite Hc.
    destruct (timer_noop s1 Hflag) as [Hf Hm].
    destruct (runEvents_after_complete se after s1 Hc) as [Hfr Hco].
    repeat split; auto using skip_noop, complete_noop, frame_noop.
  - intros Hk.
    assert (Hflag : Starfield.isComplete s1 || Starfield.isSkipped s1 = true)
      by (rewrite Hk; apply orb_true_r).
    destruct (timer_noop s1 Hflag) as [Hf Hm].
    repeat split; auto using skip_noop, runEvents_after_skip.
    intros Hacc. destruct (Starfield.isComplete s1) eqn:Hc; [reflexivity|].
    destruct Hs1 as (_ & _ & Hrefused). exfalso.
    apply (Hrefused Hk Hc).
    apply (acceptsFlag_limits (Starfield.sessionStorage se)); [|exact Hacc].
    apply sameLimits_sym. rewrite <- (init_limits se).
    apply runEvents_limits.
  - intros Hflag. split; [now apply welcome_skip_noop|].
    split; [now apply welcome_fadeOut_noop|].
    destruct (Welcome.hasSkipped w1) eqn:Hs.
    + now destruct (welcome_runEvents_after_skip stringify we wafter w1 Hw1 Hs)
        as (_ & Hco & _).
    + cbn in Hflag. now apply welcome_runEvents_completions.
  - intros Hs.
    now destruct (welcome_runEvents_after_skip stringify we wafter w1 Hw1 Hs).
Qed.

Lemma completion_happens_once_witness :
  let s1 := Starfield.runEvents plainLoaderEnv
              [Starfield.Due Starfield.Frame; Starfield.SkipClick]
              (Starfield.init plainLoaderEnv) in
  let s2 := Starfield.runEvents plainLoaderEnv
              [Starfield.Due Starfield.Frame; Starfield.Due Starfield.Fallback;
               Starfield.Due Starfield.FadeOut; Starfield.Keydown "Escape";
               Starfield.WindowLoad; Starfield.Due Starfield.MinDisplay]
              s1 in
  let w1 := Welcome.runEvents refStringify plainWelcomeEnv
              [Welcome.WaitDone; Welcome.SkipClick]
              (Welcome.init refParse plainWelcomeEnv) in
  let w2 := Welcome.runEvents refStringify plainWelcomeEnv
              [Welcome.WaitDone; Welcome.Keydown "Escape"; Welcome.WaitDone]
              w1 in
  Starfield.isSkipped s1 = true
  /\ Starfield.isComplete s1 = true
  /\ Welcome.hasSkipped w1 = true
  /\ Starfield.frames s2 = Starfield.frames s1
  /\ Starfield.completions s2 = Starfield.completions s1
  /\ Starfield.dispatched s2 <= 1
  /\ Welcome.steps w2 = Welcome.steps w1.
Proof.
  cbv zeta.
  destruct (completion_happens_once refStringify refParse
              plainLoaderEnv plainWelcomeEnv
              [Starfield.Due Starfield.Frame; Starfield.SkipClick]
              [Starfield.Due Starfield.Frame; Starfield.Due Starfield.Fallback;
               Starfield.Due Starfield.FadeOut; Starfield.Keydown "Escape";
               Starfield.WindowLoad; Starfield.Due Starfield.MinDisplay]
              [Welcome.WaitDone; Welcome.SkipClick]
              [Welcome.WaitDone; Welcome.Keydown "Escape"; Welcome.WaitDone])
    as ((_ & Hd & _) & Hdone & Hskipped & _ & Hsteps).
  split; [reflexivity|]. split; [reflexivity|]. split; [reflexivity|].
  destruct (Hdone eq_refl) as (_ & _ & _ & _ & _ & Hfr & _).
  destruct (Hskipped eq_refl) as (_ & _ & _ & Hco & _).
  split; [exact Hfr|]. split; [exact Hco|].
  split; [exact Hd | exact (Hsteps eq_refl)].
Defined.

(** C9 as stated fails: callbacks that look at no flag still run once a
    flag is set.  After a click on the skip button of the loader, which
    sets both flags, the frame of [startProgress] is still pending, and
    when it comes due it marks the progress bar; after a skip of the
    welcome animation the pending timer of [triggerGlitch] still takes
    the glitch class off the title. *)
Lemma pending_steps_run_after_skip :
  let s1 := Starfield.runEvents plainLoaderEnv [Starfield.SkipClick]
              (Starfield.init plainLoaderEnv) in
  let w1 := Welcome.runEvents refStringify plainWelcomeEnv
              [Welcome.WaitDone; Welcome.WaitDone; Welcome.WaitDone;
               Welcome.WaitDone; Welcome.SkipClick]
              (Welcome.init refParse plainWelcomeEnv) in
  (Starfield.isSkipped s1 = true /\ Starfield.isComplete s1 = true
   /\ In Starfield.Progress (Starfield.pending s1)
   /\ Starfield.fire plainLoaderEnv (Starfield.Due Starfield.Progress) s1
      <> s1)
  /\ (Welcome.hasSkipped w1 = true
      /\ In Welcome.GlitchOff (Welcome.pending w1)
      /\ Welcome.fire refStringify plainWelcomeEnv
                      (Welcome.Due Welcome.GlitchOff) w1 <> w1).
Proof.
  cbv zeta. split.
  - split; [reflexivity|]. split; [reflexivity|].
    split; [vm_compute; tauto|]. intros H.
    apply (f_equal Starfield.progressActive) in H. vm_compute in H.
    discriminate H.
  - split; [reflexivity|]. split; [vm_compute; tauto|]. intros H.
    apply (f_equal Welcome.glitch) in H. vm_compute in H. discriminate H.
Qed.

(** Two callbacks carry no guard: the frame that starts the progress
    bar of the loader and the timer that takes the glitch class off the
    welcome title.  Both run whatever the flags say. *)
Lemma unguarded_callbacks (s : Starfield.Loader) (w : Welcome.Anim) :
  Starfield.progressActive (Starfield.run Starfield.Progress s) = true
  /\ Welcome.glitch (Welcome.run Welcome.GlitchOff w) = false.
Proof. split; reflexivity. Qed.

(** A skip whose write to [sessionStorage] throws sets [isSkipped] and
    nothing else: the loader is not completed, and the starfield goes on
    drawing. *)
Example skip_with_refused_write :
  let e := Starfield.mkEnv true true true true (LocalStorage.mk ∅ false 0)
                           false false false in
  let s1 := Starfield.runEvents e [Starfield.SkipClick] (Starfield.init e) in
  let s2 := Starfield.runEvents e [Starfield.Due Starfield.Frame;
                                   Starfield.Due Starfield.Fallback] s1 in
  Starfield.isSkipped s1 = true
  /\ Starfield.isComplete s2 = false
  /\ Starfield.frames s2 = S (Starfield.frames s1)
  /\ Starfield.overlay s2 = Starfield.Shown false false.
Proof. vm_compute. tauto. Qed.

(** In the welcome animation the skip flag also stops [fadeOut], which
    [skip] calls after it has set the flag: once skipped, the overlay
    stays where it is, whatever follows. *)
Lemma welcome_overlay_stays_after_skip
      (stringify : Json.value -> option string)
      (parse : string -> option Json.value) (e : Welcome.Env)
      (before after : list Welcome.Event) :
  let w1 := Welcome.runEvents stringify e before (Welcome.init parse e) in
  Welcome.hasSkipped w1 = true ->
  Welcome.overlay (Welcome.runEvents stringify e after w1)
  = Welcome.overlay w1.
Proof.
  cbv zeta. intros Hs.
  assert (Hinv : welcomeInv
                   (Welcome.runEvents stringify e before
                      (Welcome.init parse e)))
    by (apply welcome_runEvents_inv, welcome_init_inv).
  now destruct (welcome_runEvents_after_skip stringify e after _ Hinv Hs)
    as (_ & _ & Ho & _).
Qed.

Example welcome_skip_leaves_overlay :
  Welcome.overlay
    (Welcome.runEvents refStringify plainWelcomeEnv
       [Welcome.WaitDone; Welcome.SkipClick; Welcome.WaitDone;
        Welcome.Due Welcome.FadeTimer; Welcome.Keydown "Escape";
        Welcome.SkipClick; Welcome.WaitDone]
       (Welcome.init refParse plainWelcomeEnv))
  = Welcome.Shown false.
Proof. reflexivity. Qed.

(** ** Reduced motion and the intro overlays (C8) *)

(** Whatever makes [shouldSkipAnimation] answer yes, [init] does the
    same: it calls [skipImmediately] on the fresh object. *)
Lemma welcome_init_skips (parse : string -> option Json.value)
      (e : Welcome.Env) :
  Welcome.shouldSkipAnimation parse e = true ->
  Welcome.init parse e = Welcome.skipImmediately (Welcome.fresh e)
  /\ welcomeBypassed (Welcome.init parse e).
Proof.
  intros Hskip. unfold Welcome.init. rewrite Hskip.
  split; [reflexivity|]. unfold welcomeBypassed. cbn. tauto.
Qed.

Lemma welcome_skips_on_reduced_motion (parse : string -> option Json.value)
      (e : Welcome.Env) :
  Welcome.reducedMotion e = true -> Welcome.shouldSkipAnimation parse e = true.
Proof.
  intros H. unfold Welcome.shouldSkipAnimation. rewrite H.
  now destruct (_ && _).
Qed.

Lemma welcome_skips_on_parameter (parse : string -> option Json.value)
      (e : Welcome.Env) :
  Welcome.skipParam e = true -> Welcome.shouldSkipAnimation parse e = true.
Proof.
  intros H. unfold Welcome.shouldSkipAnimation. rewrite H.
  destruct (_ && _); [reflexivity|]. now destruct (Welcome.reducedMotion e).
Qed.

Lemma welcome_skips_on_stored_preference
      (parse : string -> option Json.value) (e : Welcome.Env)
      (text : string) (expires : Z) :
  LocalStorage.getItem "welcomeSkipped" (Welcome.localStorage e)
  = Some (Some text) ->
  text <> "" ->
  parse text = Some (Json.Obj [("expires", Json.Num expires)]) ->
  (Welcome.now e < expires)%Z ->
  Welcome.shouldSkipAnimation parse e = true.
Proof.
  intros Hget Hne Hparse Hlt.
  unfold Welcome.shouldSkipAnimation, Utils.storage_get. rewrite Hget.
  destruct text as [|c rest]; [contradiction|]. rewrite Hparse. cbn.
  apply Z.ltb_lt in Hlt. now rewrite Hlt.
Qed.

(** The starfield loader asks [shouldSkip], which looks at the session
    flag and at the query string only. *)
Lemma starfield_init_not_skipped (e : Starfield.Env) :
  Starfield.overlayPresent e = true ->
  Starfield.shouldSkip e = Some false ->
  Starfield.overlay (Starfield.init e) = Starfield.Shown false false
  /\ Starfield.loaderActive (Starfield.init e) = true
  /\ Starfield.listening (Starfield.init e) = true
  /\ In Starfield.Fallback (Starfield.pending (Starfield.init e))
  /\ (Starfield.reducedMotion e = true ->
      Starfield.frames (Starfield.init e) = 0
      /\ ~ In Starfield.Frame (Starfield.pending (Starfield.init e))).
Proof.
  intros Hov Hskip. unfold Starfield.init. rewrite Hov, Hskip.
  destruct e as [ov ca sk pr se sp rm rc].
  cbn [Starfield.overlayPresent] in Hov. subst ov. clear Hskip.
  destruct rm, ca, pr, rc; cbn; intuition congruence.
Qed.

(** C8, as the code has it: with the reduced-motion preference on, the
    welcome animation is bypassed at once, the overlay removed and no
    step of the timed sequence started, by the same [skipImmediately]
    as for the stored preference and the URL parameter; the starfield
    loader is bypassed by the session flag and the URL parameter only,
    and under reduced motion it still shows its overlay and sets its
    timers, leaving out the canvas animation alone. *)
Theorem reduced_motion_bypasses_welcome
        (parse : string -> option Json.value)
        (we : Welcome.Env) (se : Starfield.Env) :
  Welcome.reducedMotion we = true ->
  Starfield.reducedMotion se = true ->
  Starfield.overlayPresent se = true ->
  Starfield.shouldSkip se = Some false ->
  (Welcome.init parse we = Welcome.skipImmediately (Welcome.fresh we)
   /\ welcomeBypassed (Welcome.init parse we))
  /\ (Starfield.overlay (Starfield.init se) = Starfield.Shown false false
      /\ Starfield.loaderActive (Starfield.init se) = true
      /\ In Starfield.Fallback (Starfield.pending (Starfield.init se))
      /\ Starfield.frames (Starfield.init se) = 0
      /\ ~ In Starfield.Frame (Starfield.pending (Starfield.init se))).
Proof.
  intros Hw Hs Hov Hskip. split.
  - apply welcome_init_skips. now apply welcome_skips_on_reduced_motion.
  - destruct (starfield_init_not_skipped se Hov Hskip)
      as (Ho & Ha & _ & Hf & Hrm).
    destruct (Hrm Hs). tauto.
Qed.

Lemma reduced_motion_bypasses_welcome_witness :
  Welcome.reducedMotion quietWelcomeEnv = true
  /\ Starfield.reducedMotion quietLoaderEnv = true
  /\ welcomeBypassed (Welcome.init refParse quietWelcomeEnv)
  /\ Starfield.overlay (Starfield.init quietLoaderEnv)
     = Starfield.Shown false false.
Proof.
  destruct (reduced_motion_bypasses_welcome refParse quietWelcomeEnv
              quietLoaderEnv eq_refl eq_refl eq_refl eq_refl)
    as ((_ & Hw) & Ho & _).
  split; [reflexivity|]. split; [reflexivity|]. split; [exact Hw|exact Ho].
Defined.

(** C8 as stated fails for the starfield loader: on a first visit with
    the reduced-motion preference on, [init] leaves the overlay in the
    document, the body class set and the timers pending. *)
Lemma starfield_not_bypassed_by_reduced_motion :
  Starfield.reducedMotion quietLoaderEnv = true
  /\ ~ starfieldBypassed (Starfield.init quietLoaderEnv).
Proof.
  split; [reflexivity|]. intros (Hgone & _). discriminate Hgone.
Qed.

(** ** The reference codec reads back what it writes *)

Lemma str_append_cons (x : ascii) (a b : string) :
  String x a +:+ b = String x (a +:+ b).
Proof. reflexivity. Qed.

Lemma str_append_assoc (a b c : string) : (a +:+ b) +:+ c = a +:+ (b +:+ c).
Proof.
  induction a as [|x a IH]; [reflexivity|]. now rewrite !str_append_cons, IH.
Qed.

Lemma readString_escape (s rest : string) :
  Json.readString (Json.escape s +:+ String Json.dq rest) = Some (s, rest).
Proof.
  induction s as [|c s IH]; [reflexivity|].
  cbn [Json.escape].
  destruct (Ascii.eqb c Json.dq || Ascii.eqb c Json.backslash) eqn:Hc.
  - rewrite !str_append_cons. cbn [Json.readString].
    change (Ascii.eqb Json.backslash Json.dq) with false.
    change (Ascii.eqb Json.backslash Json.backslash) with true.
    cbv iota. now rewrite IH.
  - apply orb_false_iff in Hc. destruct Hc as [Hq Hb].
    rewrite str_append_cons. cbn [Json.readString]. now rewrite Hq, Hb, IH.
Qed.

Lemma spanDigits_app (ds rest : string) :
  (forall c, In c (list_ascii_of_string ds) -> Json.isDigit c = true) ->
  noDigitAhead rest ->
  Json.spanDigits (ds +:+ rest) = (ds, rest).
Proof.
  intros Hds Hrest. induction ds as [|c ds IH].
  - change ("" +:+ rest) with rest. destruct rest as [|r rest]; [reflexivity|].
    cbn in Hrest. cbn [Json.spanDigits]. now rewrite Hrest.
  - rewrite str_append_cons. cbn [Json.spanDigits].
    rewrite (Hds c) by (now left). rewrite IH; [reflexivity|].
    intros x Hx. apply Hds. now right.
Qed.

Lemma uint_digits (d : Decimal.uint) (c : ascii) :
  In c (list_ascii_of_string (NilEmpty.string_of_uint d)) ->
  Json.isDigit c = true.
Proof.
  induction d; cbn; try (intros [<-|H]; [reflexivity|now apply IHd]).
  intros [].
Qed.

Lemma uint_text (d : Decimal.uint) :
  d <> Decimal.Nil ->
  NilZero.string_of_uint d = NilEmpty.string_of_uint d
  /\ exists c t, NilEmpty.string_of_uint d = String c t /\ Json.isDigit c = true.
Proof.
  intros Hd. destruct d; try contradiction; (split; [reflexivity|]); cbn; eauto.
Qed.

Lemma readNumber_stringify (n : Z) (rest : string) :
  noDigitAhead rest ->
  Json.readNumber (NilZero.string_of_int (Z.to_int n) +:+ rest)
  = Some (Json.Num n, rest).
Proof.
  intros Hrest.
  assert (Hnorm : NilZero.int_of_string (NilZero.string_of_int (Z.to_int n))
                  = Some (Z.to_int n)).
  { apply NilZero.isi; destruct n; cbn; try discriminate;
      intros [= H]; now apply DecimalPos.Unsigned.to_uint_nonnil in H. }
  assert (Hback : Z.of_int (Z.to_int n) = n) by apply DecimalZ.of_to.
  destruct (Z.to_int n) as [d|d] eqn:Hn.
  - assert (Hd : d <> Decimal.Nil).
    { destruct n; cbn in Hn; inversion Hn; subst;
        [discriminate|apply DecimalPos.Unsigned.to_uint_nonnil]. }
    destruct (uint_text d Hd) as (Heq & c & t & Ht & Hc).
    cbn [NilZero.string_of_int] in *. rewrite Heq in *.
    unfold Json.readNumber.
    assert (Hfirst : exists t', NilEmpty.string_of_uint d +:+ rest = String c t'
                                /\ c <> "-"%char).
    { rewrite Ht, str_append_cons. eexists; split; [reflexivity|].
      intros ->. discriminate Hc. }
    destruct Hfirst as (t' & Ht' & Hminus).
    rewrite Ht'.
    assert (Hsplit : (match String c t' with
                      | String "-"%char r => ("-", r)
                      | _ => ("", String c t')
                      end) = ("", String c t')).
    { destruct c as [[] [] [] [] [] [] [] []]; try reflexivity. now elim Hminus. }
    rewrite Hsplit, <- Ht'.
    rewrite (spanDigits_app _ rest (uint_digits d) Hrest).
    rewrite Ht at 1. change ("" +:+ NilEmpty.string_of_uint d)
      with (NilEmpty.string_of_uint d).
    now rewrite Hnorm, Hback.
  - assert (Hd : d <> Decimal.Nil).
    { destruct n; cbn in Hn; inversion Hn; subst. apply DecimalPos.Unsigned.to_uint_nonnil. }
    destruct (uint_text d Hd) as (Heq & c & t & Ht & Hc).
    cbn [NilZero.string_of_int] in *. rewrite Heq in *.
    unfold Json.readNumber. rewrite str_append_cons.
    rewrite (spanDigits_app _ rest (uint_digits d) Hrest).
    rewrite Ht at 1.
    change ("-" +:+ NilEmpty.string_of_uint d)
      with (String "-" (NilEmpty.string_of_uint d)).
    now rewrite Hnorm, Hback.
Qed.

Lemma stripPrefix_app (p rest : string) :
  Json.stripPrefix p (p +:+ rest) = Some rest.
Proof.
  induction p as [|c p IH]; [now destruct rest|].
  rewrite str_append_cons. cbn. now rewrite Ascii.eqb_refl.
Qed.

Lemma value_induction (P : Json.value -> Prop) :
  P Json.Null ->
  (forall b, P (Json.Bool b)) ->
  (forall n, P (Json.Num n)) ->
  (forall s, P (Json.Str s)) ->
  (forall items, Forall P items -> P (Json.Arr items)) ->
  (forall members, Forall (fun kv => P (snd kv)) members ->
                   P (Json.Obj members)) ->
  forall v, P v.
Proof.
  intros Hnull Hbool Hnum Hstr Harr Hobj.
  fix IH 1. intros [|b|n|s|items|members].
  - exact Hnull.
  - apply Hbool.
  - apply Hnum.
  - apply Hstr.
  - apply Harr. induction items as [|x items IHitems]; constructor.
    + apply IH.
    + exact IHitems.
  - apply Hobj. induction members as [|[k x] members IHm]; constructor.
    + apply IH.
    + exact IHm.
Qed.

Lemma stringify_opens (v : Json.value) :
  exists c t, Json.stringify v = String c t /\ opens c.
Proof.
  destruct v as [|[|]|n|s|items|members]; cbn [Json.stringify];
    try (eexists _, _; split; [reflexivity|split; discriminate]).
  - destruct (Z.to_int n) as [d|d] eqn:Hn.
    + assert (Hd : d <> Decimal.Nil).
      { destruct n; cbn in Hn; inversion Hn; subst;
          [discriminate|apply DecimalPos.Unsigned.to_uint_nonnil]. }
      destruct (uint_text d Hd) as (Heq & c & t & Ht & Hc).
      cbn [NilZero.string_of_int]. rewrite Heq, Ht.
      exists c, t. split; [reflexivity|].
      split; intros ->; discriminate Hc.
    + eexists _, _. split; [reflexivity|split; discriminate].
Qed.

Lemma readValue_string (fuel : nat) (t : string) :
  Json.readValue (S fuel) (String Json.dq t)
  = option_map (fun '(x, r) => (Json.Str x, r)) (Json.readString t).
Proof. reflexivity. Qed.

Lemma readValue_number (fuel : nat) (c : ascii) (t : string) :
  Json.isDigit c = true \/ c = "-"%char ->
  Json.readValue (S fuel) (String c t) = Json.readNumber (String c t).
Proof.
  intros [Hc| ->]; [|reflexivity].
  destruct c as [[] [] [] [] [] [] [] []]; try discriminate Hc; reflexivity.
Qed.

Lemma readValue_array (fuel : nat) (c : ascii) (t : string) :
  c <> "]"%char ->
  Json.readValue (S fuel) (String "[" (String c t))
  = option_map (fun '(items, r) => (Json.Arr items, r))
               (Json.readItems fuel (String c t)).
Proof.
  intros Hc. destruct c as [[] [] [] [] [] [] [] []];
    try reflexivity. now elim Hc.
Qed.

Lemma readValue_object (fuel : nat) (c : ascii) (t : string) :
  c <> "}"%char ->
  Json.readValue (S fuel) (String "{" (String c t))
  = option_map (fun '(members, r) => (Json.Obj members, r))
               (Json.readMembers fuel (String c t)).
Proof.
  intros Hc. destruct c as [[] [] [] [] [] [] [] []];
    try reflexivity. now elim Hc.
Qed.

Lemma commaSep_more (x y : string) (more : list string) :
  Json.commaSep (x :: y :: more) = x +:+ "," +:+ Json.commaSep (y :: more).
Proof. reflexivity. Qed.

Lemma str_append_one (c : ascii) (x : string) :
  String c EmptyString +:+ x = String c x.
Proof. reflexivity. Qed.

Lemma readItems_commaSep (items : list Json.value) :
  items <> [] -> Forall readsBack items ->
  forall fuel rest,
    list_sum (map (fun x => S (valueSize x)) items) <= fuel ->
    Json.readItems fuel
      (Json.commaSep (map Json.stringify items) +:+ String "]" rest)
    = Some (items, rest).
Proof.
  intros Hne Hall. induction Hall as [|v items Hv Hall IH]; [contradiction|].
  intros fuel rest Hfuel. cbn [map list_sum fold_right] in Hfuel.
  fold (list_sum (map (fun x => S (valueSize x)) items)) in Hfuel.
  destruct fuel as [|fuel]; [lia|].
  assert (Hsize : valueSize v <= fuel) by lia.
  destruct items as [|w items].
  - cbn [map Json.commaSep Json.readItems].
    now rewrite (Hv fuel (String "]" rest) Hsize eq_refl).
  - cbn [map]. rewrite commaSep_more, !str_append_assoc, str_append_one.
    cbn [Json.readItems].
    rewrite (Hv fuel (String "," _) Hsize eq_refl).
    cbn [map] in IH, Hfuel. rewrite IH; [reflexivity|discriminate|lia].
Qed.

Lemma readMembers_commaSep (members : list (string * Json.value)) :
  members <> [] -> Forall (fun kv => readsBack (snd kv)) members ->
  forall fuel rest,
    list_sum (map (fun kv => S (valueSize (snd kv))) members) <= fuel ->
    Json.readMembers fuel
      (Json.commaSep
         (map (fun kv => Json.quote (fst kv) +:+ ":" +:+ Json.stringify (snd kv))
              members)
       +:+ String "}" rest)
    = Some (members, rest).
Proof.
  intros Hne Hall.
  induction Hall as [|[k v] members Hv Hall IH]; [contradiction|].
  intros fuel rest Hfuel. cbn [map list_sum fold_right snd fst] in Hfuel.
  fold (list_sum (map (fun kv : string * Json.value => S (valueSize (snd kv)))
                      members)) in Hfuel.
  destruct fuel as [|fuel]; [lia|].
  assert (Hsize : valueSize v <= fuel) by lia.
  cbn [snd] in Hv.
  assert (Hkey : forall tail,
             (Json.quote k +:+ ":" +:+ Json.stringify v) +:+ tail
             = String Json.dq
                 (Json.escape k
                  +:+ String Json.dq (String ":" (Json.stringify v +:+ tail)))).
  { intros tail. unfold Json.quote.
    now rewrite !str_append_cons, !str_append_assoc. }
  destruct members as [|[k' w] members].
  - cbn [map Json.commaSep fst snd]. rewrite Hkey.
    cbn [Json.readMembers]. change (Ascii.eqb Json.dq Json.dq) with true.
    cbv iota. rewrite readString_escape.
    now rewrite (Hv fuel (String "}" rest) Hsize eq_refl).
  - cbn [map fst snd]. rewrite commaSep_more, str_append_assoc, Hkey.
    cbn [Json.readMembers]. change (Ascii.eqb Json.dq Json.dq) with true.
    cbv iota. rewrite readString_escape.
    rewrite str_append_assoc, str_append_one.
    rewrite (Hv fuel (String "," _) Hsize eq_refl).
    cbn [map fst snd] in IH, Hfuel.
    rewrite IH; [reflexivity|discriminate|lia].
Qed.

Lemma stringify_readsBack (v : Json.value) : readsBack v.
Proof.
  induction v as [|b|n|s|items IH|members IH] using value_induction;
    intros fuel rest Hfuel Hrest;
    (destruct fuel as [|fuel]; [cbn in Hfuel; lia|]).
  - reflexivity.
  - destruct b; reflexivity.
  - destruct (stringify_opens (Json.Num n)) as (c & t & Ht & _).
    assert (Hc : Json.isDigit c = true \/ c = "-"%char).
    { cbn [Json.stringify] in Ht.
      destruct (Z.to_int n) as [d|d] eqn:Hn.
      - assert (Hd : d <> Decimal.Nil).
        { destruct n; cbn in Hn; inversion Hn; subst;
            [discriminate|apply DecimalPos.Unsigned.to_uint_nonnil]. }
        destruct (uint_text d Hd) as (Heq & c' & t' & Ht' & Hc').
        cbn [NilZero.string_of_int] in Ht. rewrite Heq, Ht' in Ht.
        inversion Ht; subst. now left.
      - cbn [NilZero.string_of_int] in Ht. inversion Ht. now right. }
    rewrite Ht, str_append_cons, (readValue_number fuel c _ Hc).
    rewrite <- str_append_cons, <- Ht. cbn [Json.stringify].
    now apply readNumber_stringify.
  - cbn [Json.stringify]. unfold Json.quote.
    rewrite str_append_cons, str_append_assoc, str_append_cons, readValue_string.
    change ("" +:+ rest) with rest. now rewrite readString_escape.
  - destruct items as [|x items]; [reflexivity|].
    cbn [Json.stringify]. rewrite !str_append_assoc, !str_append_one.
    destruct (stringify_opens x) as (c & t & Ht & Hc & _).
    assert (Hhead : exists t',
               Json.commaSep (map Json.stringify (x :: items))
               +:+ String "]" rest = String c t').
    { cbn [map Json.commaSep]. destruct (map Json.stringify items);
        rewrite Ht, str_append_cons; eauto. }
    destruct Hhead as (t' & Ht').
    rewrite Ht', (readValue_array fuel c t' Hc), <- Ht'.
    rewrite (readItems_commaSep (x :: items)); [reflexivity|discriminate| |].
    + exact IH.
    + cbn [valueSize] in Hfuel. lia.
  - destruct members as [|[k x] members]; [reflexivity|].
    cbn [Json.stringify]. rewrite !str_append_assoc, !str_append_one.
    assert (Hhead : exists t',
               Json.commaSep
                 (map (fun kv => Json.quote (fst kv) +:+ ":"
                                 +:+ Json.stringify (snd kv))
                      ((k, x) :: members))
               +:+ String "}" rest = String Json.dq t').
    { cbn [map Json.commaSep fst]. unfold Json.quote.
      destruct (map _ members); rewrite !str_append_cons; eauto. }
    destruct Hhead as (t' & Ht').
    rewrite Ht', (readValue_object fuel Json.dq t'), <- Ht'
      by discriminate.
    rewrite (readMembers_commaSep ((k, x) :: members));
      [reflexivity|discriminate| |].
    + exact IH.
    + cbn [valueSize] in Hfuel. lia.
Qed.

Lemma str_length_append (a b : string) :
  String.length (a +:+ b) = String.length a + String.length b.
Proof.
  induction a as [|c a IH]; [reflexivity|].
  rewrite str_append_cons. cbn [String.length]. now rewrite IH.
Qed.

Lemma size_commaSep (texts : list string) (sizes : list nat) :
  Forall2 (fun n t => n <= String.length t) sizes texts ->
  list_sum (map S sizes) <= S (String.length (Json.commaSep texts)).
Proof.
  induction 1 as [|n t sizes texts Hn Hall IH]; [cbn; lia|].
  destruct texts as [|u texts].
  - inversion Hall; subst. cbn. lia.
  - rewrite commaSep_more, !str_length_append.
    cbn [map list_sum fold_right String.length] in *.
    fold (list_sum (map S sizes)) in *. lia.
Qed.

Lemma size_le_length (v : Json.value) :
  valueSize v <= String.length (Json.stringify v).
Proof.
  induction v as [|b|n|s|items IH|members IH] using value_induction.
  - cbn. lia.
  - destruct b; cbn; lia.
  - destruct (stringify_opens (Json.Num n)) as (c & t & -> & _). cbn. lia.
  - cbn. lia.
  - cbn [valueSize Json.stringify]. rewrite !str_length_append. cbn [String.length].
    rewrite <- (map_map valueSize S).
    pose proof (size_commaSep (map Json.stringify items) (map valueSize items))
      as Hsum.
    assert (Hall : Forall2 (fun n t => n <= String.length t)
                     (map valueSize items) (map Json.stringify items)).
    { clear Hsum. induction IH as [|x items Hx _ IHitems];
        [simpl; constructor|simpl; constructor; [exact Hx|exact IHitems]]. }
    specialize (Hsum Hall). lia.
  - cbn [valueSize Json.stringify]. rewrite !str_length_append. cbn [String.length].
    rewrite <- (map_map (fun kv => valueSize (snd kv)) S).
    pose proof (size_commaSep
                  (map (fun kv => Json.quote (fst kv) +:+ ":"
                                  +:+ Json.stringify (snd kv)) members)
                  (map (fun kv => valueSize (snd kv)) members)) as Hsum.
    assert (Hall : Forall2 (fun n t => n <= String.length t)
                     (map (fun kv => valueSize (snd kv)) members)
                     (map (fun kv => Json.quote (fst kv) +:+ ":"
                                     +:+ Json.stringify (snd kv)) members)).
    { clear Hsum. induction IH as [|[k x] members Hx _ IHm];
        [simpl; constructor|simpl; constructor; [|exact IHm]].
      rewrite !str_length_append. cbn [snd] in *. lia. }
    specialize (Hsum Hall). lia.
Qed.

(** Every value is JSON-serialisable for the reference codec. *)
Lemma parse_stringify (v : Json.value) :
  Json.parse (Json.stringify v) = Some v.
Proof.
  unfold Json.parse.
  pose proof (stringify_readsBack v (S (String.length (Json.stringify v))) ""
                ltac:(pose proof (size_le_length v); lia) I) as Hread.
  assert (Happ : forall s, s +:+ "" = s).
  { induction s as [|c s IH]; [reflexivity|]. now rewrite str_append_cons, IH. }
  rewrite Happ in Hread. now rewrite Hread.
Qed.

Lemma reference_codec_serialisable (v : Json.value) :
  serialisable refStringify refParse v.
Proof.
  exists (Json.stringify v). split; [reflexivity|].
  split; [|apply parse_stringify].
  destruct (stringify_opens v) as (c & t & -> & _). discriminate.
Qed.

(** ** The storage helpers (C10) *)

Lemma setItem_getItem (key text : string) (ls ls' : LocalStorage.t) :
  LocalStorage.setItem key text ls = Some ls' ->
  LocalStorage.getItem key ls' = Some (Some text).
Proof.
  unfold LocalStorage.setItem, LocalStorage.getItem.
  destruct (LocalStorage.denied ls) eqn:Hd; [discriminate|].
  destruct (_ <? _)%nat; [discriminate|]. intros [= <-]. cbn.
  now rewrite lookup_insert_eq.
Qed.

Lemma storage_get_default (parse : string -> option Json.value)
      (key : string) (d : Json.value) (ls : LocalStorage.t) :
  (LocalStorage.getItem key ls = Some None ->
   Utils.storage_get parse key d ls = d)
  /\ (LocalStorage.getItem key ls = None ->
      Utils.storage_get parse key d ls = d)
  /\ (forall item, LocalStorage.getItem key ls = Some (Some item) ->
                   parse item = None ->
                   Utils.storage_get parse key d ls = d).
Proof.
  unfold Utils.storage_get. repeat split.
  - now intros ->.
  - now intros ->.
  - intros item -> Hparse. destruct item; [reflexivity|]. now rewrite Hparse.
Qed.

Lemma storage_set_get (stringify : Json.value -> option string)
      (parse : string -> option Json.value)
      (key : string) (v d : Json.value) (ls ls' : LocalStorage.t) :
  serialisable stringify parse v ->
  Utils.storage_set stringify key v ls = (true, ls') ->
  Utils.storage_get parse key d ls' = v.
Proof.
  intros (text & Hstr & Hne & Hparse). unfold Utils.storage_set.
  rewrite Hstr.
  destruct (LocalStorage.setItem key text ls) as [ls1|] eqn:Hset;
    [|discriminate].
  intros [= <-]. unfold Utils.storage_get.
  rewrite (setItem_getItem key text ls ls1 Hset).
  destruct text as [|c rest]; [contradiction|]. now rewrite Hparse.
Qed.

(** C10: for a JSON-serialisable value, [storage.get] after a successful
    [storage.set] of the same key returns the value; [storage.get]
    returns the default when the key has no item, when reading throws
    and when parsing throws. *)
Theorem storage_round_trip
        (stringify : Json.value -> option string)
        (parse : string -> option Json.value) :
  (forall (key : string) (v d : Json.value) (ls ls' : LocalStorage.t),
      serialisable stringify parse v ->
      Utils.storage_set stringify key v ls = (true, ls') ->
      Utils.storage_get parse key d ls' = v)
  /\ (forall (key : string) (d : Json.value) (ls : LocalStorage.t),
        (LocalStorage.getItem key ls = Some None ->
         Utils.storage_get parse key d ls = d)
        /\ (LocalStorage.getItem key ls = None ->
            Utils.storage_get parse key d ls = d)
        /\ (forall item, LocalStorage.getItem key ls = Some (Some item) ->
                         parse item = None ->
                         Utils.storage_get parse key d ls = d)).
Proof.
  split.
  - intros key v d ls ls'. apply storage_set_get.
  - intros key d ls. apply storage_get_default.
Qed.

Lemma storage_round_trip_witness :
  serialisable refStringify refParse skipRecord
  /\ fst (Utils.storage_set refStringify "welcomeSkipped" skipRecord
                            emptyStorage) = true
  /\ Utils.storage_get refParse "welcomeSkipped" Json.Null
       (snd (Utils.storage_set refStringify "welcomeSkipped" skipRecord
                               emptyStorage))
     = skipRecord
  /\ Utils.storage_get refParse "welcomeSkipped" Json.Null emptyStorage
     = Json.Null.
Proof.
  assert (Hser : serialisable refStringify refParse skipRecord).
  { exists (Json.stringify skipRecord). split; [reflexivity|].
    split; [vm_compute; discriminate|]. vm_compute. reflexivity. }
  split; [exact Hser|]. split; [reflexivity|].
  destruct (storage_round_trip refStringify refParse) as [Hset Hget].
  split.
  - apply (Hset "welcomeSkipped" skipRecord Json.Null emptyStorage _ Hser).
    reflexivity.
  - apply (proj1 (Hget "welcomeSkipped" Json.Null emptyStorage)).
    vm_compute. reflexivity.
Defined.

(* ===================================================================== *)
(** * Part III: further properties of the code                           *)
(* ===================================================================== *)

Lemma str_append_nil (s : string) : s +:+ "" = s.
Proof. induction s as [|c s IH]; [reflexivity|]. now rewrite str_append_cons, IH. Qed.

Lemma trimStart_blank (lead rest : string) :
  blank lead -> Js.trimStart (lead +:+ rest) = Js.trimStart rest.
Proof.
  unfold blank. induction lead as [|c lead IH]; [reflexivity|].
  cbn [allChars]. intros [Hc Hl]%andb_true_iff.
  rewrite str_append_cons. cbn [Js.trimStart]. rewrite Hc. auto.
Qed.

Lemma trimStart_word (w rest : string) :
  word w -> Js.trimStart (w +:+ rest) = w +:+ rest.
Proof.
  intros [Hne Hw]. destruct w as [|c w]; [contradiction|].
  cbn [allChars] in Hw. apply andb_true_iff in Hw. destruct Hw as [Hc _].
  rewrite str_append_cons. cbn [Js.trimStart].
  now destruct (Js.isWhiteSpace c).
Qed.

Lemma trimEnd_blank (trail : string) : blank trail -> Js.trimEnd trail = "".
Proof.
  unfold blank. induction trail as [|c trail IH]; [reflexivity|].
  cbn [allChars]. intros [Hc Hl]%andb_true_iff.
  cbn [Js.trimEnd]. now rewrite (IH Hl), Hc.
Qed.

Lemma trimEnd_app_blank (s trail : string) :
  blank trail -> Js.trimEnd (s +:+ trail) = Js.trimEnd s.
Proof.
  intros Hb. induction s as [|c s IH].
  - now apply trimEnd_blank.
  - rewrite str_append_cons. cbn [Js.trimEnd]. now rewrite IH.
Qed.

Lemma trimEnd_word (w : string) : word w -> Js.trimEnd w = w.
Proof.
  intros [Hne Hw]. induction w as [|c w IH]; [contradiction|].
  cbn [allChars] in Hw. apply andb_true_iff in Hw. destruct Hw as [Hc Hw].
  cbn [Js.trimEnd]. destruct w as [|d w].
  - cbn. now destruct (Js.isWhiteSpace c).
  - now rewrite IH.
Qed.

Lemma trimEnd_app_word (s w : string) :
  word w -> Js.trimEnd (s +:+ w) = s +:+ w.
Proof.
  intros Hw. induction s as [|c s IH].
  - now apply trimEnd_word.
  - rewrite str_append_cons. cbn [Js.trimEnd]. rewrite IH.
    destruct (s +:+ w) as [|d r] eqn:E; [|reflexivity].
    destruct Hw as [Hne _]. destruct s; cbn in E; [contradiction|discriminate].
Qed.

Lemma splitRuns_word (inRun : bool) (piece w rest : string) :
  word w ->
  Js.splitRuns inRun piece (w +:+ rest) = Js.splitRuns false (piece +:+ w) rest.
Proof.
  intros [Hne Hw]. revert inRun piece.
  induction w as [|c w IH]; [contradiction|]. intros inRun piece.
  cbn [allChars] in Hw. apply andb_true_iff in Hw. destruct Hw as [Hc Hw].
  rewrite str_append_cons. cbn [Js.splitRuns].
  destruct (Js.isWhiteSpace c); [discriminate|].
  destruct w as [|d w].
  - reflexivity.
  - rewrite IH by (assumption || discriminate).
    now rewrite str_append_assoc.
Qed.

Lemma splitRuns_in_gap (piece g rest : string) :
  blank g -> Js.splitRuns true piece (g +:+ rest) = Js.splitRuns true piece rest.
Proof.
  unfold blank. induction g as [|c g IH]; [reflexivity|].
  cbn [allChars]. intros [Hc Hg]%andb_true_iff.
  rewrite str_append_cons. cbn [Js.splitRuns]. rewrite Hc. auto.
Qed.

Lemma splitRuns_gap (piece g rest : string) :
  gap g ->
  Js.splitRuns false piece (g +:+ rest)
  = piece :: Js.splitRuns true "" rest.
Proof.
  intros [Hne Hg]. destruct g as [|c g]; [contradiction|].
  unfold blank in Hg. cbn [allChars] in Hg.
  apply andb_true_iff in Hg. destruct Hg as [Hc Hg].
  rewrite str_append_cons. cbn [Js.splitRuns]. rewrite Hc.
  now rewrite splitRuns_in_gap.
Qed.

(** The text after the first word. *)
Lemma spaced_pieces (piece w0 : string) (more : list (string * string)) :
  word w0 -> wellSpaced more ->
  length (Js.splitRuns false piece (spaced w0 more)) = S (length more).
Proof.
  revert piece w0. unfold wellSpaced.
  induction more as [|[g w] more IH]; intros piece w0 Hw0 Hall.
  - cbn [spaced]. rewrite <- (str_append_nil w0) at 1.
    rewrite splitRuns_word by assumption. reflexivity.
  - apply Forall_cons in Hall. destruct Hall as [[Hg Hw] Hall].
    cbn [spaced]. rewrite splitRuns_word by assumption.
    rewrite splitRuns_gap by assumption. cbn [length]. f_equal.
    destruct more as [|[g' w'] more'].
    + cbn [spaced]. rewrite <- (str_append_nil w) at 1.
      rewrite splitRuns_word by assumption. reflexivity.
    + cbn [spaced]. rewrite splitRuns_word by assumption.
      specialize (IH EmptyString w Hw Hall). cbn [spaced] in IH.
      rewrite splitRuns_word in IH by assumption. exact IH.
Qed.

Lemma spaced_ends_in_word (w0 : string) (more : list (string * string)) :
  word w0 -> wellSpaced more ->
  exists body w, spaced w0 more = body +:+ w /\ word w.
Proof.
  revert w0. unfold wellSpaced.
  induction more as [|[g w] more IH]; intros w0 Hw0 Hall.
  - exists "", w0. now split.
  - apply Forall_cons in Hall. destruct Hall as [[Hg Hw] Hall].
    destruct (IH w Hw Hall) as (body & w' & E & Hw').
    exists (w0 +:+ g +:+ body), w'. split; [|assumption].
    cbn [spaced]. rewrite E. now rewrite !str_append_assoc.
Qed.

Lemma spaced_starts_with_word (w0 : string) (more : list (string * string)) :
  exists rest, spaced w0 more = w0 +:+ rest.
Proof.
  destruct more as [|[g w] more].
  - exists "". cbn. now rewrite str_append_nil.
  - now exists (g +:+ spaced w more).
Qed.

Lemma trim_spaced (lead trail w0 : string) (more : list (string * string)) :
  blank lead -> blank trail -> word w0 -> wellSpaced more ->
  Js.trim (lead +:+ spaced w0 more +:+ trail) = spaced w0 more.
Proof.
  intros Hl Ht Hw0 Hall. unfold Js.trim.
  rewrite trimStart_blank by assumption.
  destruct (spaced_starts_with_word w0 more) as [rest Erest].
  rewrite Erest, str_append_assoc, trimStart_word, <- str_append_assoc,
    <- Erest by assumption.
  rewrite trimEnd_app_blank by assumption.
  destruct (spaced_ends_in_word w0 more Hw0 Hall) as (body & w & E & Hw).
  rewrite E. now apply trimEnd_app_word.
Qed.

Lemma trim_blank (text : string) : blank text -> Js.trim text = "".
Proof.
  intros Hb. unfold Js.trim.
  rewrite <- (str_append_nil text), trimStart_blank by assumption.
  reflexivity.
Qed.

Lemma ceiling_bounds (m k : nat) :
  (((S m + S k - 1) / S k) - 1) * S k < S m
  /\ S m <= ((S m + S k - 1) / S k) * S k.
Proof.
  pose proof (Nat.div_mod_eq (S m + S k - 1) (S k)) as E.
  pose proof (Nat.mod_upper_bound (S m + S k - 1) (S k)) as B.
  set (q := (S m + S k - 1) / S k) in *.
  set (r := (S m + S k - 1) mod S k) in *. nia.
Qed.

(** X3: for a text of [n] words (at least one) separated by white
    space, with any white space around it, [calculateReadTime] answers
    ["<time> min"] where [time] is [n] divided by the rate and rounded
    up: [(time - 1) * rate < n <= time * rate]. *)
Theorem calculateReadTime_rounds_up_the_words
        (lead trail w0 : string) (more : list (string * string)) (k : nat) :
  blank lead -> blank trail -> word w0 -> wellSpaced more ->
  exists time,
    Utils.calculateReadTime (lead +:+ spaced w0 more +:+ trail) (Some (S k))
    = Js.decimal time +:+ " min"
    /\ (time - 1) * S k < S (length more) <= time * S k.
Proof.
  intros Hl Ht Hw0 Hall. unfold Utils.calculateReadTime.
  rewrite trim_spaced by assumption. unfold Js.splitWhiteSpace.
  rewrite spaced_pieces by assumption.
  exists ((S (length more) + S k - 1) / S k). split; [reflexivity|].
  apply ceiling_bounds.
Qed.

Lemma calculateReadTime_rounds_up_the_words_witness :
  exists time,
    Utils.calculateReadTime "  one two	three " (Some 2)
    = Js.decimal time +:+ " min"
    /\ (time - 1) * 2 < 3 <= time * 2.
Proof.
  apply (calculateReadTime_rounds_up_the_words
           "  " " " "one" [(" ", "two"); ("	", "three")] 1);
    vm_compute; repeat constructor; discriminate.
Defined.

(** X4: for a text without any word (empty or white space only)
    [calculateReadTime] answers ["1 min"], never ["0 min"]: the split
    of the trimmed text still yields one (empty) piece. *)
Theorem calculateReadTime_blank_text (text : string) (k : nat) :
  blank text ->
  Utils.calculateReadTime text (Some (S k)) = "1 min"
  /\ Utils.calculateReadTime text None = "1 min".
Proof.
  intros Hb. unfold Utils.calculateReadTime. rewrite trim_blank by assumption.
  cbn [Js.splitWhiteSpace Js.splitRuns length].
  replace ((1 + S k - 1) / S k) with 1; [split; reflexivity|].
  replace (1 + S k - 1) with (1 * S k) by lia. now rewrite Nat.div_mul.
Qed.

Lemma calculateReadTime_blank_text_witness :
  Utils.calculateReadTime " 	 " (Some 200) = "1 min"
  /\ Utils.calculateReadTime " 	 " None = "1 min".
Proof. apply (calculateReadTime_blank_text " 	 " 199). reflexivity. Defined.

(** ** debounce and throttle *)

Section DebounceFacts.
Context {A : Type}.
Implicit Types (d : Utils.Debounced A) (a : A).

Lemma clearTimeout_armed (args : option A) d :
  armedWith args d -> Utils.clearTimeout (Utils.timeout d) (Utils.timers d) = [].
Proof.
  destruct args as [a|]; cbn.
  - intros (i & -> & ->). cbn. now rewrite Nat.eqb_refl.
  - intros ->. now destruct (Utils.timeout d).
Qed.

Lemma executedFunction_armed (args : option A) a d :
  armedWith args d ->
  armedWith (Some a) (Utils.executedFunction a d)
  /\ Utils.ran (Utils.executedFunction a d) = Utils.ran d.
Proof.
  intros Harm. unfold Utils.executedFunction.
  rewrite (clearTimeout_armed args d Harm). cbn. eauto.
Qed.

Lemma debounced_calls (args : option A) (b : list A) d :
  armedWith args d ->
  armedWith (match last b with Some a => Some a | None => args end)
            (Utils.debounced_run (map Utils.Call b) d)
  /\ Utils.ran (Utils.debounced_run (map Utils.Call b) d) = Utils.ran d.
Proof.
  revert args d. induction b as [|a b IH]; intros args d Harm; [now split|].
  cbn [map Utils.debounced_run fold_left Utils.debounced_fire].
  destruct (executedFunction_armed args a d Harm) as [Harm' Hran].
  destruct (IH (Some a) _ Harm') as [Harm'' Hran'].
  fold (Utils.debounced_run (map Utils.Call b) (Utils.executedFunction a d)).
  rewrite Hran', Hran. split; [|reflexivity].
  destruct b as [|a' b]; [exact Harm''|].
  change (last (a :: a' :: b)) with (last (a' :: b)).
  destruct (last (a' :: b)) eqn:E; [exact Harm''|].
  now apply last_None in E.
Qed.

Lemma debounced_timer (args : option A) d :
  armedWith args d ->
  armedWith None (Utils.debounced_fire d Utils.TimerDue)
  /\ Utils.ran (Utils.debounced_fire d Utils.TimerDue)
     = Utils.ran d ++ match args with Some a => [a] | None => [] end.
Proof.
  destruct args as [a|]; cbn [armedWith Utils.debounced_fire].
  - intros (i & Ht & ->). cbn. rewrite Ht. cbn. now split.
  - intros Ht. rewrite Ht. cbn. now rewrite app_nil_r.
Qed.

End DebounceFacts.

(** X1: the function that [debounce] returns runs [func] once for every
    burst of calls that is followed by its timer coming due, with the
    arguments of the last call of the burst, and in the order of the
    bursts; a call itself never runs [func], and the calls after the
    last timer have not run it yet. *)
Theorem debounce_runs_the_last_call_of_each_burst
        (A : Type) (windows : list (list A)) (tail : list A) :
  Utils.ran (Utils.debounced_run (bursts windows tail) Utils.debounce)
  = omap last windows.
Proof.
  assert (Hgen : forall d : Utils.Debounced A,
             armedWith None d ->
             Utils.ran (Utils.debounced_run (bursts windows tail) d)
             = Utils.ran d ++ omap last windows).
  { unfold bursts. induction windows as [|b windows IH]; intros d Harm.
    - cbn [flat_map app omap]. rewrite app_nil_r.
      now destruct (debounced_calls None tail d Harm).
    - cbn [flat_map]. unfold Utils.debounced_run in *.
      rewrite <- !app_assoc, fold_left_app. cbn [app fold_left].
      destruct (debounced_calls None b d Harm) as [Hb Hran].
      unfold Utils.debounced_run in Hb, Hran.
      destruct (debounced_timer _ _ Hb) as [Hnone Hran'].
      rewrite (IH _ Hnone), Hran', Hran, <- app_assoc. f_equal.
      cbn [omap]. unfold omap, list_omap. now destruct (last b). }
  now rewrite (Hgen Utils.debounce).
Qed.

Section ThrottleFacts.
Context {A : Type}.
Implicit Types (t : Utils.Throttled A) (a : A).

Lemma throttled_dropped (b : list A) t :
  Utils.inThrottle t = true ->
  Utils.throttled_run (map Utils.Call b) t = t.
Proof.
  intros Hin. induction b as [|a b IH]; [reflexivity|].
  cbn. rewrite Hin. exact IH.
Qed.

Lemma throttled_calls (b : list A) (log : list A) :
  Utils.throttled_run (map Utils.Call b) (Utils.mkThrottled false 0 log)
  = match b with
    | [] => Utils.mkThrottled false 0 log
    | a :: _ => Utils.mkThrottled true 1 (log ++ [a])
    end.
Proof.
  destruct b as [|a b]; [reflexivity|]. cbn [map].
  change (Utils.throttled_run (Utils.Call a :: map Utils.Call b) ?t)
    with (Utils.throttled_run (map Utils.Call b)
            (Utils.throttled_fire t (Utils.Call a))).
  cbn [Utils.throttled_fire Utils.inThrottle Utils.resets Utils.passed].
  now apply throttled_dropped.
Qed.

End ThrottleFacts.

(** X2: the function that [throttle] returns runs [func] at once for the
    first call of every window between two resets, with that call's
    arguments; the other calls of the window are dropped and are not
    made up for when the timer comes due. *)
Theorem throttle_runs_the_first_call_of_each_window
        (A : Type) (windows : list (list A)) (tail : list A) :
  Utils.passed (Utils.throttled_run (bursts windows tail) Utils.throttle)
  = omap head windows ++ option_list (head tail).
Proof.
  assert (Hgen : forall log : list A,
             Utils.passed (Utils.throttled_run (bursts windows tail)
                             (Utils.mkThrottled false 0 log))
             = log ++ omap head windows ++ option_list (head tail)).
  { unfold bursts. induction windows as [|b windows IH]; intros log.
    - cbn [flat_map app omap]. rewrite throttled_calls.
      destruct tail; cbn; now rewrite ?app_nil_r.
    - cbn [flat_map]. unfold Utils.throttled_run in *.
      rewrite <- !app_assoc, fold_left_app. cbn [app fold_left].
      pose proof (throttled_calls b log) as Hb.
      unfold Utils.throttled_run in Hb. rewrite Hb.
      destruct b as [|a b];
        cbn [Utils.throttled_fire Utils.resets Utils.passed].
      + now rewrite IH.
      + rewrite IH, <- app_assoc. reflexivity. }
  exact (Hgen []).
Qed.

(** ** storage: removal and other keys *)

Lemma getItem_other (key other text : string) (ls ls' : LocalStorage.t) :
  other <> key ->
  LocalStorage.setItem key text ls = Some ls' ->
  LocalStorage.getItem other ls' = LocalStorage.getItem other ls.
Proof.
  intros Hne. unfold LocalStorage.setItem, LocalStorage.getItem.
  destruct (LocalStorage.denied ls) eqn:Hd; [discriminate|].
  destruct (_ <? _)%nat; [discriminate|]. intros [= <-]. cbn. rewrite ?Hd.
  now rewrite lookup_insert_ne by congruence.
Qed.

(** X5: after a [storage.remove] that reports success, [storage.get]
    of that key returns the default, and every other key reads as
    before. *)
Theorem storage_remove_forgets_the_key
        (parse : string -> option Json.value) (key : string)
        (ls ls' : LocalStorage.t) :
  Utils.storage_remove key ls = (true, ls') ->
  (forall d, Utils.storage_get parse key d ls' = d)
  /\ (forall other d, other <> key ->
        Utils.storage_get parse other d ls'
        = Utils.storage_get parse other d ls).
Proof.
  unfold Utils.storage_remove, LocalStorage.removeItem.
  destruct (LocalStorage.denied ls) eqn:Hd; [discriminate|].
  intros [= <-]. split.
  - intros d. unfold Utils.storage_get, LocalStorage.getItem. cbn.
    now rewrite ?Hd, lookup_delete_eq.
  - intros other d Hne. unfold Utils.storage_get, LocalStorage.getItem. cbn.
    rewrite ?Hd. now rewrite lookup_delete_ne by congruence.
Qed.

Lemma storage_remove_forgets_the_key_witness :
  Utils.storage_get refParse "welcomeSkipped" (Json.Num 7)
    (snd (Utils.storage_remove "welcomeSkipped"
            (snd (Utils.storage_set refStringify "welcomeSkipped" skipRecord
                                    emptyStorage))))
  = Json.Num 7.
Proof.
  apply (proj1 (storage_remove_forgets_the_key refParse "welcomeSkipped"
                  (snd (Utils.storage_set refStringify "welcomeSkipped"
                          skipRecord emptyStorage))
                  _ eq_refl)).
Defined.

(** X6: [storage.set] never disturbs another key, and when it reports
    failure (the value cannot be serialised, or [setItem] throws) the
    store is exactly as it was. *)
Theorem storage_set_keeps_other_keys
        (stringify : Json.value -> option string)
        (parse : string -> option Json.value)
        (key : string) (v : Json.value) (ls : LocalStorage.t) :
  let result := Utils.storage_set stringify key v ls in
  (forall other d, other <> key ->
     Utils.storage_get parse other d (snd result)
     = Utils.storage_get parse other d ls)
  /\ (fst result = false -> snd result = ls).
Proof.
  cbv zeta. unfold Utils.storage_set.
  destruct (stringify v) as [text|]; [|now split].
  destruct (LocalStorage.setItem key text ls) as [ls'|] eqn:Hset;
    [|now split].
  cbn [fst snd]. split; [|discriminate]. intros other d Hne.
  unfold Utils.storage_get.
  now rewrite (getItem_other key other text ls ls' Hne Hset).
Qed.

(** ** escapeHtml *)

Lemma escapeChar_cases (c : ascii) :
  (c = "&"%char /\ Utils.escapeChar c = "&amp;")
  \/ (c = "<"%char /\ Utils.escapeChar c = "&lt;")
  \/ (c = ">"%char /\ Utils.escapeChar c = "&gt;")
  \/ (c <> "&"%char /\ Utils.escapeChar c = String c "").
Proof.
  unfold Utils.escapeChar.
  destruct (Ascii.eqb_spec c "&"); [now left|].
  destruct (Ascii.eqb_spec c "<"); [now right; left|].
  destruct (Ascii.eqb_spec c ">"); [now right; right; left|].
  now right; right; right.
Qed.

Lemma str_append_empty (x : string) : "" +:+ x = x.
Proof. reflexivity. Qed.

Lemma escapeChar_prefix (c d : ascii) (x y : string) :
  Utils.escapeChar c +:+ x = Utils.escapeChar d +:+ y -> c = d /\ x = y.
Proof.
  destruct (escapeChar_cases c) as [[-> ->]|[[-> ->]|[[-> ->]|[Hc ->]]]];
    destruct (escapeChar_cases d) as [[-> ->]|[[-> ->]|[[-> ->]|[Hd ->]]]];
    rewrite ?str_append_cons, ?str_append_empty; intros E; inversion E;
    subst;
    try contradiction; try (split; reflexivity).
Qed.

(** X7: [escapeHtml] loses nothing: two texts with the same escaped
    form are the same text. *)
Theorem escapeHtml_loses_nothing (a b : string) :
  Utils.escapeHtml a = Utils.escapeHtml b -> a = b.
Proof.
  revert b. induction a as [|c a IH]; intros [|d b]; cbn [Utils.escapeHtml].
  - reflexivity.
  - destruct (escapeChar_cases d) as [[_ ->]|[[_ ->]|[[_ ->]|[_ ->]]]];
      discriminate.
  - destruct (escapeChar_cases c) as [[_ ->]|[[_ ->]|[[_ ->]|[_ ->]]]];
      discriminate.
  - intros E. apply escapeChar_prefix in E. destruct E as [-> E].
    now rewrite (IH b E).
Qed.

Lemma escapeHtml_loses_nothing_witness : "a<b & c" = "a<b & c".
Proof. apply (escapeHtml_loses_nothing "a<b & c" "a<b & c"). reflexivity. Defined.

Lemma occurrences_app (c : ascii) (x y : string) :
  occurrences c (x +:+ y) = occurrences c x + occurrences c y.
Proof.
  induction x as [|d x IH]; [reflexivity|].
  rewrite str_append_cons. cbn [occurrences]. rewrite IH. lia.
Qed.

(** X8: [escapeHtml] leaves both kinds of quotes alone: the escaped
    text holds as many double and single quotes as the text, so inside a
    quoted attribute (as in [alt="..."] of a card) a quote of the value
    still ends the attribute. *)
Theorem escapeHtml_keeps_quotes (text : string) :
  occurrences Json.dq (Utils.escapeHtml text) = occurrences Json.dq text
  /\ occurrences "'" (Utils.escapeHtml text) = occurrences "'" text.
Proof.
  induction text as [|c text [IHd IHs]]; [now split|].
  cbn [Utils.escapeHtml]. rewrite !occurrences_app, IHd, IHs.
  destruct (escapeChar_cases c) as [[-> ->]|[[-> ->]|[[-> ->]|[_ ->]]]];
    cbn [occurrences]; split; (reflexivity || lia).
Qed.

Lemma akin_refl (s : Blog.BlogSystem) : akin s s.
Proof. unfold akin. tauto. Qed.

Lemma akin_trans (s t u : Blog.BlogSystem) : akin s t -> akin t u -> akin s u.
Proof.
  unfold akin.
  intros (H1 & H2 & H3 & H4 & H5 & H6 & H7 & H8)
         (K1 & K2 & K3 & K4 & K5 & K6 & K7 & K8).
  rewrite K1, K2, K3, K4, K5, K6, K7, H1, H2, H3, H4, H5, H6, H7.
  repeat (split; [tauto|]). intros Hp. rewrite K8, H8; congruence.
Qed.

Lemma akin_render (append : bool) (s : Blog.BlogSystem) :
  akin s (Blog.render append s).
Proof.
  destruct (render_data append s) as (H1 & H2 & H3 & H4 & _ & _ & _ & H8).
  unfold akin. rewrite H1, H2, H3, H4, H8.
  repeat (split; [reflexivity|]).
  destruct (Blog.container (Blog.dom s)) as [kids|] eqn:Hk.
  - rewrite (render_dom append s kids Hk). unfold controlAfter.
    destruct (take _ _); cbn; destruct (Blog.loadMore (Blog.dom s)) eqn:Hl;
      rewrite ?Hl; repeat split; try tauto; try congruence;
      intros ->; reflexivity.
  - unfold Blog.render. rewrite Hk. tauto.
Qed.

Lemma akin_setFilter (filter : string) (s : Blog.BlogSystem) :
  akin s (Blog.setFilter filter s).
Proof.
  unfold Blog.setFilter.
  eapply akin_trans; [|apply akin_render]. unfold akin. cbn. tauto.
Qed.

Lemma akin_loadMoreClick (s : Blog.BlogSystem) : akin s (Blog.loadMoreClick s).
Proof.
  unfold Blog.loadMoreClick.
  destruct (Blog.container (Blog.dom s)); [|apply akin_refl].
  destruct (Blog.loadMoreBtn (Blog.dom s)).
  - eapply akin_trans; [|apply akin_render]. unfold akin. cbn. tauto.
  - apply akin_refl.
Qed.

Lemma akin_afterClicks (n : nat) (filter : string) (s : Blog.BlogSystem) :
  akin s (afterClicks n filter s).
Proof.
  induction n as [|n IH]; [apply akin_setFilter|].
  change (afterClicks (S n) filter s)
    with (Blog.loadMoreClick (afterClicks n filter s)).
  eapply akin_trans; [exact IH|apply akin_loadMoreClick].
Qed.

(** A render that replaces the grid and shows at least one card forgets
    what the page held before. *)
Lemma render_fresh_akin (s t : Blog.BlogSystem) :
  akin s t ->
  Blog.filteredPosts t = Blog.filteredPosts s ->
  Blog.currentFilter t = Blog.currentFilter s ->
  Blog.currentPage t = Blog.currentPage s ->
  Blog.cards (Blog.render false s) <> [] ->
  Blog.render false t = Blog.render false s.
Proof.
  destruct s as [pp pv pc ps fs cf cp [c lm btn]].
  destruct t as [pp' pv' pc' ps' fs' cf' cp' [c' lm' btn']].
  unfold akin. cbn.
  intros (-> & -> & -> & -> & Hc & -> & Hl & Hp) -> -> ->.
  unfold Blog.render, Blog.cards. cbn.
  destruct c as [kids|]; [|intros H; now contradiction H].
  destruct c' as [kids'|]; [|exfalso; destruct Hc as [Hc _];
                              now specialize (Hc eq_refl)].
  destruct (take _ fs) as [|p shown]; [intros H; now contradiction H|].
  intros _. unfold Blog.updateLoadMoreButton. cbn.
  destruct lm as [d|], lm' as [d'|]; cbn;
    try (exfalso; destruct Hl as [Hl1 Hl2];
         (now specialize (Hl1 eq_refl)) || (now specialize (Hl2 eq_refl))).
  - destruct pv; [|now destruct (_ <=? _)%nat].
    specialize (Hp eq_refl). now inversion Hp.
  - reflexivity.
Qed.

(** X10: a filter click that shows at least one card leaves the same
    state whatever filter was chosen and however often "load more" was
    clicked before. *)
Theorem setFilter_forgets_history
        (filter earlier : string) (n : nat) (s : Blog.BlogSystem) :
  Blog.cards (Blog.setFilter filter s) <> [] ->
  Blog.setFilter filter (afterClicks n earlier s) = Blog.setFilter filter s.
Proof.
  intros Hcards. pose proof (akin_afterClicks n earlier s) as Hakin.
  set (t := afterClicks n earlier s) in *.
  assert (Hposts : Blog.posts t = Blog.posts s) by apply Hakin.
  unfold Blog.setFilter in *. rewrite Hposts.
  apply render_fresh_akin; try reflexivity; [|exact Hcards].
  revert Hakin. unfold akin. cbn. tauto.
Qed.

Lemma setFilter_forgets_history_witness :
  let s := Blog.create noOptions listingPage (fetched tenPosts) in
  Blog.setFilter "web-dev" (afterClicks 3 "video" s)
  = Blog.setFilter "web-dev" s.
Proof.
  cbv zeta. apply setFilter_forgets_history. vm_compute. discriminate.
Defined.

Lemma countOr_positive (o : option nat) (d : nat) :
  1 <= d -> 1 <= Blog.countOr o d.
Proof. destruct o as [[|n]|]; cbn; lia. Qed.

(** What the constructor leaves on a listing page. *)
Lemma create_listing (options : Blog.Options) (page : Blog.Page)
      (o : FetchOutcome) :
  Blog.container page <> None ->
  Blog.loadMore page <> None ->
  Blog.loadMoreBtn page = true ->
  Blog.opt_isPreview options <> Some true ->
  let s0 := Blog.create options page o in
  Blog.container (Blog.dom s0) <> None
  /\ Blog.loadMore (Blog.dom s0) <> None
  /\ Blog.loadMoreBtn (Blog.dom s0) = true
  /\ Blog.isPreview s0 = false
  /\ 1 <= Blog.postsPerPage s0.
Proof.
  intros Hc Hl Hb Hp. cbv zeta. unfold Blog.create.
  destruct (Blog.container page) as [kids|] eqn:Hk; [|contradiction].
  set (s := Blog.mkBlog _ _ _ _ _ _ _ _). unfold Blog.init.
  set (t := Blog.loadPosts o (Blog.showLoading s)).
  assert (Ht : Blog.postsPerPage t = Blog.postsPerPage s
               /\ Blog.isPreview t = Blog.isPreview s
               /\ Blog.container (Blog.dom t) <> None
               /\ Blog.loadMore (Blog.dom t) = Blog.loadMore page
               /\ Blog.loadMoreBtn (Blog.dom t) = Blog.loadMoreBtn page).
  { subst t s. unfold Blog.loadPosts, Blog.showLoading, Blog.showError.
    cbn [Blog.dom]. rewrite Hk.
    destruct (Utils.fetchJSON o) as [|[| |ps]]; cbn;
      repeat split; discriminate. }
  destruct Ht as (T1 & T2 & T3 & T4 & T5).
  destruct (akin_render false t) as (H1 & H2 & _ & _ & H5 & H6 & H7 & _).
  rewrite H1, H2, H5, H6, H7, T1, T2, T4, T5. subst s. cbn.
  repeat split; try assumption.
  - destruct (Blog.opt_isPreview options) as [[|]|]; congruence.
  - apply countOr_positive. lia.
Qed.

(** X9: on a listing page, whatever options the instance was created
    with (a page size of 0 falls back to 9) and whatever the fetch
    delivered, [n] load-more clicks after a filter click show every
    matching post as soon as [n + 1] reaches their number, and then hide
    the control if there is any. *)
Theorem loadMore_reaches_every_post
        (options : Blog.Options) (page : Blog.Page) (o : FetchOutcome)
        (filter : string) (n : nat) :
  Blog.container page <> None ->
  Blog.loadMore page <> None ->
  Blog.loadMoreBtn page = true ->
  Blog.opt_isPreview options <> Some true ->
  let s0 := Blog.create options page o in
  let matching := Blog.filteredPosts (Blog.setFilter filter s0) in
  length matching <= S n ->
  Blog.cards (afterClicks n filter s0) = matching
  /\ (matching <> [] ->
      Blog.loadMore (Blog.dom (afterClicks n filter s0))
      = Some Blog.DisplayNone).
Proof.
  intros Hc Hl Hb Hp. cbv zeta. intros Hlen.
  destruct (create_listing options page o Hc Hl Hb Hp)
    as (Hc0 & Hl0 & Hb0 & Hp0 & Hpp).
  set (s0 := Blog.create options page o) in *.
  destruct (Blog.container (Blog.dom s0)) as [kids|] eqn:Hk; [|contradiction].
  destruct (Blog.loadMore (Blog.dom s0)) as [d0|] eqn:Hd; [|contradiction].
  pose proof (afterClicks_cards n filter s0 kids d0 Hk Hd Hp0 Hb0) as Hcards.
  assert (Hwin : length (Blog.filteredPosts (Blog.setFilter filter s0))
                 <= S n * Blog.postsPerPage s0) by nia.
  rewrite take_ge in Hcards by exact Hwin.
  split; [exact Hcards|]. intros Hne.
  apply (afterClicks_control n filter s0 kids d0 Hk Hd Hp0 Hb0);
    [now rewrite Hcards|exact Hwin].
Qed.

Lemma loadMore_reaches_every_post_witness :
  let s0 := Blog.create (Blog.mkOptions (Some 0) None None) listingPage
                        (fetched tenPosts) in
  Blog.cards (afterClicks 9 "news" s0)
  = Blog.filteredPosts (Blog.setFilter "news" s0).
Proof.
  cbv zeta.
  apply (loadMore_reaches_every_post (Blog.mkOptions (Some 0) None None)
           listingPage (fetched tenPosts) "news" 9);
    try discriminate; try reflexivity.
Defined.

(** ** The filter buttons *)

Lemma filterClick_keeps (st : list Blog.FilterButton * Blog.BlogSystem)
      (i : nat) :
  map Blog.dataFilter (fst (Blog.filterClick st i))
  = map Blog.dataFilter (fst st)
  /\ akin (snd st) (snd (Blog.filterClick st i)).
Proof.
  unfold Blog.filterClick.
  destruct (Blog.container (Blog.dom (snd st)));
    [|split; [reflexivity|apply akin_refl]].
  destruct (fst st !! i) as [btn|]; [|split; [reflexivity|apply akin_refl]].
  cbn [fst snd]. split; [|apply akin_setFilter].
  generalize (fst st). intros bs.
  assert (G : forall k, map Blog.dataFilter
                (imap (fun j b => Blog.mkFilterButton (Blog.dataFilter b)
                                    (k + j =? i)%nat) bs)
              = map Blog.dataFilter bs).
  { induction bs as [|b bs IH]; intros k; [reflexivity|].
    cbn [imap map]. f_equal. rewrite <- (IH (S k)). f_equal.
    apply imap_ext. intros j x _. cbn. now rewrite Nat.add_succ_r. }
  exact (G 0).
Qed.

Lemma clickFilters_keeps (clicks : list nat)
      (st : list Blog.FilterButton * Blog.BlogSystem) :
  map Blog.dataFilter (fst (clickFilters clicks st))
  = map Blog.dataFilter (fst st)
  /\ akin (snd st) (snd (clickFilters clicks st)).
Proof.
  revert st. induction clicks as [|i clicks IH]; intros st.
  - split; [reflexivity|apply akin_refl].
  - cbn. destruct (IH (Blog.filterClick st i)) as [Hm Ha].
    destruct (filterClick_keeps st i) as [Hm' Ha'].
    fold (clickFilters clicks (Blog.filterClick st i)).
    split; [congruence|eapply akin_trans; eassumption].
Qed.

(** X11: after any clicks on the filter buttons, the button clicked
    last is the only one marked active, the buttons keep their filters,
    and the listing shows the selection of that button. *)
Theorem filter_buttons_follow_the_last_click
        (buttons : list Blog.FilterButton) (s : Blog.BlogSystem)
        (clicks : list nat) (last : nat) (btn : Blog.FilterButton) :
  Blog.container (Blog.dom s) <> None ->
  buttons !! last = Some btn ->
  let after := clickFilters (clicks ++ [last]) (buttons, s) in
  (forall j b, fst after !! j = Some b ->
     Blog.active b = (j =? last)%nat)
  /\ map Blog.dataFilter (fst after) = map Blog.dataFilter buttons
  /\ Blog.currentFilter (snd after) = Blog.dataFilter btn
  /\ Blog.filteredPosts (snd after)
     = Blog.filteredPosts (Blog.setFilter (Blog.dataFilter btn) s).
Proof.
  intros Hc Hbtn. cbv zeta. unfold clickFilters. rewrite fold_left_app.
  fold (clickFilters clicks (buttons, s)).
  destruct (clickFilters_keeps clicks (buttons, s)) as [Hm Ha].
  set (st := clickFilters clicks (buttons, s)) in *. cbn [fst snd] in Hm, Ha.
  assert (Hlast : exists b', fst st !! last = Some b'
                             /\ Blog.dataFilter b' = Blog.dataFilter btn).
  { assert (E : map Blog.dataFilter (fst st) !! last
                = Some (Blog.dataFilter btn))
      by (rewrite Hm, list_lookup_fmap, Hbtn; reflexivity).
    rewrite list_lookup_fmap in E.
    destruct (fst st !! last) as [b'|]; [|discriminate].
    exists b'. split; [reflexivity|]. now inversion E. }
  destruct Hlast as (b' & Hb' & Hf).
  assert (Hk : Blog.container (Blog.dom (snd st)) <> None)
    by (destruct Ha as (_ & _ & _ & _ & H5 & _); tauto).
  cbn [fold_left]. unfold Blog.filterClick at 1 2 3 4.
  destruct (Blog.container (Blog.dom (snd st))) as [kids|] eqn:Ek;
    [|contradiction].
  rewrite Hb'. cbn [fst snd]. split; [|split; [|split]].
  - intros j b Hj. rewrite list_lookup_imap in Hj.
    destruct (fst st !! j); [|discriminate]. cbn in Hj. now inversion Hj.
  - destruct (filterClick_keeps st last) as [Hm' _].
    unfold Blog.filterClick in Hm'. rewrite Ek, Hb' in Hm'. cbn [fst] in Hm'.
    congruence.
  - rewrite Hf. unfold Blog.setFilter.
    now destruct (render_data false
                    (Blog.setFilterState (Blog.dataFilter btn)
                       (if String.eqb (Blog.dataFilter btn) "all"
                        then Blog.posts (snd st)
                        else List.filter
                               (Blog.matchesFilter (Blog.dataFilter btn))
                               (Blog.posts (snd st)))
                       (snd st)))
      as (_ & _ & _ & _ & _ & -> & _).
  - rewrite Hf.
    destruct (setFilter_fields (Blog.dataFilter btn) (snd st))
      as (_ & _ & -> & _).
    destruct (setFilter_fields (Blog.dataFilter btn) s) as (_ & _ & -> & _).
    destruct Ha as (_ & _ & _ & -> & _). reflexivity.
Qed.

Lemma filter_buttons_follow_the_last_click_witness :
  let buttons := [Blog.mkFilterButton "all" true;
                  Blog.mkFilterButton "news" false;
                  Blog.mkFilterButton "video" false] in
  let s := Blog.create noOptions listingPage (fetched tenPosts) in
  Blog.currentFilter (snd (clickFilters ([2; 0] ++ [1]) (buttons, s)))
  = "news".
Proof.
  cbv zeta.
  apply (filter_buttons_follow_the_last_click
           [Blog.mkFilterButton "all" true; Blog.mkFilterButton "news" false;
            Blog.mkFilterButton "video" false]
           (Blog.create noOptions listingPage (fetched tenPosts))
           [2; 0] 1 (Blog.mkFilterButton "news" false));
    [vm_compute; discriminate | reflexivity].
Defined.

Lemma find_first_match (postId : string) (before after : list Post)
      (post : Post) :
  Forall (fun p => id p <> postId) before -> id post = postId ->
  List.find (fun p => String.eqb (id p) postId) (before ++ post :: after)
  = Some post.
Proof.
  intros Hb Hid. induction Hb as [|p before Hp _ IH]; cbn.
  - now rewrite (proj2 (String.eqb_eq _ _) Hid).
  - now rewrite (proj2 (String.eqb_neq _ _) Hp).
Qed.

Lemma setupNavigation_keeps (cur : Post) (o : FetchOutcome)
      (doc : SinglePost.Document) :
  SinglePost.meta (SinglePost.setupNavigation cur o doc) = SinglePost.meta doc
  /\ SinglePost.body (SinglePost.setupNavigation cur o doc)
     = SinglePost.body doc.
Proof.
  unfold SinglePost.setupNavigation.
  now destruct (Utils.fetchJSON o) as [|[| |ps]].
Qed.

(** X12: when the feed holds records with the identifier of the query
    string, the detail view shows the first of them in feed order: the
    document title, the post content, the header and the meta tags that
    exist are taken from it. *)
Theorem init_shows_the_first_record_with_the_id
        (formatDate : option Z -> string) (postId : string)
        (before after : list Post) (post : Post) (o2 : FetchOutcome)
        (doc : SinglePost.Document) :
  postId <> "" ->
  Forall (fun p => id p <> postId) before ->
  id post = postId ->
  let shown :=
    SinglePost.init formatDate (Some postId)
                    (fetched (before ++ post :: after)) o2 doc in
  SinglePost.docTitle (SinglePost.meta shown)
  = title post +:+ " | Leonic's World"
  /\ (SinglePost.postContainer (SinglePost.body doc) <> None ->
      SinglePost.postContainer (SinglePost.body shown)
      = Some (SinglePost.contentHtml post))
  /\ (SinglePost.header (SinglePost.body doc) <> None ->
      SinglePost.header (SinglePost.body shown)
      = Some (SinglePost.headerHtml formatDate post))
  /\ (SinglePost.ogTitle (SinglePost.meta doc) <> None ->
      SinglePost.ogTitle (SinglePost.meta shown) = Some (title post))
  /\ (SinglePost.metaDescription (SinglePost.meta doc) <> None ->
      SinglePost.metaDescription (SinglePost.meta shown)
      = Some (excerpt post)).
Proof.
  intros Hne Hbefore Hid. cbv zeta. unfold SinglePost.init.
  destruct postId as [|c rest]; [contradiction|].
  unfold SinglePost.loadPost, fetched. cbn [Utils.fetchJSON].
  rewrite (find_first_match _ before after post Hbefore Hid).
  set (loading := SinglePost.showLoading doc).
  assert (Hr : SinglePost.meta (SinglePost.render formatDate post o2 loading)
               = SinglePost.mkMeta (title post +:+ " | Leonic's World")
                   (SinglePost.metaDescription (SinglePost.meta loading))
                   (SinglePost.ogTitle (SinglePost.meta loading))
                   (SinglePost.ogDescription (SinglePost.meta loading))
                   (SinglePost.ogImage (SinglePost.meta loading))
               /\ SinglePost.postContainer
                    (SinglePost.body
                       (SinglePost.render formatDate post o2 loading))
                  = match SinglePost.postContainer (SinglePost.body loading)
                    with
                    | Some _ => Some (SinglePost.contentHtml post)
                    | None => None
                    end
               /\ SinglePost.header
                    (SinglePost.body
                       (SinglePost.render formatDate post o2 loading))
                  = match SinglePost.header (SinglePost.body loading) with
                    | Some _ => Some (SinglePost.headerHtml formatDate post)
                    | None => None
                    end).
  { unfold SinglePost.render. cbv zeta.
    match goal with
    | |- context [SinglePost.setupNavigation post o2 ?inner] =>
        destruct (setupNavigation_keeps post o2 inner) as [Hm Hb]
    end.
    rewrite Hm, Hb. repeat split; reflexivity. }
  destruct Hr as (Hm & Hc & Hh).
  unfold SinglePost.updateMetaTags.
  cbn [SinglePost.meta SinglePost.body SinglePost.docTitle SinglePost.ogTitle
       SinglePost.metaDescription].
  rewrite Hc, Hh, Hm. subst loading.
  destruct doc as [[t md ot od oi] [pc hd fi tc] nv].
  unfold SinglePost.showLoading, SinglePost.setPostContainer.
  cbn [SinglePost.meta SinglePost.body SinglePost.postContainer
       SinglePost.header SinglePost.docTitle SinglePost.ogTitle
       SinglePost.metaDescription].
  destruct pc as [kids|], hd as [h|], ot as [x|], md as [y|]; cbn;
    repeat split; intros; congruence.
Qed.

Lemma init_shows_the_first_record_with_the_id_witness :
  SinglePost.docTitle
    (SinglePost.meta
       (SinglePost.init germanDate (Some "3")
          (fetched (take 2 tenPosts ++ samplePost "3" "News" ["Web Dev"]
                                         (Some 8%Z) :: drop 3 tenPosts))
          (fetched tenPosts) detailPage))
  = "Post 3 | Leonic's World".
Proof.
  apply (init_shows_the_first_record_with_the_id germanDate "3"
           (take 2 tenPosts) (drop 3 tenPosts)
           (samplePost "3" "News" ["Web Dev"] (Some 8%Z))
           (fetched tenPosts) detailPage);
    [discriminate | repeat constructor; discriminate | reflexivity].
Defined.

Lemma findIndexFrom_none {A : Type} (pred : A -> bool) (i : Z) (l : list A) :
  Forall (fun x => pred x = false) l -> Js.findIndexFrom pred i l = (-1)%Z.
Proof.
  intros H. revert i. induction H as [|x l Hx _ IH]; intros i; cbn;
    [reflexivity|]. now rewrite Hx.
Qed.

(** X13: when the feed that [setupNavigation] fetches does not hold
    the current post, [findIndex] answers -1: the previous link leads to
    the first post of the sorted feed (it is hidden when the feed is
    empty) and the next link is hidden. *)
Theorem setupNavigation_without_the_current_post
        (cur : Post) (ps : list Post) (doc : SinglePost.Document)
        (prev next : SinglePost.Link) :
  Forall (fun p => id p <> id cur) ps ->
  SinglePost.navPrev (SinglePost.nav doc) = Some prev ->
  SinglePost.navNext (SinglePost.nav doc) = Some next ->
  let after := SinglePost.nav (SinglePost.setupNavigation cur (fetched ps) doc) in
  exists prev' next',
    SinglePost.navPrev after = Some prev'
    /\ SinglePost.navNext after = Some next'
    /\ leadsTo prev prev' (head (Blog.sortPosts ps))
    /\ SinglePost.hidden next' = true
    /\ SinglePost.href next' = SinglePost.href next.
Proof.
  intros Hall Hp Hn. cbv zeta.
  unfold SinglePost.setupNavigation, fetched. cbn [Utils.fetchJSON].
  assert (Hidx : Js.findIndex (fun p => String.eqb (id p) (id cur))
                              (Blog.sortPosts ps) = (-1)%Z).
  { apply findIndexFrom_none.
    rewrite Forall_forall. intros p Hin. apply String.eqb_neq.
    rewrite Forall_forall in Hall. apply Hall.
    rewrite (sortPosts_perm ps). exact Hin. }
  rewrite Hidx. cbn [SinglePost.nav]. rewrite Hp, Hn.
  change (Js.at_ (Blog.sortPosts ps) (-1 - 1)%Z) with (@None Post).
  replace (Js.at_ (Blog.sortPosts ps) (-1 + 1)%Z)
    with (head (Blog.sortPosts ps))
    by (unfold Js.at_; cbn; now destruct (Blog.sortPosts ps)).
  cbn [SinglePost.setLink].
  destruct (head (Blog.sortPosts ps)) as [newest|];
    eexists; eexists; repeat split; reflexivity.
Qed.

Lemma setupNavigation_without_the_current_post_witness :
  exists prev' next',
    SinglePost.navPrev
      (SinglePost.nav (SinglePost.setupNavigation
                         (samplePost "42" "News" [] (Some 0%Z))
                         (fetched tenPosts) detailPage)) = Some prev'
    /\ SinglePost.navNext
         (SinglePost.nav (SinglePost.setupNavigation
                            (samplePost "42" "News" [] (Some 0%Z))
                            (fetched tenPosts) detailPage)) = Some next'
    /\ leadsTo (SinglePost.mkLink "#" "prev" false) prev'
               (head (Blog.sortPosts tenPosts))
    /\ SinglePost.hidden next' = true
    /\ SinglePost.href next' = "#".
Proof.
  apply (setupNavigation_without_the_current_post
           (samplePost "42" "News" [] (Some 0%Z)) tenPosts detailPage
           (SinglePost.mkLink "#" "prev" false)
           (SinglePost.mkLink "#" "next" false));
    [repeat constructor; discriminate | reflexivity | reflexivity].
Defined.

Lemma takeOut_In_other (cb x : Starfield.Callback)
      (l rest : list Starfield.Callback) :
  Starfield.takeOut cb l = Some rest -> x <> cb -> In x l -> In x rest.
Proof.
  revert rest. induction l as [|y l IH]; intros rest; cbn; [discriminate|].
  destruct (decide (y = cb)) as [->|Hne].
  - intros [= <-] Hx [E|Hin]; [congruence|assumption].
  - destruct (Starfield.takeOut cb l) as [r|]; [|discriminate].
    intros [= <-] Hx [E|Hin]; [now left|right; now apply IH].
Qed.

Lemma takeOut_pending (cb : Starfield.Callback) (l : list Starfield.Callback) :
  In cb l -> exists rest, Starfield.takeOut cb l = Some rest.
Proof.
  induction l as [|y l IH]; [contradiction|]. cbn.
  destruct (decide (y = cb)) as [->|Hne]; [eauto|].
  intros [E|Hin]; [contradiction|].
  destruct (IH Hin) as [r ->]. cbn. eauto.
Qed.

Lemma takeOut_In (cb : Starfield.Callback) (l rest : list Starfield.Callback) :
  Starfield.takeOut cb l = Some rest -> In cb l.
Proof.
  revert rest. induction l as [|y l IH]; intros rest; cbn; [discriminate|].
  destruct (decide (y = cb)) as [->|Hne]; [now left|].
  destruct (Starfield.takeOut cb l) as [r|]; [|discriminate].
  intros _. right. now apply (IH r).
Qed.

Lemma cancelFrame_In (x : Starfield.Callback) (l : list Starfield.Callback) :
  x <> Starfield.Frame -> In x l ->
  In x (List.filter (fun cb => negb (Starfield.isFrame cb)) l).
Proof.
  intros Hx Hin. apply filter_In. split; [assumption|]. now destruct x.
Qed.

Ltac pending_in :=
  solve [ assumption
        | apply in_or_app; right; now left
        | apply in_or_app; left; pending_in
        | apply cancelFrame_In; [discriminate | pending_in] ].

Ltac live_atoms :=
  try solve [ reflexivity | discriminate | congruence | lia | pending_in ].

(** The write of a loader whose store takes the flag. *)
Lemma markSession_accepted (s : Starfield.Loader) :
  acceptsFlag (Starfield.session s) ->
  exists st, LocalStorage.setItem "loaderShown" "true" (Starfield.session s)
             = Some st
             /\ sessionMarked st /\ acceptsFlag st.
Proof.
  unfold acceptsFlag at 1.
  destruct (LocalStorage.setItem _ _ _) as [st|] eqn:Hset; [|contradiction].
  intros _. exists st. split; [reflexivity|]. now apply (setItem_marks _ _ Hset).
Qed.

Lemma complete_sets_flag (s : Starfield.Loader) :
  Starfield.isComplete (Starfield.complete s) = true.
Proof.
  unfold Starfield.complete, Starfield.markSession.
  destruct (Starfield.isComplete s) eqn:Hc; [assumption|].
  cbn [Starfield.session Starfield.set_completions Starfield.set_isComplete].
  destruct (LocalStorage.setItem _ _ _); now destruct s.
Qed.

Lemma complete_live (s : Starfield.Loader) :
  loaderLive s -> loaderLive (Starfield.complete s).
Proof.
  unfold Starfield.complete. destruct (Starfield.isComplete s) eqn:Hc;
    [trivial|].
  intros Hl. pose proof Hl as (Hacc & _).
  unfold Starfield.markSession.
  cbn [Starfield.session Starfield.set_completions Starfield.set_isComplete].
  destruct (markSession_accepted s Hacc) as (st & -> & Hm & Ha).
  revert Hl. unfold loaderLive. loader_fields s.
  cbn in *. subst c. destruct o; cbn; intuition live_atoms.
Qed.

Lemma skip_live (s : Starfield.Loader) :
  loaderLive s -> loaderLive (Starfield.skip s).
Proof.
  intros Hl. unfold Starfield.skip.
  destruct (Starfield.isComplete s || Starfield.isSkipped s) eqn:Hf;
    [assumption|].
  apply orb_false_iff in Hf. destruct Hf as [Hc Hk].
  pose proof Hl as (Hacc & _).
  unfold Starfield.markSession.
  cbn [Starfield.session Starfield.set_isSkipped].
  destruct (markSession_accepted s Hacc) as (st & -> & Hm & Ha).
  unfold Starfield.complete, Starfield.markSession.
  revert Hl Hc Hk. unfold loaderLive.
  loader_fields s. cbn.
  intros Hl -> ->. cbn.
  destruct (markSession_accepted
              (Starfield.mkLoader true true r o a p st li aw pe fr (S co) re di) Ha)
    as (st' & Hset' & Hm' & Ha'). cbn in Hset'. rewrite Hset'. cbn.
  destruct o; cbn; intuition live_atoms.
Qed.

Lemma run_live (cb : Starfield.Callback) (s : Starfield.Loader)
      (rest : list Starfield.Callback) :
  loaderLive s -> Starfield.takeOut cb (Starfield.pending s) = Some rest ->
  loaderLive (Starfield.run cb (Starfield.set_pending rest s)).
Proof.
  intros Hl Ht.
  assert (Hkeep : forall x, x <> cb -> In x (Starfield.pending s) ->
                            In x rest)
    by (intros x Hx; now apply (takeOut_In_other cb x _ rest Ht)).
  clear Ht.
  assert (Hl' : loaderLive (Starfield.set_pending rest s)
                \/ cb = Starfield.Fallback \/ cb = Starfield.FadeOut
                \/ cb = Starfield.Cleanup)
    by (destruct cb; auto; left; revert Hl Hkeep; unfold loaderLive;
        loader_fields s; cbn; intros (H0 & H1 & H2 & H3 & H4 & H5) Hkeep;
        pose proof (Hkeep Starfield.Fallback) as KF;
        pose proof (Hkeep Starfield.FadeOut) as KO;
        pose proof (Hkeep Starfield.Cleanup) as KC;
        intuition live_atoms).
  destruct cb; cbn [Starfield.run].
  - destruct (negb _ && negb _) eqn:Hg.
    + apply andb_true_iff in Hg. destruct Hg as [Hc Hk].
      apply negb_true_iff in Hc. unfold Starfield.complete.
      rewrite Hc. pose proof Hl as (Hacc & _).
      unfold Starfield.markSession.
      cbn [Starfield.session Starfield.set_completions Starfield.set_isComplete
           Starfield.set_pending].
      destruct (markSession_accepted s Hacc) as (st & Hset & Hm & Ha).
      replace (Starfield.session (Starfield.set_pending rest s))
        with (Starfield.session s) by now destruct s.
      rewrite Hset. revert Hl Hkeep. unfold loaderLive. loader_fields s.
      cbn. intros (H0 & H1 & H2 & H3 & H4 & H5) Hkeep.
      pose proof (Hkeep Starfield.FadeOut) as KO.
      pose proof (Hkeep Starfield.Cleanup) as KC.
      destruct o; cbn; intuition live_atoms.
    + revert Hl Hkeep Hg. unfold loaderLive. loader_fields s. cbn.
      intros (H0 & H1 & H2 & H3 & H4 & H5) Hkeep.
      pose proof (Hkeep Starfield.FadeOut) as KO.
      pose proof (Hkeep Starfield.Cleanup) as KC.
      destruct c, k; cbn; intuition live_atoms.
  - destruct Hl' as [Hl'|[E|[E|E]]]; try discriminate.
    destruct (negb _ && negb _); [now apply complete_live|assumption].
  - revert Hl Hkeep. unfold loaderLive. loader_fields s. cbn.
    intros (H0 & H1 & H2 & H3 & H4 & H5) Hkeep.
    pose proof (Hkeep Starfield.Fallback) as KF.
    pose proof (Hkeep Starfield.Cleanup) as KC.
    destruct c, o; cbn; intuition live_atoms.
  - revert Hl Hkeep. unfold loaderLive. loader_fields s. cbn.
    intros (H0 & H1 & H2 & H3 & H4 & H5) Hkeep.
    pose proof (Hkeep Starfield.Fallback) as KF.
    pose proof (Hkeep Starfield.FadeOut) as KO.
    destruct c, o; cbn; intuition live_atoms.
  - destruct Hl' as [Hl'|[E|[E|E]]]; try discriminate.
    revert Hl'. unfold loaderLive, Starfield.animateStarfield.
    loader_fields s. cbn. destruct c; cbn; intuition live_atoms.
  - destruct Hl' as [Hl'|[E|[E|E]]]; try discriminate.
    revert Hl'. unfold loaderLive. loader_fields s. cbn.
    intuition live_atoms.
Qed.

Lemma fire_live (e : Starfield.Env) (ev : Starfield.Event)
      (s : Starfield.Loader) :
  loaderLive s -> loaderLive (Starfield.fire e ev s).
Proof.
  intros Hl. destruct ev as [|key| |cb]; cbn [Starfield.fire].
  - destruct (_ && _); [now apply skip_live|assumption].
  - destruct (_ && _); [now apply skip_live|assumption].
  - destruct (Starfield.awaitingLoad s); [|assumption].
    revert Hl. unfold loaderLive, Starfield.onResourcesLoaded.
    loader_fields s. cbn.
    intuition live_atoms.
  - destruct (Starfield.takeOut cb (Starfield.pending s)) as [rest|] eqn:Ht;
      [now apply (run_live cb s rest)|assumption].
Qed.

Lemma runEvents_live (e : Starfield.Env) (evs : list Starfield.Event)
      (s : Starfield.Loader) :
  loaderLive s -> loaderLive (Starfield.runEvents e evs s).
Proof.
  revert s. induction evs as [|ev evs IH]; intros s Hl; [assumption|].
  cbn. apply IH. now apply fire_live.
Qed.

Lemma init_live (e : Starfield.Env) :
  Starfield.overlayPresent e = true -> Starfield.shouldSkip e = Some false ->
  acceptsFlag (Starfield.sessionStorage e) ->
  loaderLive (Starfield.init e).
Proof.
  intros Hov Hskip Hacc. unfold Starfield.init. rewrite Hov, Hskip.
  destruct e as [ov ca sk pr se sp rm rc].
  cbn [Starfield.overlayPresent Starfield.sessionStorage] in *.
  subst ov. clear Hskip. unfold loaderLive.
  destruct rm, ca, pr, rc; cbn; intuition live_atoms.
Qed.

(** X14: when [sessionStorage] takes the loader's flag, the loader
    cannot stay: whatever happened before, once the fallback timer, the
    fade timer and the cleanup timer have come due the loader is
    complete, its overlay is out of the document, the body class is off,
    [loaderComplete] was dispatched exactly once and the session is
    marked. *)
Theorem loader_overlay_is_always_taken_down
        (e : Starfield.Env) (evs : list Starfield.Event) :
  Starfield.overlayPresent e = true ->
  Starfield.shouldSkip e = Some false ->
  acceptsFlag (Starfield.sessionStorage e) ->
  let final :=
    Starfield.runEvents e
      (evs ++ [Starfield.Due Starfield.Fallback;
               Starfield.Due Starfield.FadeOut;
               Starfield.Due Starfield.Cleanup])
      (Starfield.init e) in
  Starfield.isComplete final = true
  /\ Starfield.overlay final = Starfield.Gone
  /\ Starfield.loaderActive final = false
  /\ Starfield.dispatched final = 1
  /\ sessionMarked (Starfield.session final).
Proof.
  intros Hov Hskip Hacc. cbv zeta. unfold Starfield.runEvents.
  rewrite fold_left_app. fold (Starfield.runEvents e evs (Starfield.init e)).
  set (s1 := Starfield.runEvents e evs (Starfield.init e)).
  assert (L1 : loaderLive s1) by (apply runEvents_live; now apply init_live).
  assert (I1 : loaderInv s1) by (apply runEvents_inv, init_inv).
  cbn [fold_left].
  set (s2 := Starfield.fire e (Starfield.Due Starfield.Fallback) s1).
  assert (C2 : Starfield.isComplete s2 = true).
  { subst s2. destruct (Starfield.isComplete s1) eqn:Hc.
    - now destruct (fire_after_complete e (Starfield.Due Starfield.Fallback)
                      s1 Hc).
    - destruct L1 as (Ha & Hk & Hf & _).
      destruct (takeOut_pending _ _ (Hf Hc)) as [rest Ht].
      cbn [Starfield.fire]. rewrite Ht. clear Ht Hf I1.
      cbn [Starfield.run].
      destruct (negb _ && negb _) eqn:Hg; [apply complete_sets_flag|].
      exfalso. revert Hg Hc Hk. loader_fields s1. cbn. intros Hg -> Hk.
      destruct k; [now specialize (Hk eq_refl)|discriminate]. }
  assert (L2 : loaderLive s2) by now apply fire_live.
  assert (I2 : loaderInv s2) by now apply fire_inv.
  set (s3 := Starfield.fire e (Starfield.Due Starfield.FadeOut) s2).
  assert (L3 : loaderLive s3) by now apply fire_live.
  assert (I3 : loaderInv s3) by now apply fire_inv.
  assert (C3 : Starfield.isComplete s3 = true)
    by now destruct (fire_after_complete e (Starfield.Due Starfield.FadeOut)
                       s2 C2).
  assert (D3 : Starfield.dispatched s3 = 1).
  { destruct (loaderInv_once s3 I3) as [_ Hle].
    enough (1 <= Starfield.dispatched s3) by lia. subst s3.
    destruct (Starfield.dispatched s2) as [|d] eqn:Hd.
    - destruct L2 as (_ & _ & _ & Hf & _).
      destruct (takeOut_pending _ _ (Hf C2 Hd)) as [rest Ht].
      cbn [Starfield.fire]. rewrite Ht.
      destruct s2 as [c k r o a p sh li aw pe fr co re di]. cbn. lia.
    - cbn [Starfield.fire].
      destruct (Starfield.takeOut _ _) as [rest|]; [|lia].
      destruct s2 as [c k r o a p sh li aw pe fr co re di]. cbn in *. lia. }
  set (s4 := Starfield.fire e (Starfield.Due Starfield.Cleanup) s3).
  assert (L4 : loaderLive s4) by now apply fire_live.
  destruct (fire_after_complete e (Starfield.Due Starfield.Cleanup) s3 C3)
    as (C4 & _).
  destruct L3 as (_ & _ & _ & _ & H4 & _).
  destruct H4 as [A3 O3]; [lia|].
  assert (E4 : Starfield.overlay s4 = Starfield.Gone
               /\ Starfield.loaderActive s4 = false
               /\ Starfield.dispatched s4 = 1).
  { subst s4. cbn [Starfield.fire].
    destruct (Starfield.takeOut Starfield.Cleanup (Starfield.pending s3))
      as [rest|] eqn:Ht.
    - destruct s3 as [c k r o a p sh li aw pe fr co re di]. cbn in *. tauto.
    - destruct O3 as [O3|O3]; [tauto|].
      destruct (takeOut_pending _ _ O3) as [rest Hr]. congruence. }
  destruct L4 as (_ & _ & _ & _ & _ & H5). tauto.
Qed.

Lemma loader_overlay_is_always_taken_down_witness :
  acceptsFlag (Starfield.sessionStorage plainLoaderEnv)
  /\ Starfield.overlay
       (Starfield.runEvents plainLoaderEnv
          ([Starfield.Due Starfield.Frame; Starfield.WindowLoad;
            Starfield.Keydown "Escape"; Starfield.Due Starfield.FadeOut]
           ++ [Starfield.Due Starfield.Fallback;
               Starfield.Due Starfield.FadeOut;
               Starfield.Due Starfield.Cleanup])
          (Starfield.init plainLoaderEnv))
     = Starfield.Gone.
Proof.
  assert (Hacc : acceptsFlag (Starfield.sessionStorage plainLoaderEnv))
    by (vm_compute; discriminate).
  split; [exact Hacc|].
  apply (loader_overlay_is_always_taken_down plainLoaderEnv
           [Starfield.Due Starfield.Frame; Starfield.WindowLoad;
            Starfield.Keydown "Escape"; Starfield.Due Starfield.FadeOut]
           eq_refl eq_refl Hacc).
Defined.

Lemma takeOut_Forall (P : Starfield.Callback -> Prop) (cb : Starfield.Callback)
      (l rest : list Starfield.Callback) :
  Starfield.takeOut cb l = Some rest -> Forall P l -> Forall P rest.
Proof.
  revert rest. induction l as [|y l IH]; intros rest; cbn; [discriminate|].
  destruct (decide (y = cb)) as [->|Hne].
  - intros [= <-] H. now apply Forall_cons in H.
  - destruct (Starfield.takeOut cb l) as [r|]; [|discriminate].
    intros [= <-] H. apply Forall_cons in H. destruct H as [Hy Hl].
    apply Forall_cons. split; [assumption|now apply IH].
Qed.

(** X15: while the document is still loading, nothing but a skip, the
    load event or the fallback timer ends the loader: under any other
    events it stays on display, not complete, with no event
    dispatched. *)
Theorem loader_stays_until_a_trigger
        (e : Starfield.Env) (evs : list Starfield.Event) :
  Starfield.overlayPresent e = true ->
  Starfield.shouldSkip e = Some false ->
  Starfield.readyComplete e = false ->
  forallb (fun ev => negb (loaderTrigger ev)) evs = true ->
  loaderOnDisplay (Starfield.runEvents e evs (Starfield.init e)).
Proof.
  intros Hov Hskip Hready Hquiet.
  assert (Hinit : loaderOnDisplay (Starfield.init e)).
  { unfold Starfield.init. rewrite Hov, Hskip.
    destruct e as [ov ca sk pr se sp rm rc].
    cbn [Starfield.overlayPresent Starfield.readyComplete] in *.
    subst rc ov. clear Hskip. unfold loaderOnDisplay.
    destruct rm, ca, pr; cbn; repeat split;
      repeat first [apply Forall_nil_2 | apply Forall_cons_2]; auto. }
  revert Hinit Hquiet. generalize (Starfield.init e).
  induction evs as [|ev evs IH]; intros s Hs Hq; [exact Hs|].
  cbn [forallb] in Hq. apply andb_true_iff in Hq. destruct Hq as [Hev Hq].
  cbn. apply IH; [|exact Hq]. clear IH Hq.
  destruct Hs as (Hc & Hk & Ho & Ha & Hd & Hp).
  destruct ev as [|key| |cb]; cbn in Hev; try discriminate;
    cbn [Starfield.fire].
  - apply negb_true_iff in Hev. rewrite Hev, andb_false_r. cbn.
    now repeat split.
  - destruct (Starfield.takeOut cb (Starfield.pending s)) as [rest|] eqn:Ht;
      [|now repeat split].
    pose proof (takeOut_Forall _ cb _ rest Ht Hp) as Hrest.
    pose proof (takeOut_In cb _ rest Ht) as Hin.
    rewrite List.Forall_forall in Hp. apply Hp in Hin.
    destruct s as [c k r o a p sh li aw pe fr co re di]. cbn in *.
    subst c k o a di. unfold loaderOnDisplay.
    destruct Hin as [->| [->| ->]]; cbn in Hev; [discriminate| |]; cbn;
      repeat split; auto.
    apply Forall_app. split; [assumption|].
    apply Forall_cons_2; [auto|apply Forall_nil_2].
Qed.

Lemma loader_stays_until_a_trigger_witness :
  loaderOnDisplay
    (Starfield.runEvents plainLoaderEnv
       [Starfield.Due Starfield.Frame; Starfield.Keydown "Enter";
        Starfield.Due Starfield.Progress; Starfield.Due Starfield.MinDisplay;
        Starfield.Due Starfield.FadeOut; Starfield.Due Starfield.Frame]
       (Starfield.init plainLoaderEnv)).
Proof.
  apply (loader_stays_until_a_trigger plainLoaderEnv
           [Starfield.Due Starfield.Frame; Starfield.Keydown "Enter";
            Starfield.Due Starfield.Progress;
            Starfield.Due Starfield.MinDisplay;
            Starfield.Due Starfield.FadeOut; Starfield.Due Starfield.Frame]);
    reflexivity.
Defined.

(** A loader that listens to nothing and waits for nothing ignores
    every event. *)
Lemma idle_loader_ignores (e : Starfield.Env) (evs : list Starfield.Event)
      (s : Starfield.Loader) :
  Starfield.listening s = false -> Starfield.awaitingLoad s = false ->
  Starfield.pending s = [] ->
  Starfield.runEvents e evs s = s.
Proof.
  intros Hl Ha Hp. induction evs as [|ev evs IH]; [reflexivity|].
  cbn. assert (E : Starfield.fire e ev s = s)
    by (destruct ev as [|key| |cb]; cbn; rewrite ?Hl, ?Ha, ?Hp; reflexivity).
  rewrite E. exact IH.
Qed.

Lemma skipped_init_idle (e : Starfield.Env) :
  Starfield.shouldSkip e = Some true ->
  Starfield.listening (Starfield.init e) = false
  /\ Starfield.awaitingLoad (Starfield.init e) = false
  /\ Starfield.pending (Starfield.init e) = [].
Proof.
  intros Hskip. unfold Starfield.init. rewrite Hskip.
  destruct (Starfield.overlayPresent e); cbn; auto.
Qed.

(** X16: a loader that is bypassed (session flag or [skip=true])
    reveals the content once, never dispatches [loaderComplete], and
    ignores every later event. *)
Theorem bypassed_loader_stays_silent
        (e : Starfield.Env) (evs : list Starfield.Event) :
  Starfield.shouldSkip e = Some true ->
  Starfield.runEvents e evs (Starfield.init e) = Starfield.init e
  /\ Starfield.dispatched (Starfield.init e) = 0
  /\ Starfield.overlay (Starfield.init e) = Starfield.Gone
  /\ Starfield.revealed (Starfield.init e)
     = (if Starfield.overlayPresent e then 1 else 0).
Proof.
  intros Hskip. destruct (skipped_init_idle e Hskip) as (Hl & Ha & Hp).
  split; [now apply idle_loader_ignores|].
  - unfold Starfield.init. rewrite Hskip.
    destruct (Starfield.overlayPresent e) eqn:Hov; cbn; rewrite ?Hov; auto.
Qed.

Lemma bypassed_loader_stays_silent_witness :
  Starfield.dispatched
    (Starfield.init (Starfield.mkEnv true true true true markedStorage false
                                     false false)) = 0.
Proof.
  apply (bypassed_loader_stays_silent
           (Starfield.mkEnv true true true true markedStorage false false
                            false)
           [Starfield.WindowLoad] eq_refl).
Defined.

Lemma complete_marks (s : Starfield.Loader) :
  acceptsFlag (Starfield.session s) -> Starfield.isComplete s = false ->
  sessionMarked (Starfield.session (Starfield.complete s)).
Proof.
  intros Hacc Hc. unfold Starfield.complete, Starfield.markSession.
  rewrite Hc.
  cbn [Starfield.session Starfield.set_completions Starfield.set_isComplete].
  destruct (markSession_accepted s Hacc) as (st & Hset & Hm & Ha).
  replace (Starfield.session
             (Starfield.set_completions (S (Starfield.completions s))
                (Starfield.set_isComplete true s)))
    with (Starfield.session s) by now destruct s.
  rewrite Hset. now destruct s.
Qed.

Lemma skip_marks (s : Starfield.Loader) :
  acceptsFlag (Starfield.session s) -> Starfield.isComplete s = false ->
  Starfield.isComplete (Starfield.skip s) = true ->
  sessionMarked (Starfield.session (Starfield.skip s)).
Proof.
  intros Hacc Hc. unfold Starfield.skip, Starfield.markSession.
  rewrite Hc. cbn [orb].
  destruct (Starfield.isSkipped s); [congruence|]. intros _.
  destruct (markSession_accepted s Hacc) as (st & Hset & Hm & Ha).
  replace (Starfield.session (Starfield.set_isSkipped true s))
    with (Starfield.session s) by now destruct s.
  rewrite Hset. apply complete_marks; now destruct s.
Qed.

(** A completed loader whose store takes the flag has marked the
    session. *)
Lemma fire_marks_session (e : Starfield.Env) (ev : Starfield.Event)
      (s : Starfield.Loader) :
  (Starfield.isComplete s = true -> acceptsFlag (Starfield.session s) ->
   sessionMarked (Starfield.session s)) ->
  Starfield.isComplete (Starfield.fire e ev s) = true ->
  acceptsFlag (Starfield.session (Starfield.fire e ev s)) ->
  sessionMarked (Starfield.session (Starfield.fire e ev s)).
Proof.
  intros Hs Hc Hacc.
  assert (Hacc0 : acceptsFlag (Starfield.session s))
    by (apply (acceptsFlag_limits _ _ (fire_limits e ev s) Hacc)).
  destruct (Starfield.isComplete s) eqn:Hc0.
  - assert (E : Starfield.session (Starfield.fire e ev s) = Starfield.session s).
    { destruct ev as [|key| |cb]; cbn [Starfield.fire].
      - rewrite skip_noop by (now rewrite Hc0). now destruct (_ && _).
      - rewrite skip_noop by (now rewrite Hc0). now destruct (_ && _).
      - destruct (Starfield.awaitingLoad s); now destruct s.
      - destruct (Starfield.takeOut cb (Starfield.pending s)) as [rest|];
          [|reflexivity].
        loader_fields s. cbn in Hc0. subst c. now destruct cb. }
    rewrite E. auto.
  - clear Hs Hacc. revert Hc. destruct ev as [|key| |cb]; cbn [Starfield.fire].
    + destruct (_ && _); [now apply skip_marks|congruence].
    + destruct (_ && _); [now apply skip_marks|congruence].
    + destruct (Starfield.awaitingLoad s); [|congruence].
      loader_fields s. cbn in *. congruence.
    + destruct (Starfield.takeOut cb (Starfield.pending s)) as [rest|];
        [|congruence].
      destruct cb; cbn [Starfield.run];
        try (loader_fields s; cbn in *; congruence).
      * destruct (negb _ && negb _); [|loader_fields s; cbn in *; congruence].
        intros _. apply complete_marks; now destruct s.
      * destruct (negb _ && negb _); [|loader_fields s; cbn in *; congruence].
        intros _. apply complete_marks; now destruct s.
      * unfold Starfield.animateStarfield. loader_fields s. cbn in *.
        subst c. cbn. congruence.
Qed.

(** X17: once the loader has completed with [sessionStorage] taking its
    flag, the flag is set: on the next page of the session [shouldSkip]
    answers yes, the loader is bypassed and stays so. *)
Theorem completed_loader_is_skipped_on_the_next_page
        (e next : Starfield.Env) (evs later : list Starfield.Event) :
  let s := Starfield.runEvents e evs (Starfield.init e) in
  Starfield.isComplete s = true ->
  acceptsFlag (Starfield.sessionStorage e) ->
  Starfield.sessionStorage next = Starfield.session s ->
  Starfield.shouldSkip next = Some true
  /\ starfieldBypassed (Starfield.init next)
  /\ Starfield.runEvents next later (Starfield.init next)
     = Starfield.init next.
Proof.
  cbv zeta. intros Hc Hacc Hsession.
  assert (Hshown : forall evs' s0,
             (Starfield.isComplete s0 = true ->
              acceptsFlag (Starfield.session s0) ->
              sessionMarked (Starfield.session s0)) ->
             Starfield.isComplete (Starfield.runEvents e evs' s0) = true ->
             acceptsFlag (Starfield.session (Starfield.runEvents e evs' s0)) ->
             sessionMarked (Starfield.session (Starfield.runEvents e evs' s0))).
  { induction evs' as [|ev evs' IH]; intros s0 H0; [exact H0|].
    cbn. apply IH. now apply fire_marks_session. }
  assert (Hinit : Starfield.isComplete (Starfield.init e) = true ->
                  acceptsFlag (Starfield.session (Starfield.init e)) ->
                  sessionMarked (Starfield.session (Starfield.init e))).
  { intros Hi. exfalso. revert Hi. loader_env e; discriminate. }
  assert (Hmarked : sessionMarked (Starfield.sessionStorage next)).
  { rewrite Hsession. apply (Hshown evs _ Hinit Hc).
    apply (acceptsFlag_limits (Starfield.sessionStorage e)); [|exact Hacc].
    apply sameLimits_sym. rewrite <- (init_limits e). apply runEvents_limits. }
  assert (Hskip : Starfield.shouldSkip next = Some true)
    by (unfold Starfield.shouldSkip; now rewrite Hmarked).
  split; [exact Hskip|]. split.
  - unfold starfieldBypassed, Starfield.init. rewrite Hskip.
    destruct (Starfield.overlayPresent next) eqn:Hov; cbn; rewrite ?Hov;
      repeat split; reflexivity.
  - destruct (skipped_init_idle next Hskip) as (Hl & Ha & Hp).
    now apply idle_loader_ignores.
Qed.

Lemma completed_loader_is_skipped_on_the_next_page_witness :
  Starfield.isComplete
    (Starfield.runEvents plainLoaderEnv [Starfield.Due Starfield.Fallback]
                         (Starfield.init plainLoaderEnv)) = true
  /\ starfieldBypassed
       (Starfield.init
          (Starfield.mkEnv true true true true
             (Starfield.session
                (Starfield.runEvents plainLoaderEnv
                   [Starfield.Due Starfield.Fallback]
                   (Starfield.init plainLoaderEnv)))
             false false true)).
Proof.
  split; [reflexivity|].
  apply (completed_loader_is_skipped_on_the_next_page plainLoaderEnv
           (Starfield.mkEnv true true true true
              (Starfield.session
                 (Starfield.runEvents plainLoaderEnv
                    [Starfield.Due Starfield.Fallback]
                    (Starfield.init plainLoaderEnv)))
              false false true)
           [Starfield.Due Starfield.Fallback] []);
    [reflexivity | vm_compute; discriminate | reflexivity].
Defined.

Lemma fire_stuck (e : Starfield.Env) (ev : Starfield.Event)
      (s : Starfield.Loader) :
  loaderStuck s -> loaderStuck (Starfield.fire e ev s).
Proof.
  intros (Hacc & Ho & Ha & Hd & Hr & Hp).
  assert (Hset : LocalStorage.setItem "loaderShown" "true" (Starfield.session s)
                 = None).
  { unfold acceptsFlag in Hacc.
    destruct (LocalStorage.setItem _ _ _); [|reflexivity].
    exfalso. apply Hacc. discriminate. }
  assert (Hcomplete : forall t, Starfield.session t = Starfield.session s ->
            loaderStuck t -> loaderStuck (Starfield.complete t)).
  { intros t Ht Hstuck. unfold Starfield.complete, Starfield.markSession.
    destruct (Starfield.isComplete t); [assumption|].
    cbn [Starfield.session Starfield.set_completions Starfield.set_isComplete].
    rewrite Ht, Hset. revert Hstuck. unfold loaderStuck. now destruct t. }
  assert (Hskip : loaderStuck (Starfield.skip s)).
  { unfold Starfield.skip, Starfield.markSession.
    destruct (_ || _); [now repeat split|].
    cbn [Starfield.session Starfield.set_isSkipped].
    rewrite Hset. unfold loaderStuck. now destruct s. }
  destruct ev as [|key| |cb]; cbn [Starfield.fire].
  - destruct (_ && _); [exact Hskip|now repeat split].
  - destruct (_ && _); [exact Hskip|now repeat split].
  - destruct (Starfield.awaitingLoad s); [|now repeat split].
    unfold loaderStuck, Starfield.onResourcesLoaded. loader_fields s.
    cbn in *. repeat split; auto. apply Forall_app. split; [assumption|].
    apply Forall_cons_2; [split; discriminate|apply Forall_nil_2].
  - destruct (Starfield.takeOut cb (Starfield.pending s)) as [rest|] eqn:Ht;
      [|now repeat split].
    pose proof (takeOut_Forall _ cb _ rest Ht Hp) as Hrest.
    pose proof (takeOut_In cb _ rest Ht) as Hin.
    rewrite List.Forall_forall in Hp. apply Hp in Hin. destruct Hin as [Hf Hc].
    assert (Hstuck : loaderStuck (Starfield.set_pending rest s))
      by (unfold loaderStuck; loader_fields s; cbn in *; now repeat split).
    destruct cb; try contradiction; cbn [Starfield.run].
    + destruct (negb _ && negb _); [|assumption].
      apply Hcomplete; [now destruct s|assumption].
    + destruct (negb _ && negb _); [|assumption].
      apply Hcomplete; [now destruct s|assumption].
    + revert Hstuck. unfold loaderStuck, Starfield.animateStarfield.
      loader_fields s. cbn. destruct c; cbn; [tauto|].
      intros (H1 & H2 & H3 & H4 & H5 & H6). repeat split; auto.
      apply Forall_app. split; [assumption|].
      apply Forall_cons_2; [split; discriminate|apply Forall_nil_2].
    + revert Hstuck. unfold loaderStuck. loader_fields s. cbn. tauto.
Qed.

(** X29: when [sessionStorage] refuses the loader's write ([setItem]
    throws), the loader never leaves: whatever events arrive, the
    overlay stays in the document without its fade, the body class stays
    on, the content is not revealed and [loaderComplete] is not
    dispatched. *)
Theorem refused_session_write_leaves_the_loader_up
        (e : Starfield.Env) (evs : list Starfield.Event) :
  Starfield.overlayPresent e = true ->
  Starfield.shouldSkip e = Some false ->
  ~ acceptsFlag (Starfield.sessionStorage e) ->
  let s := Starfield.runEvents e evs (Starfield.init e) in
  Starfield.overlay s = Starfield.Shown false false
  /\ Starfield.loaderActive s = true
  /\ Starfield.revealed s = 0
  /\ Starfield.dispatched s = 0.
Proof.
  intros Hov Hskip Hacc. cbv zeta.
  assert (Hinit : loaderStuck (Starfield.init e)).
  { unfold Starfield.init. rewrite Hov, Hskip.
    destruct e as [ov ca sk pr se sp rm rc].
    cbn [Starfield.overlayPresent Starfield.sessionStorage] in *.
    subst ov. clear Hskip. unfold loaderStuck.
    destruct rm, ca, pr, rc; cbn; repeat split; auto;
      repeat first [apply Forall_nil_2 | apply Forall_cons_2];
      split; discriminate. }
  assert (Hrun : forall l s0, loaderStuck s0 ->
                              loaderStuck (Starfield.runEvents e l s0)).
  { induction l as [|ev l IH]; intros s0 H0; [exact H0|].
    cbn. apply IH. now apply fire_stuck. }
  destruct (Hrun evs _ Hinit) as (_ & Ho & Ha & Hd & Hr & _). tauto.
Qed.

Lemma refused_session_write_leaves_the_loader_up_witness :
  ~ acceptsFlag fullStorage
  /\ Starfield.overlay
       (Starfield.runEvents
          (Starfield.mkEnv true true true true fullStorage false false false)
          [Starfield.SkipClick; Starfield.Due Starfield.Fallback;
           Starfield.WindowLoad; Starfield.Due Starfield.MinDisplay;
           Starfield.Due Starfield.FadeOut; Starfield.Due Starfield.Cleanup]
          (Starfield.init
             (Starfield.mkEnv true true true true fullStorage false false
                              false)))
     = Starfield.Shown false false.
Proof.
  assert (Hfull : ~ acceptsFlag fullStorage)
    by (intros H; apply H; reflexivity).
  split; [exact Hfull|].
  apply (refused_session_write_leaves_the_loader_up
           (Starfield.mkEnv true true true true fullStorage false false false)
           [Starfield.SkipClick; Starfield.Due Starfield.Fallback;
            Starfield.WindowLoad; Starfield.Due Starfield.MinDisplay;
            Starfield.Due Starfield.FadeOut; Starfield.Due Starfield.Cleanup]
           eq_refl eq_refl Hfull).
Defined.

(** X18: after a skip whose record reaches [localStorage], a later
    page load (without reduced motion and without [skip=true]) bypasses
    the welcome animation exactly while its clock is below the clock at
    the skip plus 24 hours. *)
Theorem welcome_skip_is_remembered_for_a_day
        (stringify : Json.value -> option string)
        (parse : string -> option Json.value)
        (e next : Welcome.Env) (s : Welcome.Anim) :
  serialisable stringify parse (skipRecordAt (Welcome.now e)) ->
  Welcome.hasSkipped s = false ->
  Welcome.animationComplete s = false ->
  fst (Utils.storage_set stringify "welcomeSkipped"
                         (skipRecordAt (Welcome.now e)) (Welcome.stored s))
  = true ->
  Welcome.localStorage next = Welcome.stored (Welcome.skip stringify e s) ->
  Welcome.reducedMotion next = false ->
  Welcome.skipParam next = false ->
  Welcome.shouldSkipAnimation parse next
  = (Welcome.now next <? Welcome.now e + 24 * 60 * 60 * 1000)%Z.
Proof.
  intros Hser Hs Ha Hok Hnext Hrm Hsp.
  assert (Hstored : Welcome.stored (Welcome.skip stringify e s)
                    = snd (Utils.storage_set stringify "welcomeSkipped"
                             (skipRecordAt (Welcome.now e))
                             (Welcome.stored s))).
  { unfold Welcome.skip. rewrite Hs, Ha. cbn [orb].
    rewrite welcome_fadeOut_noop by reflexivity. reflexivity. }
  unfold Welcome.shouldSkipAnimation. rewrite Hnext, Hstored, Hrm, Hsp.
  destruct (Utils.storage_set stringify "welcomeSkipped"
              (skipRecordAt (Welcome.now e)) (Welcome.stored s))
    as [ok ls'] eqn:Hset.
  cbn [fst snd] in *. subst ok.
  rewrite (storage_set_get stringify parse _ _ Json.Null _ ls' Hser Hset).
  cbn. now destruct (_ <? _)%Z.
Qed.

Lemma welcome_skip_is_remembered_for_a_day_witness :
  Welcome.shouldSkipAnimation refParse
    (Welcome.mkEnv true true true true true false false 1700003600000%Z
       (Welcome.stored
          (Welcome.skip refStringify plainWelcomeEnv
             (Welcome.init refParse plainWelcomeEnv))))
  = (1700003600000 <? 1700000000000 + 24 * 60 * 60 * 1000)%Z.
Proof.
  apply (welcome_skip_is_remembered_for_a_day refStringify refParse
           plainWelcomeEnv
           (Welcome.mkEnv true true true true true false false
              1700003600000%Z
              (Welcome.stored
                 (Welcome.skip refStringify plainWelcomeEnv
                    (Welcome.init refParse plainWelcomeEnv))))
           (Welcome.init refParse plainWelcomeEnv));
    try reflexivity.
  apply reference_codec_serialisable.
Defined.

(** ** Who can skip the welcome animation *)

Lemma fire_without_skip (stringify : Json.value -> option string)
      (e : Welcome.Env) (ev : Welcome.Event) (s : Welcome.Anim) :
  unskipped e s ->
  (isSkipClick ev = true -> Welcome.buttonListening s = false) ->
  (isEscape ev = true -> Welcome.escapeArmed s = false) ->
  unskipped e (Welcome.fire stringify e ev s)
  /\ Welcome.buttonListening (Welcome.fire stringify e ev s)
     = Welcome.buttonListening s
  /\ Welcome.escapeArmed (Welcome.fire stringify e ev s)
     = (if isKeydown ev then false else Welcome.escapeArmed s).
Proof.
  unfold unskipped. welcome_fields s. cbn.
  intros [-> ->] Hclick Hesc. destruct ev as [|key| |cb]; cbn in *.
  - now rewrite (Hclick eq_refl).
  - destruct ea; [|auto]. destruct (String.eqb key "Escape");
      [now specialize (Hesc eq_refl)|auto].
  - destruct wt as [k|]; [|auto]. unfold Welcome.resume. cbn.
    destruct k as [|[|[|[|[|[|k]]]]]]; cbn; auto.
    + unfold Welcome.triggerGlitch. cbn. destruct (_ && _); cbn; auto.
    + unfold Welcome.fadeOut. cbn. destruct ac; cbn; auto.
  - destruct (Welcome.takeOut cb pe) as [rest|]; [|auto].
    destruct cb; cbn; auto.
Qed.

(** With the key listener spent, only a click on a listening button
    can skip. *)
Lemma runEvents_without_skip (stringify : Json.value -> option string)
      (e : Welcome.Env) (evs : list Welcome.Event) (s : Welcome.Anim) :
  unskipped e s ->
  Welcome.escapeArmed s = false ->
  Welcome.buttonListening s = false
  \/ forallb (fun ev => negb (isSkipClick ev)) evs = true ->
  unskipped e (Welcome.runEvents stringify e evs s).
Proof.
  revert s. induction evs as [|ev evs IH]; intros s Hs Harm Hclicks;
    [assumption|].
  cbn. destruct (fire_without_skip stringify e ev s Hs) as (Hs' & Hb & Ha).
  - intros Hev. destruct Hclicks as [Hl|Hq]; [assumption|].
    cbn in Hq. rewrite Hev in Hq. discriminate.
  - intros _. exact Harm.
  - apply IH; [assumption| |].
    + rewrite Ha, Harm. now destruct (isKeydown ev).
    + rewrite Hb. destruct Hclicks as [Hl|Hq]; [now left|right].
      cbn in Hq. now apply andb_true_iff in Hq.
Qed.

Lemma init_unskipped (parse : string -> option Json.value)
      (e : Welcome.Env) :
  unskipped e (Welcome.init parse e).
Proof.
  unfold Welcome.init, unskipped.
  destruct (Welcome.shouldSkipAnimation parse e); cbn; auto.
Qed.

(** X19: the key listener is installed with [once]: when the first key
    pressed is not Escape, the listener is spent, and no later key
    press, Escape included, skips the animation or writes the
    preference. *)
Theorem first_key_spends_the_escape_listener
        (stringify : Json.value -> option string)
        (parse : string -> option Json.value) (e : Welcome.Env)
        (before after : list Welcome.Event) (key : string) :
  key <> "Escape" ->
  forallb (fun ev => negb (isKeydown ev) && negb (isSkipClick ev)) before
  = true ->
  forallb (fun ev => negb (isSkipClick ev)) after = true ->
  unskipped e
    (Welcome.runEvents stringify e (before ++ Welcome.Keydown key :: after)
                       (Welcome.init parse e)).
Proof.
  intros Hkey Hbefore Hafter. unfold Welcome.runEvents.
  rewrite fold_left_app. cbn [fold_left].
  fold (Welcome.runEvents stringify e before (Welcome.init parse e)).
  set (s1 := Welcome.runEvents stringify e before (Welcome.init parse e)).
  assert (H1 : unskipped e s1).
  { subst s1. generalize (init_unskipped parse e).
    generalize (Welcome.init parse e).
    induction before as [|ev before IH]; intros s Hs; [assumption|].
    cbn in Hbefore. apply andb_true_iff in Hbefore.
    destruct Hbefore as [Hev Hbefore].
    apply andb_true_iff in Hev. destruct Hev as [Hk Hc].
    apply negb_true_iff in Hk, Hc.
    cbn. apply (IH Hbefore).
    apply fire_without_skip; [assumption| |].
    - intros Hx. rewrite Hx in Hc. discriminate.
    - intros Hx. destruct ev; cbn in *; discriminate. }
  set (s2 := Welcome.fire stringify e (Welcome.Keydown key) s1).
  destruct (fire_without_skip stringify e (Welcome.Keydown key) s1 H1)
    as (H2 & _ & Harm).
  - discriminate.
  - cbn. apply String.eqb_neq in Hkey. rewrite Hkey. discriminate.
  - fold (Welcome.runEvents stringify e after s2).
    apply runEvents_without_skip; [exact H2|exact Harm|now right].
Qed.

Lemma first_key_spends_the_escape_listener_witness :
  unskipped plainWelcomeEnv
    (Welcome.runEvents refStringify plainWelcomeEnv
       ([Welcome.WaitDone] ++ Welcome.Keydown "Tab"
          :: [Welcome.Keydown "Escape"; Welcome.WaitDone;
              Welcome.Keydown "Escape"])
       (Welcome.init refParse plainWelcomeEnv)).
Proof.
  apply (first_key_spends_the_escape_listener refStringify refParse
           plainWelcomeEnv [Welcome.WaitDone]
           [Welcome.Keydown "Escape"; Welcome.WaitDone;
            Welcome.Keydown "Escape"] "Tab");
    [discriminate | reflexivity | reflexivity].
Defined.

(** X20: without the skip button nothing can skip: [setupSkipButton]
    installs the Escape listener only together with the button's, so no
    event sets [hasSkipped] or writes the preference. *)
Theorem no_skip_without_the_button
        (stringify : Json.value -> option string)
        (parse : string -> option Json.value) (e : Welcome.Env)
        (evs : list Welcome.Event) :
  Welcome.skipBtnPresent e = false ->
  unskipped e (Welcome.runEvents stringify e evs (Welcome.init parse e)).
Proof.
  intros Hbtn.
  assert (Hl : Welcome.buttonListening (Welcome.init parse e) = false
               /\ Welcome.escapeArmed (Welcome.init parse e) = false).
  { unfold Welcome.init.
    destruct (Welcome.shouldSkipAnimation parse e); cbn; rewrite ?Hbtn; auto. }
  destruct Hl as [Hl Ha].
  apply runEvents_without_skip;
    [apply init_unskipped|exact Ha|now left].
Qed.

Lemma no_skip_without_the_button_witness :
  unskipped
    (Welcome.mkEnv true true true false true false false 1700000000000%Z
                   emptyStorage)
    (Welcome.runEvents refStringify
       (Welcome.mkEnv true true true false true false false 1700000000000%Z
                      emptyStorage)
       [Welcome.Keydown "Escape"; Welcome.SkipClick]
       (Welcome.init refParse
          (Welcome.mkEnv true true true false true false false
                         1700000000000%Z emptyStorage))).
Proof.
  apply (no_skip_without_the_button refStringify refParse
           (Welcome.mkEnv true true true false true false false
                          1700000000000%Z emptyStorage)
           [Welcome.Keydown "Escape"; Welcome.SkipClick] eq_refl).
Defined.

(** ** How the welcome animation ends *)

Lemma welcome_takeOut_In (cb x : Welcome.Callback)
      (l rest : list Welcome.Callback) :
  Welcome.takeOut cb l = Some rest ->
  (In cb l) /\ (x <> cb -> In x l -> In x rest) /\ (In x rest -> In x l).
Proof.
  revert rest. induction l as [|y l IH]; intros rest; cbn; [discriminate|].
  destruct (decide (y = cb)) as [->|Hne].
  - intros [= <-]. repeat split; auto. intros Hx [E|Hin]; congruence.
  - destruct (Welcome.takeOut cb l) as [r|]; [|discriminate].
    intros [= <-]. destruct (IH r eq_refl) as (H1 & H2 & H3).
    repeat split; auto.
    + intros Hx [E|Hin]; [now left|right; auto].
    + intros [E|Hin]; auto.
Qed.

Lemma welcome_takeOut_pending (cb : Welcome.Callback)
      (l : list Welcome.Callback) :
  In cb l -> exists rest, Welcome.takeOut cb l = Some rest.
Proof.
  induction l as [|y l IH]; [contradiction|]. cbn.
  destruct (decide (y = cb)) as [->|Hne]; [eauto|].
  intros [E|Hin]; [contradiction|].
  destruct (IH Hin) as [r ->]. cbn. eauto.
Qed.

Ltac welcome_basic :=
  solve [ reflexivity | discriminate | congruence | lia | assumption
        | apply in_or_app; right; now left
        | apply in_or_app; left; assumption ].

Ltac welcome_atoms :=
  try first
    [ welcome_basic
    | match goal with
      | Hk : forall k, ?w = Some k -> _, H0 : ?w = Some ?k |- _ =>
          solve [ specialize (Hk _ H0); intuition welcome_basic ]
      | H0 : Some _ = Some _ |- _ =>
          solve [ inversion H0; subst; intuition welcome_basic ]
      end ].

Lemma init_started (parse : string -> option Json.value) (e : Welcome.Env) :
  Welcome.shouldSkipAnimation parse e = false ->
  welcomeStarted e (Welcome.init parse e).
Proof.
  intros Hskip. unfold Welcome.init, welcomeStarted, overlayAtStart.
  rewrite Hskip. cbn.
  repeat split; intros; try congruence; try (inversion H0; lia); auto.
Qed.

Lemma fire_started (stringify : Json.value -> option string)
      (e : Welcome.Env) (ev : Welcome.Event) (s : Welcome.Anim) :
  welcomeStarted e s -> welcomeStarted e (Welcome.fire stringify e ev s).
Proof.
  destruct ev as [|key| |cb]; cbn [Welcome.fire].
  - destruct (Welcome.buttonListening s); [|trivial].
    unfold Welcome.skip, Welcome.fadeOut, welcomeStarted.
    welcome_fields s. cbn. destruct hs, ac; cbn; intuition welcome_atoms.
  - destruct (Welcome.escapeArmed s) eqn:Harm; [|trivial].
    destruct (String.eqb key "Escape").
    + unfold Welcome.skip, Welcome.fadeOut, welcomeStarted.
      welcome_fields s. cbn. destruct hs, ac; cbn; intuition welcome_atoms.
    + unfold welcomeStarted. welcome_fields s. cbn. trivial.
  - destruct (Welcome.waiting s) as [k|] eqn:Hw; [|trivial].
    unfold Welcome.resume. destruct (Welcome.hasSkipped s) eqn:Hs.
    + unfold welcomeStarted. welcome_fields s. cbn in *. subst hs.
      intuition welcome_atoms.
    + intros (H1 & H2 & H3). destruct (H3 Hs) as (Hk & Hn & Hf & Hd).
      destruct (Hk k Hw) as [Hrange Hac]. destruct (H2 Hac) as (A & D & O & P).
      clear H1 H2 H3 Hk Hn Hf Hd.
      unfold welcomeStarted, Welcome.triggerGlitch, Welcome.fadeOut.
      welcome_fields s. cbn in *. subst hs ac wt wa di.
      destruct k as [|[|[|[|[|[|k]]]]]]; try lia; cbn;
        try destruct (_ && _); cbn;
        repeat split; intros; try congruence; try lia;
        try (inversion H0; lia); auto; welcome_atoms.
      * intros Hin. apply in_app_or in Hin. destruct Hin as [Hin|[Hin|[]]];
          [contradiction|discriminate].
  - destruct (Welcome.takeOut cb (Welcome.pending s)) as [rest|] eqn:Ht;
      [|trivial].
    intros (H1 & H2 & H3).
    destruct (welcome_takeOut_In cb Welcome.FadeTimer _ rest Ht)
      as (Hin & Hkeep & Hback).
    unfold welcomeStarted. welcome_fields s. cbn in *.
    destruct cb; cbn.
    + destruct hs, ac; cbn; intuition welcome_atoms.
    + pose proof (Hkeep ltac:(discriminate)) as KF.
      destruct hs, ac; cbn; intuition welcome_atoms.
Qed.

Lemma runEvents_started (stringify : Json.value -> option string)
      (e : Welcome.Env) (evs : list Welcome.Event) (s : Welcome.Anim) :
  welcomeStarted e s -> welcomeStarted e (Welcome.runEvents stringify e evs s).
Proof.
  revert s. induction evs as [|ev evs IH]; intros s Hs; [assumption|].
  cbn. apply IH. now apply fire_started.
Qed.

(** X22: a skipped welcome animation never finishes: [skip] sets
    [hasSkipped] before it calls [fadeOut], which returns at once, so in
    every state with the flag set the overlay is still as the constructor
    found it, the body class is still on and [welcomeComplete] was not
    dispatched. *)
Theorem skipped_welcome_never_finishes
        (stringify : Json.value -> option string)
        (parse : string -> option Json.value) (e : Welcome.Env)
        (evs : list Welcome.Event) :
  Welcome.shouldSkipAnimation parse e = false ->
  let s := Welcome.runEvents stringify e evs (Welcome.init parse e) in
  Welcome.hasSkipped s = true ->
  Welcome.overlay s = overlayAtStart e
  /\ Welcome.welcomeActive s = true
  /\ Welcome.dispatched s = 0.
Proof.
  intros Hskip. cbv zeta. intros Hs.
  destruct (runEvents_started stringify e evs _ (init_started parse e Hskip))
    as (H1 & H2 & _).
  destruct (H2 (H1 Hs)) as (A & D & O & _). auto.
Qed.

Lemma skipped_welcome_never_finishes_witness :
  let s := Welcome.runEvents refStringify plainWelcomeEnv
             [Welcome.WaitDone; Welcome.SkipClick; Welcome.WaitDone;
              Welcome.Due Welcome.FadeTimer; Welcome.WaitDone;
              Welcome.WaitDone; Welcome.WaitDone; Welcome.WaitDone]
             (Welcome.init refParse plainWelcomeEnv) in
  Welcome.overlay s = Welcome.Shown false
  /\ Welcome.welcomeActive s = true
  /\ Welcome.dispatched s = 0.
Proof.
  cbv zeta.
  apply (skipped_welcome_never_finishes refStringify refParse plainWelcomeEnv
           [Welcome.WaitDone; Welcome.SkipClick; Welcome.WaitDone;
            Welcome.Due Welcome.FadeTimer; Welcome.WaitDone;
            Welcome.WaitDone; Welcome.WaitDone; Welcome.WaitDone]
           eq_refl eq_refl).
Defined.

Lemma runEvents_quiet (stringify : Json.value -> option string)
      (e : Welcome.Env) (evs : list Welcome.Event) (s : Welcome.Anim) :
  forallb (fun ev => negb (isSkipClick ev) && negb (isEscape ev)) evs = true ->
  unskipped e s -> unskipped e (Welcome.runEvents stringify e evs s).
Proof.
  revert s. induction evs as [|ev evs IH]; intros s Hq Hs; [assumption|].
  cbn in Hq. apply andb_true_iff in Hq. destruct Hq as [Hev Hq].
  apply andb_true_iff in Hev. destruct Hev as [Hc Hk].
  apply negb_true_iff in Hc, Hk.
  cbn. apply (IH _ Hq).
  apply fire_without_skip; [assumption| |]; intros Hx; congruence.
Qed.

Lemma waits_run_out (stringify : Json.value -> option string)
      (e : Welcome.Env) (n : nat) (s : Welcome.Anim) :
  welcomeStarted e s -> Welcome.hasSkipped s = false -> stepsLeft s <= n ->
  Welcome.waiting
    (Welcome.runEvents stringify e (repeat Welcome.WaitDone n) s) = None.
Proof.
  revert s. induction n as [|n IH]; intros s Hst Hs Hleft.
  - cbn. unfold stepsLeft in Hleft.
    destruct (Welcome.waiting s) as [k|] eqn:Hw; [|reflexivity].
    destruct Hst as (_ & _ & H3). destruct (H3 Hs) as (Hk & _).
    destruct (Hk k Hw). lia.
  - cbn [repeat Welcome.runEvents fold_left].
    fold (Welcome.runEvents stringify e (repeat Welcome.WaitDone n)
            (Welcome.fire stringify e Welcome.WaitDone s)).
    apply IH.
    + now apply fire_started.
    + revert Hs. welcome_fields s. cbn. intros ->.
      destruct wt as [k|]; [|reflexivity]. unfold Welcome.resume. cbn.
      destruct k as [|[|[|[|[|[|k]]]]]]; cbn; try reflexivity.
      * unfold Welcome.triggerGlitch. cbn. now destruct (_ && _).
      * unfold Welcome.fadeOut. cbn. now destruct ac.
    + revert Hs Hleft. unfold stepsLeft. welcome_fields s. cbn. intros ->.
      destruct wt as [k|]; [|cbn; lia]. unfold Welcome.resume. cbn.
      destruct k as [|[|[|[|[|[|k]]]]]]; cbn; try lia.
Qed.

(** X21: without a skip the welcome animation ends by itself: once the
    five waits of [startAnimation] and the fade timer are over, the
    overlay is out of the document, the body class is off and
    [welcomeComplete] was dispatched exactly once, whatever other events
    came before. *)
Theorem uninterrupted_welcome_removes_the_overlay
        (stringify : Json.value -> option string)
        (parse : string -> option Json.value) (e : Welcome.Env)
        (evs : list Welcome.Event) :
  Welcome.shouldSkipAnimation parse e = false ->
  forallb (fun ev => negb (isSkipClick ev) && negb (isEscape ev)) evs = true ->
  let final :=
    Welcome.runEvents stringify e
      (evs ++ repeat Welcome.WaitDone 5 ++ [Welcome.Due Welcome.FadeTimer])
      (Welcome.init parse e) in
  Welcome.overlay final = Welcome.Gone
  /\ Welcome.welcomeActive final = false
  /\ Welcome.dispatched final = 1
  /\ unskipped e final.
Proof.
  intros Hskip Hquiet. cbv zeta. unfold Welcome.runEvents.
  rewrite !fold_left_app.
  fold (Welcome.runEvents stringify e evs (Welcome.init parse e)).
  set (s1 := Welcome.runEvents stringify e evs (Welcome.init parse e)).
  fold (Welcome.runEvents stringify e (repeat Welcome.WaitDone 5) s1).
  set (s2 := Welcome.runEvents stringify e (repeat Welcome.WaitDone 5) s1).
  cbn [fold_left].
  set (final := Welcome.fire stringify e (Welcome.Due Welcome.FadeTimer) s2).
  assert (T1 : welcomeStarted e s1)
    by (apply runEvents_started; now apply init_started).
  assert (U1 : unskipped e s1)
    by (apply runEvents_quiet; [assumption|apply init_unskipped]).
  assert (T2 : welcomeStarted e s2) by now apply runEvents_started.
  assert (U2 : unskipped e s2) by now apply runEvents_quiet.
  assert (W2 : Welcome.waiting s2 = None).
  { apply waits_run_out; [assumption|apply U1|].
    unfold stepsLeft. destruct (Welcome.waiting s1) as [k|] eqn:Hw; [|lia].
    destruct T1 as (_ & _ & H3). destruct (H3 (proj1 U1)) as (Hk & _).
    destruct (Hk k Hw). lia. }
  assert (Tf : welcomeStarted e final) by now apply fire_started.
  assert (Uf : unskipped e final)
    by (apply fire_without_skip; [assumption|discriminate|discriminate]).
  assert (Df : 1 <= Welcome.dispatched final).
  { destruct T2 as (_ & _ & H3).
    destruct (H3 (proj1 U2)) as (_ & Hn & Hf & _).
    specialize (Hf (Hn W2)). subst final. cbn [Welcome.fire].
    destruct (Welcome.dispatched s2) as [|d] eqn:Hd.
    - destruct (welcome_takeOut_pending _ _ (Hf eq_refl)) as [rest ->].
      destruct s2; cbn. lia.
    - destruct (Welcome.takeOut _ _) as [rest|]; [destruct s2; cbn|]; lia. }
  assert (Of : Welcome.dispatched final <= 1).
  { apply welcomeInv_once. subst final s2 s1.
    apply welcome_fire_inv, welcome_runEvents_inv, welcome_runEvents_inv,
      welcome_init_inv. }
  destruct Tf as (_ & _ & H3). destruct (H3 (proj1 Uf)) as (_ & _ & _ & Hd).
  destruct (Hd Df). repeat split; auto; try lia; apply Uf.
Qed.

Lemma uninterrupted_welcome_removes_the_overlay_witness :
  Welcome.overlay
    (Welcome.runEvents refStringify plainWelcomeEnv
       ([Welcome.WaitDone; Welcome.Keydown "Tab"; Welcome.WaitDone]
        ++ repeat Welcome.WaitDone 5 ++ [Welcome.Due Welcome.FadeTimer])
       (Welcome.init refParse plainWelcomeEnv))
  = Welcome.Gone.
Proof.
  apply (uninterrupted_welcome_removes_the_overlay refStringify refParse
           plainWelcomeEnv
           [Welcome.WaitDone; Welcome.Keydown "Tab"; Welcome.WaitDone]
           eq_refl eq_refl).
Defined.

(** ** The mobile menu *)

Lemma fireMenu_sync (m : Navigation.Menu) (ev : Navigation.MenuEvent) :
  menuInSync m -> menuInSync (Navigation.fireMenu m ev).
Proof.
  unfold menuInSync. destruct m as [op [h|] [mm|] [ov|] cl]; cbn;
    try tauto; intros (Hh & Hm & Ho & ->);
    destruct ev as [| | |key|w]; cbn; unfold Navigation.toggleMenu; cbn;
    repeat match goal with
           | |- context [if ?c then _ else _] => destruct c eqn:?; cbn
           end; auto.
Qed.

Lemma runMenu_sync (evs : list Navigation.MenuEvent) (m : Navigation.Menu) :
  menuInSync m -> menuInSync (Navigation.runMenu evs m).
Proof.
  revert m. induction evs as [|ev evs IH]; intros m Hm; [assumption|].
  cbn. apply IH. now apply fireMenu_sync.
Qed.

Lemma sync_shape (m : Navigation.Menu) :
  menuInSync m ->
  m = Navigation.mkMenu (Navigation.isMenuOpen m)
        (Navigation.mark (Navigation.isMenuOpen m) (Navigation.hamburger m))
        (Navigation.mark (Navigation.isMenuOpen m) (Navigation.mobileMenu m))
        (Navigation.mark (Navigation.isMenuOpen m)
                         (Navigation.mobileOverlay m))
        (Navigation.isMenuOpen m).
Proof.
  unfold menuInSync. destruct m as [op h mm ov cl]. cbn.
  now intros (<- & <- & <- & ->).
Qed.

(** X23: on a page whose menu markup starts closed, after any events
    every menu element that exists carries its class exactly when
    [isMenuOpen] is set, and so does the body; two hamburger clicks in a
    row change nothing, and Escape leaves the menu closed. *)
Theorem menu_classes_follow_the_flag
        (hamburgerEl mobileMenuEl mobileOverlayEl : option bool)
        (evs : list Navigation.MenuEvent) :
  let m :=
    Navigation.runMenu evs
      (Navigation.freshMenu (Navigation.mark false hamburgerEl)
                            (Navigation.mark false mobileMenuEl)
                            (Navigation.mark false mobileOverlayEl) false) in
  menuInSync m
  /\ Navigation.runMenu [Navigation.HamburgerClick; Navigation.HamburgerClick]
                        m = m
  /\ Navigation.isMenuOpen
       (Navigation.fireMenu m (Navigation.Keydown "Escape")) = false.
Proof.
  cbv zeta.
  set (m0 := Navigation.freshMenu _ _ _ _).
  assert (H0 : menuInSync m0)
    by (subst m0; unfold menuInSync;
        destruct hamburgerEl, mobileMenuEl, mobileOverlayEl; cbn; auto).
  assert (Hwired : forall m,
             (Navigation.hamburger m = None \/ Navigation.mobileMenu m = None)
             -> Navigation.isMenuOpen m = false ->
             Navigation.runMenu evs m = m).
  { intros m Hw Hop. induction evs as [|ev evs IH]; [reflexivity|].
    cbn. assert (E : Navigation.fireMenu m ev = m)
      by (unfold Navigation.fireMenu;
          destruct Hw as [-> | ->]; [|destruct (Navigation.hamburger m)];
          reflexivity).
    rewrite E. exact IH. }
  pose proof (runMenu_sync evs m0 H0) as Hm.
  split; [exact Hm|].
  destruct hamburgerEl as [h|]; [destruct mobileMenuEl as [mm|]|].
  - assert (Hel : forall evs' m,
               Navigation.hamburger m <> None ->
               Navigation.mobileMenu m <> None ->
               Navigation.hamburger (Navigation.runMenu evs' m) <> None
               /\ Navigation.mobileMenu (Navigation.runMenu evs' m) <> None).
    { induction evs' as [|ev evs' IH]; intros m Hh Hmm; [now split|].
      cbn. apply IH;
        destruct m as [op [x|] [y|] [z|] cl]; try contradiction;
        destruct ev as [| | |key|w]; cbn; unfold Navigation.toggleMenu;
        cbn;
        repeat match goal with
               | |- context [if ?c then _ else _] => destruct c; cbn
               end; discriminate. }
    destruct (Hel evs m0) as [Hh Hmm]; [discriminate|discriminate|].
    revert Hm Hh Hmm. generalize (Navigation.runMenu evs m0).
    intros m Hm. rewrite (sync_shape m Hm).
    destruct m as [op [x|] [y|] [z|] cl]; cbn; try contradiction;
      intros _ _; unfold Navigation.toggleMenu; destruct op; cbn; now split.
  - rewrite (Hwired m0) by (subst m0; cbn; auto). subst m0. now split.
  - rewrite (Hwired m0) by (subst m0; cbn; auto). subst m0. now split.
Qed.

(** ** The throttled scroll handlers *)

Lemma scroll_in_throttle (ys : list Z) (s : Navigation.Scroll) :
  Navigation.navInThrottle s = true ->
  (Navigation.backToTop s = None \/ Navigation.topInThrottle s = true) ->
  Navigation.runScroll (map Navigation.ScrollTo ys) s = s.
Proof.
  intros Hn Ht. induction ys as [|y ys IH]; [reflexivity|].
  cbn. assert (E : Navigation.topHandler y (Navigation.navHandler y s) = s).
  { unfold Navigation.navHandler. rewrite Hn. unfold Navigation.topHandler.
    destruct Ht as [-> | Ht]; [reflexivity|].
    rewrite Ht. now destruct (Navigation.backToTop s). }
  rewrite E. exact IH.
Qed.

Lemma timers_keep_classes (which : list bool) (s : Navigation.Scroll) :
  Navigation.navbar (Navigation.runScroll (resetTimers which) s)
  = Navigation.navbar s
  /\ Navigation.backToTop (Navigation.runScroll (resetTimers which) s)
     = Navigation.backToTop s
  /\ Navigation.lastScrollY (Navigation.runScroll (resetTimers which) s)
     = Navigation.lastScrollY s.
Proof.
  unfold Navigation.runScroll, resetTimers. revert s.
  induction which as [|b which IH]; intros s; [now repeat split|].
  cbn [map fold_left].
  destruct (IH (Navigation.fireScroll s
                  (if b then Navigation.NavTimerDue
                   else Navigation.TopTimerDue))) as (E1 & E2 & E3).
  rewrite E1, E2, E3.
  destruct b; cbn;
    [destruct (Navigation.navResets s)|destruct (Navigation.topResets s)];
    now repeat split.
Qed.

(** X24: the throttled scroll handlers look at the first position of a
    burst only: after a scroll event on a fresh page, further scroll
    events before the reset timers and the timers themselves leave the
    classes of the navbar and of the back-to-top button as the first
    position set them. *)
Theorem scroll_classes_show_the_first_position_of_a_burst
        (navbarEl backToTopEl : option bool) (y : Z) (ys : list Z)
        (which : list bool) :
  let final :=
    Navigation.runScroll
      (Navigation.ScrollTo y :: map Navigation.ScrollTo ys
       ++ resetTimers which)
      (Navigation.freshScroll navbarEl backToTopEl) in
  Navigation.navbar final = Navigation.mark (50 <? y)%Z navbarEl
  /\ Navigation.backToTop final = Navigation.mark (300 <? y)%Z backToTopEl
  /\ Navigation.lastScrollY final = y.
Proof.
  cbv zeta. unfold Navigation.runScroll. cbn [fold_left].
  rewrite fold_left_app.
  set (s1 := Navigation.fireScroll _ (Navigation.ScrollTo y)).
  fold (Navigation.runScroll (map Navigation.ScrollTo ys) s1).
  rewrite scroll_in_throttle.
  - fold (Navigation.runScroll (resetTimers which) s1).
    destruct (timers_keep_classes which s1) as (E1 & E2 & E3).
    rewrite E1, E2, E3.
    subst s1. destruct backToTopEl; now repeat split.
  - subst s1. now destruct backToTopEl.
  - subst s1. destruct backToTopEl; cbn; auto.
Qed.

(** ** The typewriter *)

Lemma substring_next (i : nat) (s : string) :
  i < String.length s ->
  String.substring 0 i s +:+ Typewriter.charAt i s
  = String.substring 0 (S i) s.
Proof.
  unfold Typewriter.charAt. revert i.
  induction s as [|c s IH]; intros i Hi; cbn in Hi; [lia|].
  destruct i as [|i].
  - cbn. now destruct s.
  - cbn [String.substring String.get]. rewrite str_append_cons.
    rewrite IH by lia. reflexivity.
Qed.

Lemma substring_all (s : string) :
  String.substring 0 (String.length s) s = s.
Proof. induction s as [|c s IH]; [reflexivity|]. cbn. now rewrite IH. Qed.

Lemma substring_beyond (s : string) (n : nat) :
  String.length s <= n -> String.substring 0 n s = s.
Proof.
  revert n. induction s as [|c s IH]; intros n Hn; [now destruct n|].
  destruct n as [|n]; [cbn in Hn; lia|]. cbn. rewrite IH; [reflexivity|].
  cbn in Hn. lia.
Qed.

Lemma typing_ticks (full : string) (loop cursor : bool) (k n : nat) :
  k + n <= String.length full ->
  Nat.iter n Typewriter.tick (typing full loop cursor k)
  = typing full loop cursor (k + n).
Proof.
  revert k. induction n as [|n IH]; intros k Hk.
  - now rewrite Nat.add_0_r.
  - rewrite Nat.iter_succ_r.
    replace (Typewriter.tick (typing full loop cursor k))
      with (typing full loop cursor (S k)).
    + rewrite IH by lia. f_equal. lia.
    + unfold Typewriter.tick, typing, Typewriter.type. cbn -[Nat.ltb].
      rewrite (proj2 (Nat.ltb_lt k (String.length full))) by lia.
      unfold Typewriter.schedule. cbn.
      now rewrite substring_next by lia.
Qed.

Lemma deleting_ticks (full : string) (loop cursor : bool) (k n : nat) :
  n <= k ->
  Nat.iter n Typewriter.tick (deleting full loop cursor k)
  = deleting full loop cursor (k - n).
Proof.
  revert k. induction n as [|n IH]; intros k Hk.
  - now rewrite Nat.sub_0_r.
  - rewrite Nat.iter_succ_r.
    replace (Typewriter.tick (deleting full loop cursor k))
      with (deleting full loop cursor (k - 1)).
    + rewrite IH by lia. f_equal. lia.
    + unfold Typewriter.tick, deleting, Typewriter.delete. cbn -[Nat.ltb].
      rewrite (proj2 (Nat.ltb_lt 0 k)) by lia. reflexivity.
Qed.

Lemma start_typing (datasetTypewriter : option string) (elementText : string)
      (optLoop optCursor : option bool) :
  let t := Typewriter.create datasetTypewriter elementText optLoop optCursor in
  Typewriter.start t
  = typing (Typewriter.text t) (Typewriter.loop t) true 0.
Proof.
  cbv zeta. unfold Typewriter.start, Typewriter.create, typing. cbn.
  destruct optCursor as [[|]|]; cbn;
    now destruct (Js.orElse datasetTypewriter elementText).
Qed.

(** X25: without [loop] the typewriter shows, after [n] timer steps,
    the first [n] characters of the text (all of it from its length on);
    the cursor class is on while [n] is at most the length and is taken
    off by the step after, which schedules nothing more.  The cursor
    class is on whatever [options.cursor] says. *)
Theorem typewriter_types_the_text_and_stops
        (datasetTypewriter : option string) (elementText : string)
        (optCursor : option bool) (n : nat) :
  let t0 := Typewriter.create datasetTypewriter elementText None optCursor in
  let full := Typewriter.text t0 in
  let t := Nat.iter n Typewriter.tick (Typewriter.start t0) in
  Typewriter.textContent t = String.substring 0 n full
  /\ Typewriter.cursorClass t = (n <=? String.length full)%nat
  /\ Typewriter.pending t
     = (if (n <=? String.length full)%nat then [Typewriter.TypeNext] else []).
Proof.
  cbv zeta. rewrite start_typing.
  set (t0 := Typewriter.create datasetTypewriter elementText None optCursor).
  set (full := Typewriter.text t0).
  change (Typewriter.loop t0) with false.
  destruct (Nat.leb_spec n (String.length full)) as [Hle|Hgt].
  - rewrite (typing_ticks full false true 0 n) by lia. cbn. auto.
  - assert (Hdone : Typewriter.tick (typing full false true
                                       (String.length full))
                    = Typewriter.mkEffect full false true full false
                        (String.length full) []).
    { unfold Typewriter.tick, typing, Typewriter.type. cbn -[Nat.ltb].
      rewrite Nat.ltb_irrefl. now rewrite substring_all. }
    assert (Hidle : forall m t, Typewriter.pending t = [] ->
                                Nat.iter m Typewriter.tick t = t).
    { induction m as [|m IH]; intros t Ht; [reflexivity|].
      rewrite Nat.iter_succ_r. unfold Typewriter.tick at 2. rewrite Ht.
      now apply IH. }
    assert (E : Nat.iter n Typewriter.tick (typing full false true 0)
                = Typewriter.mkEffect full false true full false
                    (String.length full) []).
    { replace n with ((n - S (String.length full))
                      + S (String.length full)) by lia.
      rewrite Nat.iter_add, Nat.iter_succ,
        (typing_ticks full false true 0 (String.length full)) by lia.
      cbn [Nat.add]. rewrite Hdone. now apply Hidle. }
    rewrite E. cbn. repeat split.
    symmetry. apply substring_beyond. exact (Nat.lt_le_incl _ _ Hgt).
Qed.

(** X26: with [loop] the typewriter runs in rounds of twice the length
    of the text plus two timer steps: after any number of rounds it is
    back in the state that [start] left, so it never stops. *)
Theorem looping_typewriter_starts_over
        (datasetTypewriter : option string) (elementText : string)
        (optCursor : option bool) (rounds : nat) :
  let t0 := Typewriter.create datasetTypewriter elementText (Some true)
                              optCursor in
  let len := String.length (Typewriter.text t0) in
  Nat.iter (rounds * (2 * len + 2)) Typewriter.tick (Typewriter.start t0)
  = Typewriter.start t0.
Proof.
  cbv zeta. rewrite start_typing.
  set (t0 := Typewriter.create datasetTypewriter elementText (Some true)
                               optCursor).
  set (full := Typewriter.text t0).
  change (Typewriter.loop t0) with true.
  assert (Hround : Nat.iter (2 * String.length full + 2) Typewriter.tick
                     (typing full true true 0)
                   = typing full true true 0).
  { replace (2 * String.length full + 2)
      with (S (String.length full + S (String.length full))) by lia.
    rewrite Nat.iter_succ, Nat.iter_add, Nat.iter_succ, typing_ticks by lia.
    cbn [Nat.add].
    replace (Typewriter.tick (typing full true true (String.length full)))
      with (deleting full true true (String.length full))
      by (unfold Typewriter.tick, typing, deleting, Typewriter.type;
          cbn -[Nat.ltb]; now rewrite Nat.ltb_irrefl).
    rewrite deleting_ticks, Nat.sub_diag by lia.
    reflexivity. }
  induction rounds as [|rounds IH]; [reflexivity|].
  rewrite Nat.mul_succ_l, Nat.iter_add, Hround. exact IH.
Qed.

(** ** Page names *)

Lemma lastSegmentFrom_slash (piece dir rest : string) :
  Js.lastSegmentFrom piece (dir +:+ String "/" rest)
  = Js.lastSegmentFrom "" rest.
Proof.
  revert piece. induction dir as [|c dir IH]; intros piece.
  - reflexivity.
  - rewrite str_append_cons. cbn [Js.lastSegmentFrom].
    destruct (Ascii.eqb c "/"); apply IH.
Qed.

Lemma lastSegmentFrom_plain (piece seg : string) :
  allChars (fun c => negb (Ascii.eqb c "/")) seg = true ->
  Js.lastSegmentFrom piece seg = piece +:+ seg.
Proof.
  revert piece. induction seg as [|c seg IH]; intros piece Hs.
  - now rewrite str_append_nil.
  - cbn [allChars] in Hs. apply andb_true_iff in Hs. destruct Hs as [Hc Hs].
    cbn [Js.lastSegmentFrom]. apply negb_true_iff in Hc. rewrite Hc.
    rewrite IH by assumption. now rewrite str_append_assoc.
Qed.

Lemma replaceFirst_extension (name : string) :
  allChars (fun c => negb (Ascii.eqb c ".")) name = true ->
  Js.replaceFirst ".html" "" (name +:+ ".html") = name.
Proof.
  induction name as [|c name IH]; intros Hs; [reflexivity|].
  cbn [allChars] in Hs. apply andb_true_iff in Hs. destruct Hs as [Hc Hs].
  apply negb_true_iff in Hc. rewrite str_append_cons.
  cbn [Js.replaceFirst Js.afterPrefix].
  rewrite (Ascii.eqb_sym "." c), Hc. now rewrite IH.
Qed.

Lemma allChars_weaken (p q : ascii -> bool) (s : string) :
  (forall c, p c = true -> q c = true) ->
  allChars p s = true -> allChars q s = true.
Proof.
  intros Hpq. induction s as [|c s IH]; [reflexivity|]. cbn.
  intros [Hc Hs]%andb_true_iff. rewrite (Hpq c Hc). now apply IH.
Qed.

(** X27: for a path [dir/name.html], [name] without slash and dot,
    [getCurrentPage] answers [name] and [setupActiveLinks] marks exactly
    the links to [name.html]; a path that ends in a slash counts as
    [index] for both, and gets the home page initialiser. *)
Theorem page_name_of_a_path (dir name : string) :
  plainName name ->
  Main.getCurrentPage (dir +:+ "/" +:+ name +:+ ".html") = name
  /\ (forall href marked,
        Navigation.markActive (dir +:+ "/" +:+ name +:+ ".html")
                              (Some href, marked)
        = (Some href, marked || String.eqb href (name +:+ ".html")))
  /\ Main.getCurrentPage (dir +:+ "/") = "index"
  /\ Main.initializePageComponents (dir +:+ "/") = Main.HomePage
  /\ (forall href marked,
        Navigation.markActive (dir +:+ "/") (Some href, marked)
        = (Some href, marked || String.eqb href "index.html")).
Proof.
  intros [Hne Hplain].
  assert (Hslash : allChars (fun c => negb (Ascii.eqb c "/")) name = true)
    by (revert Hplain; apply allChars_weaken;
        intros c Hc; now apply andb_true_iff in Hc).
  assert (Hdot : allChars (fun c => negb (Ascii.eqb c ".")) name = true)
    by (revert Hplain; apply allChars_weaken;
        intros c Hc; now apply andb_true_iff in Hc).
  assert (Hseg : Js.lastSegment (dir +:+ "/" +:+ name +:+ ".html")
                 = name +:+ ".html").
  { unfold Js.lastSegment.
    change ("/" +:+ name +:+ ".html") with (String "/" (name +:+ ".html")).
    rewrite lastSegmentFrom_slash, lastSegmentFrom_plain; [reflexivity|].
    clear -Hslash. induction name as [|c name IH]; [reflexivity|].
    cbn [allChars] in Hslash. apply andb_true_iff in Hslash.
    destruct Hslash as [Hc Hs]. rewrite str_append_cons. cbn [allChars].
    now rewrite Hc, IH. }
  assert (Hroot : Js.lastSegment (dir +:+ "/") = "")
    by (unfold Js.lastSegment; now rewrite lastSegmentFrom_slash).
  assert (Hmark : forall path page href marked,
             Navigation.currentPage path = page -> page <> "" ->
             Navigation.markActive path (Some href, marked)
             = (Some href, marked || String.eqb href page)).
  { intros path page href marked Hpage Hpne. unfold Navigation.markActive.
    cbn [fst]. rewrite Hpage.
    apply String.eqb_neq in Hpne. rewrite Hpne. cbn [andb].
    rewrite orb_false_r. destruct (String.eqb href page);
      [now rewrite orb_true_r|now rewrite orb_false_r]. }
  unfold Main.initializePageComponents, Main.getCurrentPage.
  rewrite Hseg, Hroot, replaceFirst_extension by assumption.
  destruct name as [|c name]; [contradiction|].
  repeat split.
  - intros href marked. apply Hmark; [|discriminate].
    unfold Navigation.currentPage. now rewrite Hseg, str_append_cons.
  - intros href marked. apply Hmark; [|discriminate].
    unfold Navigation.currentPage. now rewrite Hroot.
Qed.

Lemma page_name_of_a_path_witness :
  Main.getCurrentPage ("/site/pages" +:+ "/" +:+ "blog-post" +:+ ".html")
  = "blog-post".
Proof.
  apply (page_name_of_a_path "/site/pages" "blog-post").
  split; [discriminate|reflexivity].
Defined.

(** ** Tooltips *)

Lemma tips_takeOut_In (cb x : Main.Callback) (l rest : list Main.Callback) :
  Main.takeOut cb l = Some rest -> In cb l /\ (In x rest -> In x l).
Proof.
  revert rest. induction l as [|y l IH]; intros rest; cbn; [discriminate|].
  destruct (decide (y = cb)) as [->|Hne].
  - intros [= <-]. auto.
  - destruct (Main.takeOut cb l) as [r|]; [|discriminate].
    intros [= <-]. destruct (IH r eq_refl) as [H1 H2].
    split; [auto|]. intros [E|Hin]; auto.
Qed.

Lemma due_keeps_safe (target : nat) (cb : Main.Callback) (s : Main.Tips) :
  tooltipSafe target s -> tooltipSafe target (Main.fire s (Main.Due cb)).
Proof.
  intros [Hdoc Hpend]. cbn [Main.fire].
  destruct (Main.takeOut cb (Main.pending s)) as [rest|] eqn:Ht;
    [|now split].
  destruct (tips_takeOut_In cb (Main.Remove target) _ rest Ht) as [Hcb Hrest].
  unfold tooltipSafe, inDocument in *. destruct cb as [n|n]; cbn.
  - split; [|tauto]. rewrite map_map.
    rewrite in_map_iff in *. destruct Hdoc as (t & Hn & Hin).
    exists t. split; [|assumption]. now destruct (Main.node t =? n)%nat.
  - split; [|tauto].
    rewrite in_map_iff in *. destruct Hdoc as (t & Hn & Hin).
    exists t. split; [assumption|]. apply filter_In. split; [assumption|].
    apply negb_true_iff, Nat.eqb_neq. intros E. apply Hpend.
    now rewrite <- Hn, E.
Qed.

(** X28: [hideTooltip] takes the first tooltip of the document: when an
    older tooltip is still there, the newest one, which no pending timer
    removes, stays in the document whatever timers come due
    afterwards. *)
Theorem hide_leaves_the_newer_tooltip
        (s : Main.Tips) (old : Main.Tooltip) (rest : list Main.Tooltip)
        (newest : nat) (dues : list Main.Callback) :
  Main.tooltips s = old :: rest ->
  In newest (map Main.node rest) ->
  Main.node old <> newest ->
  ~ In (Main.Remove newest) (Main.pending s) ->
  inDocument newest
    (Main.runEvents (Main.MouseLeave :: map Main.Due dues) s).
Proof.
  intros Htips Hin Hold Hpend. cbn [Main.runEvents fold_left Main.fire].
  assert (Hsafe : tooltipSafe newest (Main.hideTooltip s)).
  { unfold Main.hideTooltip, tooltipSafe, inDocument. rewrite Htips. cbn.
    split; [now right|]. intros Hx. apply in_app_or in Hx.
    destruct Hx as [Hx|[Hx|[]]]; [contradiction|]. congruence. }
  revert Hsafe. generalize (Main.hideTooltip s).
  induction dues as [|cb dues IH]; intros t Ht; [apply Ht|].
  cbn [map fold_left]. apply IH. now apply due_keeps_safe.
Qed.

Lemma hide_leaves_the_newer_tooltip_witness :
  inDocument 1
    (Main.runEvents
       (Main.MouseLeave
          :: map Main.Due [Main.MakeVisible 0; Main.Remove 0;
                           Main.MakeVisible 1; Main.Remove 0])
       (Main.runEvents [Main.MouseEnter (Some "Email"); Main.MouseLeave;
                        Main.MouseEnter (Some "Phone")] Main.noTips)).
Proof.
  apply (hide_leaves_the_newer_tooltip
           (Main.runEvents [Main.MouseEnter (Some "Email"); Main.MouseLeave;
                            Main.MouseEnter (Some "Phone")] Main.noTips)
           (Main.mkTooltip 0 "Email" false) [Main.mkTooltip 1 "Phone" false] 1
           [Main.MakeVisible 0; Main.Remove 0; Main.MakeVisible 1;
            Main.Remove 0]);
    [reflexivity | now left | discriminate |].
  cbn. intros [H|[H|[H|[]]]]; discriminate.
Defined.
